(** * OpenAPI-Filter: a shallow embedding of [migrate.js]

    [filterOpenAPI(spec, options)] keeps the operations of an OpenAPI document
    that match a tag list and a path pattern, follows the references of what
    it keeps, and rebuilds the document with the components it reached.

    The embedding follows the JavaScript source statement by statement:
    - documents are JSON trees whose objects and arrays carry an identity
      (the [WeakSet] of visited objects is keyed by identity);
    - the closure state of [filterOpenAPI] ([usedComponents], [seenObjects],
      [usedTags], the console) is threaded through a state monad whose
      exceptions keep the state reached when they were thrown;
    - the two platform classes the source calls, [URL] and [RegExp], are
      parameters of the development. *)

From Stdlib Require Import String Ascii List Bool Arith NArith Lia DecimalString.
Import ListNotations.
Local Open Scope string_scope.
Local Open Scope list_scope.

Set Implicit Arguments.

(** ** JSON values as the program sees them *)

(** A value produced by [JSON.parse].  [id] is the identity of the object or
    array (its address); a number is kept as the string [String(n)] gives for
    it, which is all the program ever observes of a number: a decimal numeral,
    or ["Infinity"] and ["-Infinity"] for a literal out of range such as
    [1e400].  A string, a sequence of UTF-16 code units in JavaScript, is
    held as the bytes of its UTF-8 form, a surrogate on its own as the three
    bytes of its code point: two strings are equal exactly when their bytes
    are. *)
#[local] Unset Elimination Schemes.
Inductive value : Type :=
| VNull
| VBool (b : bool)
| VNum (repr : string)
| VStr (s : string)
| VArr (id : nat) (items : list value)
| VObj (id : nat) (fields : list (string * value)).

#[local] Set Elimination Schemes.

(** A JavaScript expression may also evaluate to [undefined]: [None]. *)
Definition jsval := option value.

(** The root object of the document, as its list of own properties in
    enumeration order. *)
Definition document := list (string * value).

Section ValueInd.
Variable P : value -> Prop.
Hypothesis Hnull : P VNull.
Hypothesis Hbool : forall b, P (VBool b).
Hypothesis Hnum : forall r, P (VNum r).
Hypothesis Hstr : forall s, P (VStr s).
Hypothesis Harr : forall id l, Forall P l -> P (VArr id l).
Hypothesis Hobj : forall id fs, Forall (fun kv => P (snd kv)) fs -> P (VObj id fs).

Fixpoint value_ind' (v : value) : P v :=
    match v with
    | VNull => Hnull
    | VBool b => Hbool b
    | VNum r => Hnum r
    | VStr s => Hstr s
    | VArr id l =>
        Harr id ((fix go (l : list value) : Forall P l :=
                    match l with
                    | [] => Forall_nil _
                    | x :: r => Forall_cons _ (value_ind' x) (go r)
                    end) l)
    | VObj id fs =>
        Hobj id ((fix go (fs : list (string * value)) : Forall (fun kv => P (snd kv)) fs :=
                    match fs with
                    | [] => Forall_nil _
                    | kv :: r => Forall_cons _ (value_ind' (snd kv)) (go r)
                    end) fs)
    end.
End ValueInd.

(** ** Strings *)

Definition nat_to_string (n : nat) : string :=
  NilEmpty.string_of_uint (Nat.to_uint n).

(** [s.split(sep)] for a one-character separator. *)
Fixpoint split_on (sep : ascii) (s : string) : list string :=
  match s with
  | EmptyString => [EmptyString]
  | String c r =>
      if Ascii.eqb c sep then EmptyString :: split_on sep r
      else match split_on sep r with
           | [] => [String c EmptyString]
           | h :: t => String c h :: t
           end
  end.

(** The UTF-16 code units of a string, each as a string of its own: what the
    indices of a JavaScript string select, and what [length] counts.  One
    byte below 128 is one unit; a sequence of two or three bytes is one
    unit; a sequence of four bytes, a code point above [0xFFFF], is the two
    surrogates of its pair.  A byte outside any such sequence, which no
    JavaScript string gives, counts for one unit. *)
Definition byte (c : ascii) : N := N_of_ascii c.

Definition continuation (c : ascii) : bool :=
  ((128 <=? byte c) && (byte c <? 192))%N.

(** The three bytes of the code unit [u], for [u] from [0x800] on. *)
Definition three_bytes (u : N) : string :=
  String (ascii_of_N (224 + u / 4096))
    (String (ascii_of_N (128 + (u / 64) mod 64))
       (String (ascii_of_N (128 + u mod 64)) EmptyString)).

(** The surrogate pair of the code point that four bytes encode. *)
Definition surrogates (c0 c1 c2 c3 : ascii) : list string :=
  let cp := ((byte c0 - 240) * 262144 + (byte c1 - 128) * 4096
             + (byte c2 - 128) * 64 + (byte c3 - 128))%N in
  let v := (cp - 65536)%N in
  [three_bytes (55296 + v / 1024); three_bytes (56320 + v mod 1024)].

Fixpoint code_units (s : string) : list string :=
  match s with
  | EmptyString => []
  | String c0 r0 =>
      let one := String c0 EmptyString :: code_units r0 in
      if (byte c0 <? 192)%N then one
      else if (byte c0 <? 224)%N then
        match r0 with
        | String c1 r1 =>
            if continuation c1
            then String c0 (String c1 EmptyString) :: code_units r1
            else one
        | _ => one
        end
      else if (byte c0 <? 240)%N then
        match r0 with
        | String c1 (String c2 r2) =>
            if continuation c1 && continuation c2
            then String c0 (String c1 (String c2 EmptyString)) :: code_units r2
            else one
        | _ => one
        end
      else if (byte c0 <? 248)%N then
        match r0 with
        | String c1 (String c2 (String c3 r3)) =>
            if continuation c1 && continuation c2 && continuation c3
            then surrogates c0 c1 c2 c3 ++ code_units r3
            else one
        | _ => one
        end
      else one
  end.

Fixpoint join (sep : string) (l : list string) : string :=
  match l with
  | [] => ""
  | [x] => x
  | x :: r => (x ++ sep ++ join sep r)%string
  end.

Definition string_in (s : string) (l : list string) : bool :=
  existsb (String.eqb s) l.

(** ** Objects as ordered property lists *)

Fixpoint assoc {A : Type} (k : string) (l : list (string * A)) : option A :=
  match l with
  | [] => None
  | (k', v) :: r => if String.eqb k k' then Some v else assoc k r
  end.

Definition has_key {A : Type} (k : string) (l : list (string * A)) : bool :=
  match assoc k l with Some _ => true | None => false end.

(** Own-property write [o[k] = v]: an existing key keeps its place, a new one
    goes last. *)
Fixpoint set_field {A : Type} (k : string) (v : A) (l : list (string * A)) : list (string * A) :=
  match l with
  | [] => [(k, v)]
  | (k', v') :: r =>
      if String.eqb k k' then (k, v) :: r else (k', v') :: set_field k v r
  end.

(** [delete o[k]]. *)
Definition delete_field {A : Type} (k : string) (l : list (string * A)) : list (string * A) :=
  filter (fun kv => negb (String.eqb k (fst kv))) l.

(** [o[k] = v] on an object created by a literal [{}]: the key ["__proto__"]
    reaches the setter inherited from [Object.prototype] and creates no own
    property. *)
Definition js_assign (k : string) (v : value) (l : list (string * value)) : list (string * value) :=
  if String.eqb k "__proto__" then l else set_field k v l.

Fixpoint indexed_from {A : Type} (n : nat) (l : list A) : list (string * A) :=
  match l with
  | [] => []
  | x :: r => (nat_to_string n, x) :: indexed_from (S n) r
  end.

(** [Object.entries(v)] for a value that is neither [null] nor [undefined]:
    the fields of an object, the indexed elements of an array, the indexed
    code units of a string, nothing for a number or a boolean. *)
Definition entries (v : value) : list (string * value) :=
  match v with
  | VObj _ fs => fs
  | VArr _ l => indexed_from 0 l
  | VStr s => indexed_from 0 (map VStr (code_units s))
  | _ => []
  end.

Definition values_of (v : value) : list value := map snd (entries v).
Definition keys_of (v : value) : list string := map fst (entries v).

(** The array index a property name denotes: a decimal numeral without
    leading zeros. *)
Definition digit_of (c : ascii) : option nat :=
  let n := nat_of_ascii c in
  if (48 <=? n)%nat && (n <=? 57)%nat then Some (n - 48) else None.

Fixpoint digits_value (s : string) (acc : nat) : option nat :=
  match s with
  | EmptyString => Some acc
  | String c r =>
      match digit_of c with
      | Some d => digits_value r (10 * acc + d)
      | None => None
      end
  end.

Definition index_of_string (s : string) : option nat :=
  match s with
  | EmptyString => None
  | String "0" EmptyString => Some 0
  | String "0" _ => None
  | _ => digits_value s 0
  end.

(** Property read [v[k]] on a value that is not [null]: own properties,
    array and string indices and [length].  Properties inherited from the
    built-in prototypes are functions or prototype objects; the program reads
    none of them under the fixed names it uses, and under a computed name it
    only passes the result to [collectReferences], which ignores a function
    and finds nothing to enumerate in a prototype object. *)
Definition get (v : value) (k : string) : jsval :=
  match v with
  | VObj _ fs => assoc k fs
  | VArr _ l =>
      match index_of_string k with
      | Some i => nth_error l i
      | None => if String.eqb k "length" then Some (VNum (nat_to_string (length l))) else None
      end
  | VStr s =>
      match index_of_string k with
      | Some i => nth_error (map VStr (code_units s)) i
      | None =>
          if String.eqb k "length"
          then Some (VNum (nat_to_string (length (code_units s)))) else None
      end
  | _ => None
  end.

(** ToBoolean: among the numbers, zero (of either sign, ["0"]) and [NaN]
    are falsy. *)
Definition truthy (v : jsval) : bool :=
  match v with
  | None | Some VNull => false
  | Some (VBool b) => b
  | Some (VNum r) => negb (String.eqb r "0" || String.eqb r "NaN")
  | Some (VStr s) => negb (String.eqb s "")
  | Some (VArr _ _) | Some (VObj _ _) => true
  end.

Definition is_array (v : jsval) : bool :=
  match v with Some (VArr _ _) => true | _ => false end.

(** ToString.  [None] is the [TypeError] of an object whose own ["toString"]
    property (never callable in parsed JSON) hides the inherited method. *)
Fixpoint to_string (v : value) : option string :=
  match v with
  | VNull => Some "null"
  | VBool true => Some "true"
  | VBool false => Some "false"
  | VNum r => Some r
  | VStr s => Some s
  | VArr _ l =>
      (fix go (l : list value) : option string :=
         match l with
         | [] => Some ""
         | x :: r =>
             match (match x with VNull => Some "" | _ => to_string x end), go r with
             | Some a, Some b =>
                 Some (match r with [] => a | _ => (a ++ "," ++ b)%string end)
             | _, _ => None
             end
         end) l
  | VObj _ fs => if has_key "toString" fs then None else Some "[object Object]"
  end.

Definition to_string_js (v : jsval) : option string :=
  match v with
  | None => Some "undefined"
  | Some x => to_string x
  end.

(** SameValueZero, the equality of [Set.prototype.has] and
    [Array.prototype.includes]: primitives by value, objects by identity. *)
Definition same_value_zero (a b : jsval) : bool :=
  match a, b with
  | None, None => true
  | Some VNull, Some VNull => true
  | Some (VBool x), Some (VBool y) => Bool.eqb x y
  | Some (VNum x), Some (VNum y) => String.eqb x y
  | Some (VStr x), Some (VStr y) => String.eqb x y
  | Some (VArr i _), Some (VArr j _) => Nat.eqb i j
  | Some (VObj i _), Some (VObj j _) => Nat.eqb i j
  | _, _ => false
  end.

(** A [Set], as the list of its elements in insertion order. *)
Definition set_has (x : jsval) (s : list jsval) : bool :=
  existsb (same_value_zero x) s.

Definition set_add (x : jsval) (s : list jsval) : list jsval :=
  if set_has x s then s else s ++ [x].

(** [new Set(names)] for an array of strings. *)
Definition set_of_strings (names : list string) : list jsval :=
  fold_left (fun s n => set_add (Some (VStr n)) s) names [].

(** ** Identities *)

(** The identities of the objects and arrays of a value, root first. *)
Fixpoint ids (v : value) : list nat :=
  match v with
  | VArr id l => id :: flat_map ids l
  | VObj id fs => id :: flat_map (fun kv => ids (snd kv)) fs
  | _ => []
  end.

Definition ids_fields (fs : list (string * value)) : list nat :=
  flat_map (fun kv => ids (snd kv)) fs.

(** An identity above all those of a document. *)
Definition first_free (fs : list (string * value)) : nat :=
  S (fold_right Nat.max 0 (ids_fields fs)).

(** A number that is no finite number: [JSON.stringify] prints it as
    [null]. *)
Definition non_finite (repr : string) : bool :=
  string_in repr ["Infinity"; "-Infinity"; "NaN"].

(** [JSON.parse(JSON.stringify(v))]: the same tree in freshly allocated
    objects, numbered from [n] on, with [null] for every number that is not
    finite. *)
Fixpoint deep_copy (v : value) (n : nat) : value * nat :=
  match v with
  | VArr _ l =>
      let '(l', n') :=
        (fix go (l : list value) (n : nat) : list value * nat :=
           match l with
           | [] => ([], n)
           | x :: r =>
               let '(x', n1) := deep_copy x n in
               let '(r', n2) := go r n1 in
               (x' :: r', n2)
           end) l (S n) in
      (VArr n l', n')
  | VObj _ fs =>
      let '(fs', n') :=
        (fix go (fs : list (string * value)) (n : nat) : list (string * value) * nat :=
           match fs with
           | [] => ([], n)
           | (k, x) :: r =>
               let '(x', n1) := deep_copy x n in
               let '(r', n2) := go r n1 in
               ((k, x') :: r', n2)
           end) fs (S n) in
      (VObj n fs', n')
  | VNum r => (if non_finite r then VNull else v, n)
  | _ => (v, n)
  end.

Fixpoint deep_copy_fields (fs : list (string * value)) (n : nat) : list (string * value) * nat :=
  match fs with
  | [] => ([], n)
  | (k, x) :: r =>
      let '(x', n1) := deep_copy x n in
      let '(r', n2) := deep_copy_fields r n1 in
      ((k, x') :: r', n2)
  end.

(** The tree without its identities: two values with the same one are
    deep-equal. *)
#[local] Unset Elimination Schemes.
Inductive json : Type :=
| JNull
| JBool (b : bool)
| JNum (repr : string)
| JStr (s : string)
| JArr (items : list json)
| JObj (fields : list (string * json)).
#[local] Set Elimination Schemes.

Fixpoint erase (v : value) : json :=
  match v with
  | VNull => JNull
  | VBool b => JBool b
  | VNum r => JNum r
  | VStr s => JStr s
  | VArr _ l => JArr (map erase l)
  | VObj _ fs => JObj (map (fun kv => (fst kv, erase (snd kv))) fs)
  end.

Definition erase_fields (fs : list (string * value)) : list (string * json) :=
  map (fun kv => (fst kv, erase (snd kv))) fs.

(** What [JSON.parse] reads back from what [JSON.stringify] printed. *)
Fixpoint reparsed (j : json) : json :=
  match j with
  | JNum r => if non_finite r then JNull else j
  | JArr l => JArr (map reparsed l)
  | JObj fs => JObj (map (fun kv => (fst kv, reparsed (snd kv))) fs)
  | _ => j
  end.

Definition reparsed_fields (fs : list (string * json)) : list (string * json) :=
  map (fun kv => (fst kv, reparsed (snd kv))) fs.

Definition non_finite_number (v : value) : bool :=
  match v with
  | VNum r => non_finite r
  | _ => false
  end.

(** Every number in the tree is finite. *)
Fixpoint finite_numbers (v : value) : bool :=
  match v with
  | VNum r => negb (non_finite r)
  | VArr _ l => forallb finite_numbers l
  | VObj _ fs => forallb (fun kv => finite_numbers (snd kv)) fs
  | _ => true
  end.

(** ** The closure state of [filterOpenAPI] *)

(** [COMPONENT_TYPES]. *)
Inductive component_type : Type :=
| schemas | responses | parameters | examples | requestBodies | headers | securitySchemes.

Definition COMPONENT_TYPES : list component_type :=
  [schemas; responses; parameters; examples; requestBodies; headers; securitySchemes].

Definition type_name (t : component_type) : string :=
  match t with
  | schemas => "schemas"
  | responses => "responses"
  | parameters => "parameters"
  | examples => "examples"
  | requestBodies => "requestBodies"
  | headers => "headers"
  | securitySchemes => "securitySchemes"
  end.

Definition type_eqb (a b : component_type) : bool :=
  String.eqb (type_name a) (type_name b).

(** [COMPONENT_TYPES.includes(type)], giving the category when it holds. *)
Definition type_of_name (s : string) : option component_type :=
  find (fun t => String.eqb s (type_name t)) COMPONENT_TYPES.

(** The variables [filterOpenAPI] declares and its inner functions update.
    [scans] is not in the source: it records, in order, the identity of every
    object whose body [collectReferences] went on to scan. *)
Record state : Type := mkState {
  usedComponents : component_type -> list jsval;
  seenObjects : list nat;
  usedTags : list jsval;
  console : list string;
  scans : list nat;
  next_id : nat
}.

Definition add_used (t : component_type) (name : jsval) (st : state) : state :=
  mkState (fun t' => if type_eqb t' t then set_add name (usedComponents st t')
                     else usedComponents st t')
          (seenObjects st) (usedTags st) (console st) (scans st) (next_id st).

Definition mark_seen (id : nat) (st : state) : state :=
  mkState (usedComponents st) (id :: seenObjects st) (usedTags st) (console st)
          (scans st ++ [id]) (next_id st).

Definition add_tag (tag : jsval) (st : state) : state :=
  mkState (usedComponents st) (seenObjects st) (set_add tag (usedTags st)) (console st)
          (scans st) (next_id st).

Definition add_warning (msg : string) (st : state) : state :=
  mkState (usedComponents st) (seenObjects st) (usedTags st) (console st ++ [msg])
          (scans st) (next_id st).

Definition bump (st : state) : state :=
  mkState (usedComponents st) (seenObjects st) (usedTags st) (console st)
          (scans st) (S (next_id st)).

(** ** Statements: state, exceptions, fuel *)

Inductive exn : Type := TypeError | SyntaxError.

(** A statement ends normally, throws (the state it reached is kept: a
    [catch] block continues from it), or exhausts the recursion budget of the
    embedding. *)
Inductive result (A : Type) : Type :=
| Ok (a : A) (st : state)
| Throw (e : exn) (st : state)
| OutOfFuel.
Arguments Throw {A} e st.
Arguments OutOfFuel {A}.

Definition M (A : Type) : Type := state -> result A.

Definition ret {A : Type} (a : A) : M A := fun st => Ok a st.

Definition bind {A B : Type} (m : M A) (k : A -> M B) : M B :=
  fun st =>
    match m st with
    | Ok a st' => k a st'
    | Throw e st' => Throw e st'
    | OutOfFuel => OutOfFuel
    end.

Definition throw {A : Type} (e : exn) : M A := fun st => Throw e st.

Definition out_of_fuel {A : Type} : M A := fun _ => OutOfFuel.

(** [try { m } catch (e) { h }]. *)
Definition try_catch {A : Type} (m : M A) (h : exn -> M A) : M A :=
  fun st =>
    match m st with
    | Throw e st' => h e st'
    | r => r
    end.

Definition gets {A : Type} (f : state -> A) : M A := fun st => Ok (f st) st.

Definition modify (f : state -> state) : M unit := fun st => Ok tt (f st).

Notation "x <- m ;; k" := (bind m (fun x => k))
  (at level 61, m at next level, right associativity).
Notation "m ;; k" := (bind m (fun _ => k))
  (at level 61, right associativity).

(** [l.forEach(f)]. *)
Fixpoint forEach {A : Type} (l : list A) (f : A -> M unit) : M unit :=
  match l with
  | [] => ret tt
  | x :: r => f x ;; forEach r f
  end.

(** A loop that carries local variables from one iteration to the next. *)
Fixpoint foldM {A B : Type} (f : B -> A -> M B) (l : list A) (b : B) : M B :=
  match l with
  | [] => ret b
  | x :: r => b' <- f b x ;; foldM f r b'
  end.

(** [if (v) k(v)]. *)
Definition when_truthy (v : jsval) (k : value -> M unit) : M unit :=
  match v with
  | Some x => if truthy v then k x else ret tt
  | None => ret tt
  end.

(** [v[k]], a [TypeError] on [null]. *)
Definition get_M (v : value) (k : string) : M jsval :=
  match v with
  | VNull => throw TypeError
  | _ => ret (get v k)
  end.

Definition to_string_M (v : jsval) : M string :=
  match to_string_js v with
  | Some s => ret s
  | None => throw TypeError
  end.

(** A computation that reads no state: [None] is a [TypeError]. *)
Definition lift {A : Type} (o : option A) : M A :=
  match o with
  | Some a => ret a
  | None => throw TypeError
  end.

(** A fresh identity for an object or array literal. *)
Definition fresh : M nat := fun st => Ok (next_id st) (bump st).

Definition warn (msg : string) : M unit := modify (add_warning msg).

(** ** The platform *)

(** What the program reads of a parsed [URL]. *)
Record url : Type := mkUrl { pathname : string; hash : string }.

(** [filterOpenAPI]'s configuration. *)
Record options : Type := mkOptions {
  tags : list string;
  pathPattern : option string;
  excludeInternalComponents : bool;
  alwaysIncludeComponents : list string
}.

Definition HTTP_METHODS : list string :=
  ["get"; "post"; "put"; "delete"; "patch"; "head"; "options"; "trace"].

Definition ERROR_COMPONENTS : list string :=
  ["Error"; "Failure"; "ValidationError"; "AccessDeniedError"; "AuthzError"].

Section Filter.

  (** [new URL(ref, 'file:///')]: the parsed reference, or [None] when the
      constructor throws. *)
Variable URL : string -> option url.

  (** [new RegExp(pattern)]: the [test] method of the compiled pattern, or
      [None] when the constructor throws its [SyntaxError]. *)
Variable RegExp : string -> option (string -> bool).

Section Closure.

    (** The [spec] argument.  [collectReferences] reads [spec.components]
        only, which the program never updates. *)
Variable spec : document.

    (** The [options] argument. *)
Variable opts : options.

    (** [spec.components?.[type]?.[name]]; [None] is the [TypeError] of a
        name that has no string form. *)
Definition find_component (type : component_type) (name : jsval) : option jsval :=
      match assoc "components" spec with
      | None | Some VNull => Some None
      | Some c =>
          match get c (type_name type) with
          | None | Some VNull => Some None
          | Some x =>
              match to_string_js name with
              | Some k => Some (get x k)
              | None => None
              end
          end
      end.

Definition component_of (type : component_type) (name : jsval) : M jsval :=
      match find_component type name with
      | Some c => ret c
      | None => throw TypeError
      end.

    (** The identities inside [spec.components]. *)
Definition component_ids : list nat :=
      match assoc "components" spec with
      | Some c => ids c
      | None => []
      end.

Section Scan.

      (** The recursive occurrence of [collectReferences]. *)
Variable collect : jsval -> M unit.

Definition trackComponent (type : component_type) (name : jsval) : M unit :=
        used <- gets (fun st => usedComponents st type) ;;
        if set_has name used then ret tt
        else
          modify (add_used type name) ;;
          component <- component_of type name ;;
          if truthy component then collect component else ret tt.

      (** [if (obj.$ref) { try { ... } catch (e) { console.warn(...) } }].
          The [try] block encloses the call of [trackComponent], hence the
          scan of the component it reaches. *)
Definition scan_ref (obj : value) : M unit :=
        let ref := get obj "$ref" in
        if truthy ref then
          try_catch
            (s <- to_string_M ref ;;
             match URL s with
             | None => throw TypeError
             | Some refUrl =>
                 if String.eqb (pathname refUrl) "/components" then
                   let parts := split_on "/" (hash refUrl) in
                   match nth_error parts 2 with
                   | Some type =>
                       match type_of_name type with
                       | Some t => trackComponent t (option_map VStr (nth_error parts 3))
                       | None => ret tt
                       end
                   | None => ret tt
                   end
                 else ret tt
             end)
            (fun _ => s <- to_string_M ref ;; warn ("Invalid $ref: " ++ s))
        else ret tt.

      (** [['allOf', 'anyOf', 'oneOf'].forEach(...)]. *)
Definition scan_composition (obj : value) : M unit :=
        forEach ["allOf"; "anyOf"; "oneOf"] (fun prop =>
          match get obj prop with
          | Some (VArr _ l) => forEach l (fun s => collect (Some s))
          | _ => ret tt
          end).

      (** [properties], [items], [additionalProperties]. *)
Definition scan_schema (obj : value) : M unit :=
        when_truthy (get obj "properties") (fun p =>
          forEach (values_of p) (fun v => collect (Some v))) ;;
        when_truthy (get obj "items") (fun v => collect (Some v)) ;;
        when_truthy (get obj "additionalProperties") (fun v => collect (Some v)).

      (** [obj.parameters.forEach(...)]: [forEach] exists on arrays only. *)
Definition scan_parameters (obj : value) : M unit :=
        when_truthy (get obj "parameters") (fun ps =>
          match ps with
          | VArr _ l =>
              forEach l (fun param =>
                r <- get_M param "$ref" ;;
                (if truthy r then collect (Some param) else ret tt) ;;
                s <- get_M param "schema" ;;
                when_truthy s (fun x => collect (Some x)))
          | _ => throw TypeError
          end).

      (** [Object.values(obj.content).forEach(...)]. *)
Definition scan_content (obj : value) : M unit :=
        when_truthy (get obj "content") (fun c =>
          forEach (values_of c) (fun content =>
            s <- get_M content "schema" ;;
            when_truthy s (fun x => collect (Some x)))).

      (** [obj.security.forEach(...)]: the keys of every requirement go
          straight into [usedComponents.securitySchemes]. *)
Definition scan_security (obj : value) : M unit :=
        when_truthy (get obj "security") (fun sec =>
          match sec with
          | VArr _ l =>
              forEach l (fun secReq =>
                forEach (if truthy (Some secReq) then keys_of secReq else [])
                  (fun schemeName =>
                     modify (add_used securitySchemes (Some (VStr schemeName)))))
          | _ => throw TypeError
          end).

      (** [if (obj['x-responseDTO']) trackComponent('schemas', ...)]. *)
Definition scan_dto (obj : value) : M unit :=
        when_truthy (get obj "x-responseDTO") (fun d =>
          trackComponent schemas (Some d)).

      (** [for (const value of Object.values(obj)) ...]; [typeof null] is
          ['object']. *)
Definition scan_values (obj : value) : M unit :=
        forEach (values_of obj) (fun value =>
          match value with
          | VArr _ l => forEach l (fun item => collect (Some item))
          | VObj _ _ | VNull => collect (Some value)
          | _ => ret tt
          end).

Definition scan (obj : value) : M unit :=
        scan_ref obj ;;
        scan_composition obj ;;
        scan_schema obj ;;
        scan_parameters obj ;;
        scan_content obj ;;
        scan_security obj ;;
        scan_dto obj ;;
        scan_values obj.

      (** The body of [collectReferences]. *)
Definition collect_body (obj : jsval) : M unit :=
        match obj with
        | Some (VArr id _ as o) | Some (VObj id _ as o) =>
            seen <- gets seenObjects ;;
            if existsb (Nat.eqb id) seen then ret tt
            else modify (mark_seen id) ;; scan o
        | _ => ret tt
        end.

End Scan.

    (** [collectReferences], with a bound on the depth of nested calls. *)
Fixpoint collectReferences (fuel : nat) (obj : jsval) : M unit :=
      match fuel with
      | O => out_of_fuel
      | S f => collect_body (collectReferences f) obj
      end.

    (** A call of [collectReferences] from the body of [filterOpenAPI].  Every
        nested call that goes on scans an object of [obj] or of
        [spec.components] not scanned before, so their number bounds the
        depth. *)
Definition collect (obj : jsval) : M unit :=
      collectReferences
        (S (length (match obj with Some v => ids v | None => [] end) + length component_ids))
        obj.

    (** *** Operations *)

    (** The key under which a parameter is remembered:
        [`${param.in}.${param.name}`]; [None] is a [TypeError]. *)
Definition param_key (param : value) : option string :=
      match param with
      | VNull => None
      | _ =>
          match to_string_js (get param "in"), to_string_js (get param "name") with
          | Some a, Some b => Some (a ++ "." ++ b)%string
          | _, _ => None
          end
      end.

    (** The [forEach] that fills [uniqueParams]; [seenParams] is the set of
    keys met so far.  [None] is a [TypeError]. *)
Fixpoint unique_params (params : list value) (seenParams : list string) : option (list value) :=
  match params with
  | [] => Some []
  | param :: rest =>
      match param_key param with
      | None => None
      | Some key =>
          if string_in key seenParams then unique_params rest seenParams
          else option_map (cons param) (unique_params rest (seenParams ++ [key]))
      end
  end.

(** [operation.parameters = uniqueParams], on the operation object
    itself. *)
Definition assign_parameters (operation : value) (uniqueParams : value) : value :=
  match operation with
  | VObj id fs => VObj id (set_field "parameters" uniqueParams fs)
  | _ => operation
  end.

(** [if (operation.parameters) { ... }]: the operation as the update
    leaves it. *)
Definition deduplicate_parameters (operation : value) : M value :=
  let p := get operation "parameters" in
  if truthy p then
    id <- fresh ;;
    match p with
    | Some (VArr _ l) =>
        match unique_params l [] with
        | Some u => ret (assign_parameters operation (VArr id u))
        | None => throw TypeError
        end
    | _ => throw TypeError
    end
  else ret operation.

(** The local variables of one iteration over [spec.paths]:
        [filteredPathItem], [hasOperations], and the entries of [pathItem]
        as the iteration leaves them. *)
Record item_acc : Type := mkItem {
      filteredPathItem : list (string * value);
      hasOperations : bool;
      visited : list (string * value)
    }.

    (** [operation.tags || []] read as an array: [some] and [forEach] exist
    on arrays only.  [None] is a [TypeError]. *)
Definition operation_tags (operation : value) : option (list value) :=
  match operation with
  | VNull => None
  | _ =>
      let t := get operation "tags" in
      if truthy t then
        match t with
        | Some (VArr _ l) => Some l
        | _ => None
        end
      else Some []
  end.

Definition tag_included (tag : value) : bool :=
  match tag with
  | VStr s => string_in s (tags opts)
  | _ => false
  end.

(** [tags.length === 0 || operationTags.some(tag => tags.includes(tag))]. *)
Definition should_include (operation : value) : option bool :=
  match operation with
  | VNull => None
  | _ =>
      match tags opts with
      | [] => Some true
      | _ => option_map (existsb tag_included) (operation_tags operation)
      end
  end.

(** The callback of [Object.entries(pathItem).forEach]. *)
Definition process_method (acc : item_acc) (entry : string * value) : M item_acc :=
  let '(method, operation) := entry in
  if negb (string_in method HTTP_METHODS) then
    ret (mkItem (js_assign method operation (filteredPathItem acc))
                (hasOperations acc) (visited acc ++ [entry]))
  else
    shouldInclude <- lift (should_include operation) ;;
    if negb shouldInclude then
      ret (mkItem (filteredPathItem acc) (hasOperations acc) (visited acc ++ [entry]))
    else
      l <- lift (operation_tags operation) ;;
      forEach l (fun tag => modify (add_tag (Some tag))) ;;
      operation' <- deduplicate_parameters operation ;;
      collect (Some operation') ;;
      ret (mkItem (js_assign method operation' (filteredPathItem acc))
                  true (visited acc ++ [(method, operation')])).

(** A container with its entries replaced by the ones an iteration left
        behind. *)
Definition rebuild (v : value) (ents : list (string * value)) : value :=
      match v with
      | VObj id _ => VObj id ents
      | VArr id _ => VArr id (map snd ents)
      | _ => v
      end.

    (** The local variables of the iteration over [spec.paths]:
        [filteredSpec.paths] and the entries of [spec.paths] as left. *)
Record paths_acc : Type := mkPaths {
      filteredPaths : list (string * value);
      visitedPaths : list (string * value)
    }.

    (** [!(pathRegex && !pathRegex.test(path))]. *)
Definition selected (pathRegex : option (string -> bool)) (path : string) : bool :=
  match pathRegex with
  | Some test => test path
  | None => true
  end.

(** The callback of [Object.entries(spec.paths || {}).forEach]. *)
Definition process_path (pathRegex : option (string -> bool))
               (acc : paths_acc) (entry : string * value) : M paths_acc :=
      let '(path, pathItem) := entry in
      if negb (selected pathRegex path) then
        ret (mkPaths (filteredPaths acc) (visitedPaths acc ++ [entry]))
      else
        id <- fresh ;;
        p <- get_M pathItem "parameters" ;;
        (if truthy p then
           w <- fresh ;;
           collect (Some (VObj w [("parameters", match p with Some x => x | None => VNull end)]))
         else ret tt) ;;
        item <- foldM process_method (entries pathItem) (mkItem [] false []) ;;
        let pathItem' := rebuild pathItem (visited item) in
        if hasOperations item then
          collect (Some pathItem') ;;
          ret (mkPaths (js_assign path (VObj id (filteredPathItem item)) (filteredPaths acc))
                       (visitedPaths acc ++ [(path, pathItem')]))
        else
          ret (mkPaths (filteredPaths acc) (visitedPaths acc ++ [(path, pathItem')])).

    (** *** Seeds and closure *)

    (** [['Error', ...].forEach(name => ...)]. *)
Definition force_errors : M unit :=
      forEach ERROR_COMPONENTS (fun name =>
        c <- component_of schemas (Some (VStr name)) ;;
        if truthy c then
          modify (add_used schemas (Some (VStr name))) ;;
          collect c
        else ret tt).

    (** The callback over the names of one category in the closure loop; the
    result is [hasChanges]. *)
Definition resolve_component (type : component_type) (hasChanges : bool) (name : jsval) : M bool :=
  component <- component_of type name ;;
  if truthy component then
    before <- gets (fun st => length (usedComponents st type)) ;;
    collect component ;;
    size <- gets (fun st => length (usedComponents st type)) ;;
    ret (if Nat.ltb before size then true else hasChanges)
  else ret hasChanges.

(** The callback of [COMPONENT_TYPES.forEach] in the closure loop, over
    [Array.from(usedComponents[type])]. *)
Definition resolve_type (hasChanges : bool) (type : component_type) : M bool :=
  names <- gets (fun st => usedComponents st type) ;;
  foldM (resolve_component type) names hasChanges.

(** The body of the [do ... while (hasChanges)] loop; the result is
    [hasChanges]. *)
Definition resolve_pass : M bool :=
  foldM resolve_type COMPONENT_TYPES false.

(** [do { ... } while (hasChanges)], with a bound on the iterations. *)
Fixpoint resolve (fuel : nat) : M unit :=
      match fuel with
      | O => out_of_fuel
      | S f =>
          hasChanges <- resolve_pass ;;
          if hasChanges then resolve f else ret tt
      end.

    (** *** Assembly *)

    (** [Object.fromEntries]. *)
Definition from_entries (ents : list (string * value)) : list (string * value) :=
      fold_left (fun o kv => set_field (fst kv) (snd kv) o) ents [].

    (** The [filter] callback over the entries of one category; [None] is a
    [TypeError]. *)
Definition keep_component (used : list jsval) (x : value) (entry : string * value) : option bool :=
  if set_has (Some (VStr (fst entry))) used then
    if excludeInternalComponents opts then
      match get x (fst entry) with
      | None | Some VNull => None
      | Some c => Some (negb (truthy (get c "x-internal")))
      end
    else Some true
  else Some false.

(** [l.filter(f)] for a callback that may throw. *)
Fixpoint filter_opt {A : Type} (f : A -> option bool) (l : list A) : option (list A) :=
  match l with
  | [] => Some []
  | x :: r =>
      match f x, filter_opt f r with
      | Some b, Some r' => Some (if b then x :: r' else r')
      | _, _ => None
      end
  end.

(** [filteredSpec.components] after the callback of
    [COMPONENT_TYPES.forEach] has stored the object [id] with the entries
    [kept] under [type], and deleted it again if it is empty. *)
Definition store_category (type : component_type) (id : nat) (kept : list (string * value))
           (fc : list (string * value)) : list (string * value) :=
  let o := from_entries kept in
  let fc' := set_field (type_name type) (VObj id o) fc in
  match keys_of (VObj id o) with
  | [] => delete_field (type_name type) fc'
  | _ => fc'
  end.

(** The callback of [COMPONENT_TYPES.forEach] in the assembly;
    [fc] is [filteredSpec.components]. *)
Definition filter_category (c : value) (fc : list (string * value))
           (type : component_type) : M (list (string * value)) :=
  match get c (type_name type) with
  | Some x =>
      if truthy (Some x) then
        used <- gets (fun st => usedComponents st type) ;;
        kept <- lift (filter_opt (keep_component used x) (entries x)) ;;
        id <- fresh ;;
        ret (store_category type id kept fc)
      else ret fc
  | None => ret fc
  end.

(** [if (spec.components) { ... }]. *)
Definition filter_components (filteredSpec : document) : M document :=
      match assoc "components" spec with
      | Some c =>
          if truthy (Some c) then
            id <- fresh ;;
            fc <- foldM (filter_category c) COMPONENT_TYPES [] ;;
            ret (set_field "components" (VObj id fc) filteredSpec)
          else ret filteredSpec
      | None => ret filteredSpec
      end.

    (** The [filter] callback over [spec.tags]; [None] is a [TypeError]. *)
Definition keep_tag (used : list jsval) (tag : value) : option bool :=
  match tag with
  | VNull => None
  | _ =>
      if set_has (get tag "name") used then
        if excludeInternalComponents opts
        then Some (negb (truthy (get tag "x-internal")))
        else Some true
      else Some false
  end.

(** [spec.tags || []] read as an array: [filter] exists on arrays only. *)
Definition source_tags : option (list value) :=
  let t := assoc "tags" spec in
  if truthy t then
    match t with
    | Some (VArr _ l) => Some l
    | _ => None
    end
  else Some [].

(** [filteredSpec.tags = (spec.tags || []).filter(...)]. *)
Definition filter_tags (filteredSpec : document) : M document :=
  l <- lift source_tags ;;
  used <- gets usedTags ;;
  kept <- lift (filter_opt (keep_tag used) l) ;;
  id <- fresh ;;
  ret (set_field "tags" (VArr id kept) filteredSpec).

(** [['components', 'security', 'tags'].forEach(field => ...)]. *)
Definition clean_field (filteredSpec : document) (field : string) : document :=
      match assoc field filteredSpec with
      | Some v =>
          if truthy (Some v) && Nat.eqb (length (keys_of v)) 0
          then delete_field field filteredSpec
          else filteredSpec
      | None => filteredSpec
      end.

Definition clean_empty_fields (filteredSpec : document) : document :=
      fold_left clean_field ["components"; "security"; "tags"] filteredSpec.

    (** [pathPattern ? new RegExp(pathPattern) : null]; [None] is the
    [SyntaxError] of the constructor. *)
Definition compile_pattern : option (option (string -> bool)) :=
  match pathPattern opts with
  | Some p =>
      if String.eqb p "" then Some None
      else match RegExp p with
           | Some test => Some (Some test)
           | None => None
           end
  | None => Some None
  end.

(** [Object.entries(spec.paths || {})]. *)
Definition path_entries : list (string * value) :=
  match assoc "paths" spec with
  | Some ps => if truthy (Some ps) then entries ps else []
  | None => []
  end.

(** *** The body of [filterOpenAPI]

        The result pairs [filteredSpec] with [spec] as the call leaves it:
        the operations the paths loop updates are the objects of [spec]. *)
Definition filter_body : M (document * document) :=
      n <- gets next_id ;;
      let '(copy, n') := deep_copy_fields spec n in
      modify (fun st => mkState (usedComponents st) (seenObjects st) (usedTags st)
                                (console st) (scans st) n') ;;
      pid <- fresh ;;
      let filteredSpec := set_field "paths" (VObj pid []) copy in
      pathRegex <-
        (match compile_pattern with
         | Some r => ret r
         | None => throw SyntaxError
         end) ;;
      let paths := assoc "paths" spec in
      acc <- foldM (process_path pathRegex) path_entries (mkPaths [] []) ;;
      let filteredSpec :=
        set_field "paths" (VObj pid (filteredPaths acc)) filteredSpec in
      let spec' :=
        match paths with
        | Some ps => if truthy paths
                     then set_field "paths" (rebuild ps (visitedPaths acc)) spec
                     else spec
        | None => spec
        end in
      (let security := assoc "security" filteredSpec in
       if truthy security then
         w <- fresh ;;
         collect (Some (VObj w [("security", match security with Some x => x | None => VNull end)]))
       else ret tt) ;;
      force_errors ;;
      resolve (S (length component_ids)) ;;
      filteredSpec <- filter_components filteredSpec ;;
      let filteredSpec :=
        match assoc "securitySchemes" spec with
        | Some s => if truthy (Some s) then set_field "securitySchemes" s filteredSpec
                    else filteredSpec
        | None => filteredSpec
        end in
      filteredSpec <- filter_tags filteredSpec ;;
      ret (clean_empty_fields filteredSpec, spec').

End Closure.

  (** The state at the entry of [filterOpenAPI]: every category starts from
      [new Set(alwaysIncludeComponents)]; identities above those of [spec]
      are free. *)
Definition initial_state (spec : document) (opts : options) : state :=
    mkState (fun _ => set_of_strings (alwaysIncludeComponents opts))
            [] [] [] [] (first_free spec).

Definition filterOpenAPI (spec : document) (opts : options) : result (document * document) :=
    filter_body spec opts (initial_state spec opts).

End Filter.

(** ** A model of the [URL] constructor

    [new URL(input, 'file:///')] after the URL Standard, for what the
    program reads of the result: the pathname and the hash.  The parser is
    followed state by state: the scheme, the authority with its credentials,
    host and port, the path with its dot segments and drive letters, the
    opaque path of a scheme such as [urn:], the fragment.  The host of a
    special scheme goes through the IPv4 and IPv6 parsers and the checks on
    forbidden code points; one step is not modelled, the IDNA mapping of a
    host that is not ASCII or that has an [xn--] label, which is taken to
    succeed.  The general theorems below hold for every constructor; the
    examples use fragment-only references. *)
Module Whatwg.
Local Open Scope nat_scope.

Definition code (c : ascii) : nat := nat_of_ascii c.

Definition is_alpha (c : ascii) : bool :=
    ((65 <=? code c) && (code c <=? 90)) || ((97 <=? code c) && (code c <=? 122)).

Definition is_digit (c : ascii) : bool := (48 <=? code c) && (code c <=? 57).

Definition is_slash (c : ascii) : bool := Ascii.eqb c "/" || Ascii.eqb c "\".

Definition c0_or_space (c : ascii) : bool := code c <=? 32.

Definition tab_or_newline (c : ascii) : bool :=
    (code c =? 9) || (code c =? 10) || (code c =? 13).

Definition lower (c : ascii) : ascii :=
    if (65 <=? code c) && (code c <=? 90) then ascii_of_nat (code c + 32) else c.

Fixpoint lowercase (s : string) : string :=
    match s with
    | String c r => String (lower c) (lowercase r)
    | EmptyString => EmptyString
    end.

  (** The conversion of the argument to a string of scalar values: a
      surrogate on its own becomes U+FFFD. *)
Fixpoint scalar_values (s : string) : string :=
    match s with
    | EmptyString => EmptyString
    | String c0 r0 =>
        match r0 with
        | String c1 (String c2 r) =>
            if (code c0 =? 237) && (160 <=? code c1) && (code c1 <? 192)
               && (128 <=? code c2) && (code c2 <? 192)
            then String (ascii_of_nat 239)
                   (String (ascii_of_nat 191) (String (ascii_of_nat 189) (scalar_values r)))
            else String c0 (scalar_values r0)
        | _ => String c0 (scalar_values r0)
        end
    end.

Fixpoint drop_leading (s : string) : string :=
    match s with
    | String c r => if c0_or_space c then drop_leading r else s
    | EmptyString => EmptyString
    end.

Fixpoint drop_trailing (s : string) : string :=
    match s with
    | String c r =>
        match drop_trailing r with
        | EmptyString => if c0_or_space c then EmptyString else String c EmptyString
        | r' => String c r'
        end
    | EmptyString => EmptyString
    end.

Fixpoint remove_tab_newline (s : string) : string :=
    match s with
    | String c r =>
        if tab_or_newline c then remove_tab_newline r else String c (remove_tab_newline r)
    | EmptyString => EmptyString
    end.

Definition preprocess (s : string) : string :=
    remove_tab_newline (drop_trailing (drop_leading (scalar_values s))).

  (** The part before the first [c], and the part after it if there is one. *)
Fixpoint cut (c : ascii) (s : string) : string * option string :=
    match s with
    | EmptyString => (EmptyString, None)
    | String a r =>
        if Ascii.eqb a c then (EmptyString, Some r)
        else let '(h, t) := cut c r in (String a h, t)
    end.

  (** The part before the first character that satisfies [p], and the rest
      from that character on. *)
Fixpoint span (p : ascii -> bool) (s : string) : string * string :=
    match s with
    | EmptyString => (EmptyString, EmptyString)
    | String a r =>
        if p a then (EmptyString, s)
        else let '(h, t) := span p r in (String a h, t)
    end.

  (** The part after the last [c], if there is a [c]. *)
Fixpoint after_last (c : ascii) (s : string) : option string :=
    match s with
    | EmptyString => None
    | String a r =>
        match after_last c r with
        | Some t => Some t
        | None => if Ascii.eqb a c then Some r else None
        end
    end.

  (** Scheme state: a letter, then letters, digits, [+], [-], [.] up to a
      colon; the scheme in lower case and what follows the colon. *)
Fixpoint scheme_rest (s : string) : option (string * string) :=
    match s with
    | String c r =>
        if Ascii.eqb c ":" then Some (EmptyString, r)
        else if is_alpha c || is_digit c || Ascii.eqb c "+" || Ascii.eqb c "-" || Ascii.eqb c "."
             then match scheme_rest r with
                  | Some (h, t) => Some (String (lower c) h, t)
                  | None => None
                  end
             else None
    | EmptyString => None
    end.

Definition scheme_of (s : string) : option (string * string) :=
    match s with
    | String c r => if is_alpha c then scheme_rest s else None
    | EmptyString => None
    end.

Definition special_scheme (scheme : string) : bool :=
    string_in scheme ["ftp"; "file"; "http"; "https"; "ws"; "wss"].

Definition hex_digit (n : nat) : ascii :=
    ascii_of_nat (if n <? 10 then 48 + n else 55 + n).

Definition percent (c : ascii) : string :=
    String "%" (String (hex_digit (code c / 16)) (String (hex_digit (code c mod 16)) EmptyString)).

Definition c0_control_set (c : ascii) : bool := (code c <? 32) || (126 <? code c).

Definition fragment_set (c : ascii) : bool :=
    c0_control_set c || existsb (Ascii.eqb c) [" "; "034"; "<"; ">"; "`"]%char.

Definition path_set (c : ascii) : bool :=
    c0_control_set c
    || existsb (Ascii.eqb c) [" "; "034"; "#"; "<"; ">"; "?"; "`"; "{"; "}"]%char.

Fixpoint encode (set : ascii -> bool) (s : string) : string :=
    match s with
    | EmptyString => EmptyString
    | String c r => ((if set c then percent c else String c EmptyString) ++ encode set r)%string
    end.

  (** *** Hosts *)

Definition hex_value (c : ascii) : option nat :=
    if is_digit c then Some (code c - 48)
    else if (65 <=? code c) && (code c <=? 70) then Some (code c - 55)
    else if (97 <=? code c) && (code c <=? 102) then Some (code c - 87)
    else None.

Fixpoint percent_decode (s : string) : string :=
    match s with
    | EmptyString => EmptyString
    | String c r =>
        match r with
        | String a (String b r') =>
            match (if Ascii.eqb c "%" then hex_value a else None), hex_value b with
            | Some x, Some y => String (ascii_of_nat (16 * x + y)) (percent_decode r')
            | _, _ => String c (percent_decode r)
            end
        | _ => String c (percent_decode r)
        end
    end.

Fixpoint all_chars (p : ascii -> bool) (s : string) : bool :=
    match s with
    | EmptyString => true
    | String c r => p c && all_chars p r
    end.

Definition some_char (p : ascii -> bool) (s : string) : bool :=
    negb (all_chars (fun c => negb (p c)) s).

Definition forbidden_host (c : ascii) : bool :=
    existsb (Nat.eqb (code c)) [0; 9; 10; 13; 32]
    || existsb (Ascii.eqb c) ["#"; "/"; ":"; "<"; ">"; "?"; "@"; "["; "\"; "]"; "^"; "|"]%char.

Definition forbidden_domain (c : ascii) : bool :=
    forbidden_host c || (code c <? 32) || Ascii.eqb c "%" || (code c =? 127).

  (** An IPv4 number: decimal, octal after [0], hexadecimal after [0x]. *)
Fixpoint number_in (radix : N) (s : string) (acc : N) : option N :=
    match s with
    | EmptyString => Some acc
    | String c r =>
        match hex_value c with
        | Some d => if (N.of_nat d <? radix)%N
                    then number_in radix r (radix * acc + N.of_nat d)%N
                    else None
        | None => None
        end
    end.

Definition ipv4_number (s : string) : option N :=
    match s with
    | EmptyString => None
    | String "0" (String x r) =>
        if Ascii.eqb x "x" || Ascii.eqb x "X" then number_in 16 r 0
        else number_in 8 (String x r) 0
    | _ => number_in 10 s 0
    end.

  (** The labels of a host, without the empty one a final dot leaves. *)
Definition labels (s : string) : list string :=
    let parts := split_on "." s in
    match rev parts with
    | EmptyString :: ((_ :: _) as r) => rev r
    | _ => parts
    end.

Definition ends_in_number (s : string) : bool :=
    match rev (split_on "." s) with
    | [EmptyString] => false
    | EmptyString :: last :: _ | last :: _ =>
        (negb (String.eqb last "") && all_chars is_digit last)
        || match ipv4_number last with Some _ => true | None => false end
    | [] => false
    end.

Fixpoint all_but_last_small (l : list (option N)) : bool :=
    match l with
    | [] => true
    | [x] => match x with Some _ => true | None => false end
    | x :: r =>
        match x with
        | Some n => (n <=? 255)%N && all_but_last_small r
        | None => false
        end
    end.

Definition ipv4_valid (s : string) : bool :=
    let parts := labels s in
    let numbers := map ipv4_number parts in
    (length parts <=? 4)
    && all_but_last_small numbers
    && match last numbers None with
       | Some n => (n <? 256 ^ N.of_nat (5 - length parts))%N
       | None => false
       end.

  (** The dotted decimal end of an IPv6 address: four numbers up to 255,
      without leading zeros. *)
Fixpoint ipv4_piece (s : string) (piece : option nat) : option (nat * string) :=
    match s with
    | String c r =>
        if is_digit c then
          match piece with
          | None => ipv4_piece r (Some (code c - 48))
          | Some 0 => None
          | Some p => if 255 <? 10 * p + (code c - 48) then None
                      else ipv4_piece r (Some (10 * p + (code c - 48)))
          end
        else match piece with Some p => Some (p, s) | None => None end
    | EmptyString => match piece with Some p => Some (p, s) | None => None end
    end.

Fixpoint ipv6_ipv4 (fuel : nat) (s : string) (numbersSeen : nat) : bool :=
    match fuel with
    | O => false
    | S f =>
        match s with
        | EmptyString => numbersSeen =? 4
        | String c r =>
            let start :=
              if 0 <? numbersSeen
              then if Ascii.eqb c "." && (numbersSeen <? 4) then Some r else None
              else Some s in
            match start with
            | None => false
            | Some s' =>
                match ipv4_piece s' None with
                | Some (_, rest) => ipv6_ipv4 f rest (S numbersSeen)
                | None => false
                end
            end
        end
    end.

  (** Up to [n] hexadecimal digits: how many were read, and the rest. *)
Fixpoint take_hex (n : nat) (s : string) : nat * string :=
    match n, s with
    | S m, String c r =>
        match hex_value c with
        | Some _ => let '(k, t) := take_hex m r in (S k, t)
        | None => (0, s)
        end
    | _, _ => (0, s)
    end.

Fixpoint ipv6_pieces (fuel : nat) (s : string) (pieceIndex : nat) (compress : bool) : bool :=
    match fuel with
    | O => false
    | S f =>
        match s with
        | EmptyString => compress || (pieceIndex =? 8)
        | String c r =>
            if pieceIndex =? 8 then false
            else if Ascii.eqb c ":" then
              if compress then false else ipv6_pieces f r (S pieceIndex) true
            else
              let '(len, rest) := take_hex 4 s in
              match rest with
              | EmptyString => compress || (S pieceIndex =? 8)
              | String d rest' =>
                  if Ascii.eqb d "." then
                    (0 <? len) && (pieceIndex <=? 6)
                    && ipv6_ipv4 (S (String.length s)) s 0
                    && (compress || (pieceIndex + 2 =? 8))
                  else if Ascii.eqb d ":" then
                    match rest' with
                    | EmptyString => false
                    | _ => ipv6_pieces f rest' (S pieceIndex) compress
                    end
                  else false
              end
        end
    end.

Definition ipv6_valid (s : string) : bool :=
    match s with
    | String ":" (String ":" r) => ipv6_pieces (S (String.length r)) r 1 true
    | String ":" _ => false
    | _ => ipv6_pieces (S (String.length s)) s 0 false
    end.

Fixpoint ends_with (c : ascii) (s : string) : bool :=
    match s with
    | EmptyString => false
    | String a EmptyString => Ascii.eqb a c
    | String _ r => ends_with c r
    end.

Fixpoint without_last (s : string) : string :=
    match s with
    | EmptyString | String _ EmptyString => EmptyString
    | String a r => String a (without_last r)
    end.

Definition punycode_label (l : string) : bool :=
    match lowercase l with
    | String "x" (String "n" (String "-" (String "-" _))) => true
    | _ => false
    end.

  (** The host parser, as far as it can fail.  [special] is the case of a
      special scheme, a domain; the other case is the opaque host. *)
Definition host_valid (special : bool) (h : string) : bool :=
    match h with
    | String "[" r => ends_with "]" r && ipv6_valid (without_last r)
    | _ =>
        if special then
          let d := percent_decode h in
          if some_char (fun c => 127 <? code c) d || existsb punycode_label (split_on "." d)
          then true
          else
            negb (some_char forbidden_domain d)
            && (if ends_in_number d then ipv4_valid d else true)
        else negb (some_char forbidden_host h)
    end.

  (** Host state: the host up to a colon outside brackets, and the port
      after it if there is one. *)
Fixpoint host_port (s : string) (inside : bool) : string * option string :=
    match s with
    | EmptyString => (EmptyString, None)
    | String c r =>
        if Ascii.eqb c ":" && negb inside then (EmptyString, Some r)
        else
          let inside' :=
            if Ascii.eqb c "[" then true
            else if Ascii.eqb c "]" then false else inside in
          let '(h, p) := host_port r inside' in (String c h, p)
    end.

Definition port_valid (p : string) : bool :=
    match number_in 10 p 0 with
    | Some n => (n <=? 65535)%N
    | None => false
    end.

  (** Authority state: credentials up to the last [@], then host and
      port. *)
Definition authority_valid (special : bool) (authority : string) : bool :=
    let '(credentials, hostport) :=
      match after_last "@" authority with
      | Some t => (true, t)
      | None => (false, authority)
      end in
    if credentials && String.eqb hostport "" then false
    else
      let '(h, p) := host_port hostport false in
      match p with
      | Some port =>
          negb (String.eqb h "") && host_valid special h && port_valid port
      | None =>
          if String.eqb h "" then negb special else host_valid special h
      end.

  (** *** Paths *)

  (** The segments of a path, cut at [/], and at [\] for a special
      scheme. *)
Fixpoint segments (special : bool) (s : string) : list string :=
    match s with
    | EmptyString => [EmptyString]
    | String c r =>
        if (if special then is_slash c else Ascii.eqb c "/")
        then EmptyString :: segments special r
        else match segments special r with
             | [] => [String c EmptyString]
             | h :: t => String c h :: t
             end
    end.

Definition single_dot (b : string) : bool :=
    string_in b ["."; "%2e"; "%2E"].

Definition double_dot (b : string) : bool :=
    string_in b [".."; ".%2e"; ".%2E"; "%2e."; "%2E."; "%2e%2e"; "%2e%2E"; "%2E%2e"; "%2E%2E"].

Definition drive_letter (b : string) : option string :=
    match b with
    | String a (String c EmptyString) =>
        if is_alpha a && (Ascii.eqb c ":" || Ascii.eqb c "|")
        then Some (String a (String ":" EmptyString)) else None
    | _ => None
    end.

  (** Shorten a path; a drive letter alone stays, under the [file]
      scheme. *)
Definition shorten (file : bool) (path : list string) : list string :=
    match path with
    | [d] => if file
             then match drive_letter d with
                  | Some d' => if String.eqb d d' then path else []
                  | None => []
                  end
             else []
    | _ => removelast path
    end.

  (** Path state: one buffer after the other; the last one ends the path. *)
Fixpoint path_state (file : bool) (path : list string) (bufs : list string) : list string :=
    match bufs with
    | [] => path
    | b :: rest =>
        let last := match rest with [] => true | _ => false end in
        let path' :=
          if double_dot b then
            if last then shorten file path ++ [EmptyString] else shorten file path
          else if single_dot b then
            if last then path ++ [EmptyString] else path
          else
            match path, (if file then drive_letter b else None) with
            | [], Some d => [d]
            | _, _ => path ++ [b]
            end in
        path_state file path' rest
    end.

Definition serialize (path : list string) : string :=
    fold_right (fun seg acc => ("/" ++ seg ++ acc)%string) EmptyString path.

  (** The pathname that the path state gives [s], from an empty path. *)
Definition path_of (special file : bool) (s : string) : string :=
    serialize (path_state file [] (map (encode path_set) (segments special s))).

  (** Path start state, after an authority: [rest] is empty or starts with
      a slash. *)
Definition path_after_host (special file : bool) (rest : string) : string :=
    match rest with
    | EmptyString => if special then "/" else EmptyString
    | String _ r => path_of special file r
    end.

Fixpoint drop_slashes (s : string) : string :=
    match s with
    | String c r => if is_slash c then drop_slashes r else s
    | EmptyString => EmptyString
    end.

  (** File state and what follows it, against the base [file:///].  [None]
      is a failure of the host parser. *)
Definition file_state (s : string) : option string :=
    match s with
    | EmptyString => Some "/"
    | String c r =>
        if is_slash c then
          match r with
          | String c' r' =>
              if is_slash c' then
                let '(buffer, rest) := span is_slash r' in
                match drive_letter buffer with
                | Some _ => Some (path_of true true r')
                | None =>
                    if String.eqb buffer "" || host_valid true buffer
                    then Some (path_after_host true true rest)
                    else None
                end
              else Some (path_of true true r)
          | EmptyString => Some (path_of true true r)
          end
        else Some (path_of true true s)
    end.

  (** A special scheme other than [file]: slashes, then an authority. *)
Definition special_state (s : string) : option string :=
    let '(authority, rest) := span is_slash (drop_slashes s) in
    if authority_valid true authority
    then Some (path_after_host true false rest)
    else None.

  (** Any other scheme: an authority after [//], a path after [/], an
      opaque path otherwise. *)
Definition other_state (s : string) : option string :=
    match s with
    | String "/" (String "/" r) =>
        let '(authority, rest) := span (Ascii.eqb "/") r in
        if authority_valid false authority
        then Some (path_after_host false false rest)
        else None
    | String "/" r => Some (path_of false false r)
    | _ => Some (encode c0_control_set s)
    end.

Definition URL_file (input : string) : option url :=
    let s := preprocess input in
    let '(before, fragment) := cut "#" s in
    let '(p, _) := cut "?" before in
    let path :=
      match scheme_of p with
      | Some (scheme, rest) =>
          if String.eqb scheme "file" then file_state rest
          else if special_scheme scheme then special_state rest
          else other_state rest
      | None => file_state p
      end in
    match path with
    | Some pathname =>
        Some (mkUrl pathname
                    (match fragment with
                     | None | Some EmptyString => EmptyString
                     | Some f => String "#" (encode fragment_set f)
                     end))
    | None => None
    end.

  (** No pattern is configured in the examples; this constructor rejects
      every pattern. *)
Definition RegExp_none (pattern : string) : option (string -> bool) := None.

End Whatwg.

(** ** Specifications of statements *)

(** [triple P m Q E F]: from a state satisfying [P], the statement [m] ends
    normally in a state satisfying [Q], or throws in a state satisfying [E];
    it exhausts its budget only if [F] holds. *)
Definition triple {A : Type} (P : state -> Prop) (m : M A)
           (Q : A -> state -> Prop) (E : state -> Prop) (F : Prop) : Prop :=
  forall st, P st ->
    match m st with
    | Ok a st' => Q a st'
    | Throw _ st' => E st'
    | OutOfFuel => F
    end.

(** [m] keeps the invariant [I], also when it throws. *)
Definition preserves {A : Type} (I : state -> Prop) (F : Prop) (m : M A) : Prop :=
  triple I m (fun _ => I) I F.

Definition seen (id : nat) (st : state) : bool :=
  existsb (Nat.eqb id) (seenObjects st).

(** The invariant [I] as it has to hold when [collectReferences] is entered
    with [v]: [I] holds as soon as [v] is marked. *)
Definition entering (I : state -> Prop) (v : value) (st : state) : Prop :=
  match v with
  | VArr id _ | VObj id _ => if seen id st then I st else I (mark_seen id st)
  | _ => I st
  end.

(** What the scan of one object adds to the reachable sets, by its own
    fields: the target of its [$ref], the keys of its [security]
    requirements, the name in its [x-responseDTO]. *)
Inductive mentions (URL : string -> option url) (obj : value) : component_type -> jsval -> Prop :=
| mentions_ref : forall s refUrl type t,
    truthy (get obj "$ref") = true ->
    to_string_js (get obj "$ref") = Some s ->
    URL s = Some refUrl ->
    pathname refUrl = "/components" ->
    nth_error (split_on "/" (hash refUrl)) 2 = Some type ->
    type_of_name type = Some t ->
    mentions URL obj t (option_map VStr (nth_error (split_on "/" (hash refUrl)) 3))
| mentions_security : forall id l secReq schemeName,
    get obj "security" = Some (VArr id l) ->
    In secReq l ->
    truthy (Some secReq) = true ->
    In schemeName (keys_of secReq) ->
    mentions URL obj securitySchemes (Some (VStr schemeName))
| mentions_dto : forall d,
    get obj "x-responseDTO" = Some d ->
    truthy (Some d) = true ->
    mentions URL obj schemas (Some d).

(** [x] is [v] or nested in it. *)
Inductive within (x : value) : value -> Prop :=
| within_refl : within x x
| within_step : forall v y, In y (values_of v) -> within x y -> within x v.

(** The identities of [U] that [collectReferences] has not entered yet. *)
Definition unseen (U : list nat) (st : state) : nat :=
  length (filter (fun i => negb (seen i st)) U).

(** [m] does not exhaust its budget, whatever the state. *)
Definition total {A : Type} (m : M A) : Prop :=
  triple (fun _ => True) m (fun _ _ => True) (fun _ => True) False.

(** ** What the filter keeps and what it scans *)

(** The update of one operation by the de-duplication of its parameters. *)
Definition deduped (op op' : value) : Prop :=
  (truthy (get op "parameters") = false /\ op' = op) \/
  (exists i l id u,
      get op "parameters" = Some (VArr i l) /\
      unique_params l [] = Some u /\
      op' = assign_parameters op (VArr id u)).

Definition is_true (o : option bool) : bool :=
  match o with Some true => true | _ => false end.

(** An entry of a path item that is an operation the tag filter retains. *)
Definition retained_entry (opts : options) (e : string * value) : bool :=
  string_in (fst e) HTTP_METHODS && is_true (should_include opts (snd e)).

(** An entry of a path item that reaches [filteredPathItem]: any key that is
    not an HTTP method, and the retained operations. *)
Definition kept_entry (opts : options) (e : string * value) : bool :=
  negb (string_in (fst e) HTTP_METHODS) || retained_entry opts e.

(** An entry of a path item as the paths loop leaves it: a retained
    operation with its parameters de-duplicated, anything else untouched. *)
Definition entry_left (opts : options) (e e' : string * value) : Prop :=
  fst e' = fst e /\
  if retained_entry opts e then deduped (snd e) (snd e') else snd e' = snd e.

Section Reachability.

Variable URL : string -> option url.
Variable RegExp : string -> option (string -> bool).
Variable spec : document.
Variable opts : options.

(** The deep copy [filterOpenAPI] starts from. *)
Definition working_copy : document :=
  fst (deep_copy_fields spec (first_free spec)).

(** The objects [filterOpenAPI] hands to [collectReferences] before the
    closure loop: the wrapper around the path-level parameters of every path
    the pattern selects, every selected path item with a retained operation,
    and the wrapper around the root-level security list of the copy. *)
Inductive scan_root : value -> Prop :=
| root_parameters : forall w pathRegex path pathItem p,
    compile_pattern RegExp opts = Some pathRegex ->
    In (path, pathItem) (path_entries spec) ->
    selected pathRegex path = true ->
    get pathItem "parameters" = Some p ->
    truthy (Some p) = true ->
    scan_root (VObj w [("parameters", p)])
| root_item : forall pathRegex path pathItem,
    compile_pattern RegExp opts = Some pathRegex ->
    In (path, pathItem) (path_entries spec) ->
    selected pathRegex path = true ->
    existsb (retained_entry opts) (entries pathItem) = true ->
    scan_root pathItem
| root_security : forall w s,
    assoc "security" working_copy = Some s ->
    truthy (Some s) = true ->
    scan_root (VObj w [("security", s)]).

(** The roots the specification names: the retained operations and the
    root-level security list. *)
Inductive claimed_root : value -> Prop :=
| claimed_operation : forall pathRegex path pathItem method op,
    compile_pattern RegExp opts = Some pathRegex ->
    In (path, pathItem) (path_entries spec) ->
    selected pathRegex path = true ->
    In (method, op) (entries pathItem) ->
    retained_entry opts (method, op) = true ->
    claimed_root op
| claimed_security : forall w s,
    assoc "security" working_copy = Some s ->
    truthy (Some s) = true ->
    claimed_root (VObj w [("security", s)]).

Section Closed.

(** The objects scanned to begin with. *)
Variable root : value -> Prop.

(** The names a scan from [root] puts into the reachable sets: the
    always-included names, the conventional error schemas the source
    defines, and whatever a scanned object mentions; scanned are the roots,
    the definitions of the components reached, and all they contain. *)
Inductive Reached : component_type -> jsval -> Prop :=
| Reached_always : forall t name,
    In name (alwaysIncludeComponents opts) ->
    Reached t (Some (VStr name))
| Reached_error : forall name c,
    In name ERROR_COMPONENTS ->
    find_component spec schemas (Some (VStr name)) = Some (Some c) ->
    truthy (Some c) = true ->
    Reached schemas (Some (VStr name))
| Reached_mention : forall n t x,
    Scanned n -> mentions URL n t x -> Reached t x
with Scanned : value -> Prop :=
| Scanned_root : forall r n,
    root r -> within n r -> Scanned n
| Scanned_component : forall t x c n,
    Reached t x ->
    find_component spec t x = Some (Some c) ->
    within n c ->
    Scanned n.

Scheme Reached_min := Minimality for Reached Sort Prop
  with Scanned_min := Minimality for Scanned Sort Prop.

(** Every name in a reachable set is reached. *)
Definition sound (st : state) : Prop :=
  forall t x, In x (usedComponents st t) -> Reached t x.

(** Whatever [v] and the objects in it mention is reached. *)
Definition covered (v : value) : Prop :=
  forall n, within n v -> forall t x, mentions URL n t x -> Reached t x.

End Closed.

End Reachability.

Module SampleShared.

(** A path whose only operation is tagged [Admin], with a path-level
    parameter whose schema names [Foo] as its response DTO. *)
Definition spec : document :=
  [("paths",
    VObj 1
      [("/admin",
        VObj 2
          [("parameters",
            VArr 3
              [VObj 4
                 [("name", VStr "id"); ("in", VStr "path");
                  ("schema", VObj 5 [("x-responseDTO", VStr "Foo")])]]);
           ("get", VObj 6 [("tags", VArr 7 [VStr "Admin"])])])]);
   ("components", VObj 8 [("schemas", VObj 9 [("Foo", VObj 10 [])])])].

End SampleShared.

(** ** The paths loop, as a relation between its input and what it leaves *)

(** [filteredPathItem] (and [filteredSpec.paths]) after the assignments of a
    list of entries, in order. *)
Definition assign_all (l : list (string * value)) : list (string * value) :=
  fold_left (fun o e => js_assign (fst e) (snd e) o) l [].

(** The local variables of the iteration over a path item once the entries
    [pre] are processed. *)
Definition item_inv (opts : options) (pre : list (string * value)) (acc : item_acc) : Prop :=
  Forall2 (entry_left opts) pre (visited acc) /\
  hasOperations acc = existsb (retained_entry opts) pre /\
  filteredPathItem acc = assign_all (filter (kept_entry opts) (visited acc)).

(** What one entry of [spec.paths] contributes to [filteredSpec.paths]:
    nothing, or its path with a fresh object holding the kept entries. *)
Definition path_left (opts : options) (pathRegex : option (string -> bool))
           (e : string * value) (k : list (string * value)) : Prop :=
  (k = [] /\
   (selected pathRegex (fst e) = false \/
    existsb (retained_entry opts) (entries (snd e)) = false)) \/
  (exists id ents',
      k = [(fst e, VObj id (assign_all (filter (kept_entry opts) ents')))] /\
      selected pathRegex (fst e) = true /\
      existsb (retained_entry opts) (entries (snd e)) = true /\
      Forall2 (entry_left opts) (entries (snd e)) ents').

(** The local variables of the paths loop once the entries [pre] are
    processed. *)
Definition paths_inv (opts : options) (pathRegex : option (string -> bool))
           (pre : list (string * value)) (acc : paths_acc) : Prop :=
  exists ks, Forall2 (path_left opts pathRegex) pre ks /\
             filteredPaths acc = assign_all (concat ks).

(** ** The assembled document, as a relation with the final state *)

(** [filteredSpec.components] against the reachable sets [used]: under each
    category name, the object of the source entries the [filter] callback
    keeps, and nothing when it keeps none. *)
Definition category_inv (opts : options) (used : component_type -> list jsval)
           (c : value) (t : component_type) (fc : list (string * value)) : Prop :=
  match get c (type_name t) with
  | Some x =>
      if truthy (Some x) then
        exists kept,
          filter_opt (keep_component opts (used t) x) (entries x) = Some kept /\
          match from_entries kept with
          | [] => assoc (type_name t) fc = None
          | o => exists id, assoc (type_name t) fc = Some (VObj id o)
          end
      else assoc (type_name t) fc = None
  | None => assoc (type_name t) fc = None
  end.

Definition components_inv (opts : options) (used : component_type -> list jsval)
           (c : value) (fc : list (string * value)) : Prop :=
  (forall t, category_inv opts used c t fc) /\
  (forall k v, assoc k fc = Some v -> exists t, k = type_name t).

Definition with_components (opts : options) (used : component_type -> list jsval)
           (spec X0 X1 : document) : Prop :=
  match assoc "components" spec with
  | Some c =>
      if truthy (Some c)
      then exists id fc, components_inv opts used c fc /\
                         X1 = set_field "components" (VObj id fc) X0
      else X1 = X0
  | None => X1 = X0
  end.

Definition with_security_schemes (spec X : document) : document :=
  match assoc "securitySchemes" spec with
  | Some s => if truthy (Some s) then set_field "securitySchemes" s X else X
  | None => X
  end.

Definition with_tags (opts : options) (used : list jsval) (spec X0 X1 : document) : Prop :=
  exists l kept id,
    source_tags spec = Some l /\
    filter_opt (keep_tag opts used) l = Some kept /\
    X1 = set_field "tags" (VArr id kept) X0.

(** The document [filterOpenAPI] returns from the state [st]. *)
Definition assembled (opts : options) (pathRegex : option (string -> bool))
           (spec : document) (st : state) (out : document) : Prop :=
  exists pid acc X1 X2,
    paths_inv opts pathRegex (path_entries spec) acc /\
    with_components opts (usedComponents st) spec
      (set_field "paths" (VObj pid (filteredPaths acc)) (working_copy spec)) X1 /\
    with_tags opts (usedTags st) spec (with_security_schemes spec X1) X2 /\
    out = clean_empty_fields X2.

(** The closure loop is measured by the objects of [spec.components] not yet
    entered: a pass that reports a change has entered one more. *)
Definition pass_inv (spec : document) (k : nat) (hasChanges : bool) (st : state) : Prop :=
  unseen (component_ids spec) st <= k /\
  (hasChanges = true -> unseen (component_ids spec) st < k).

(** A set holds every element once. *)
Fixpoint distinct (l : list jsval) : Prop :=
  match l with
  | [] => True
  | x :: r => set_has x r = false /\ distinct r
  end.

(** The identity of an object or array. *)
Definition container_id (v : value) : option nat :=
  match v with
  | VArr id _ | VObj id _ => Some id
  | _ => None
  end.

(** [collectReferences] has entered [v], if [v] is an object or array. *)
Definition entered (v : value) (st : state) : Prop :=
  match container_id v with
  | Some id => seen id st = true
  | None => True
  end.

(** The scan log is the visited set: every object entered is logged once. *)
Definition log_inv (st : state) : Prop :=
  NoDup (scans st) /\
  (forall id, In id (scans st) <-> In id (seenObjects st)) /\
  (forall t, distinct (usedComponents st t)).

(** A name the closure loop has yet to look up once the categories [pre] of
    a pass are done: the names of security schemes, which
    [collectReferences] adds without a scan, and the always-included names
    of the categories to come. *)
Definition excused (opts : options) (pre : list component_type)
           (t : component_type) (x : jsval) : Prop :=
  t = securitySchemes \/
  (~ In t pre /\ In x (set_of_strings (alwaysIncludeComponents opts))).

(** Every name of a reachable set that the source defines has had its
    definition entered, the names [P] excuses apart. *)
Definition scanned_inv (spec : document) (P : component_type -> jsval -> Prop)
           (st : state) : Prop :=
  forall t x c,
    In x (usedComponents st t) ->
    find_component spec t x = Some (Some c) ->
    P t x \/ entered c st.

Module SampleCycle.

(** Two schemas that name each other as response DTO, the first of them
    named by the only operation. *)
Definition spec : document :=
  [("paths",
    VObj 1 [("/a", VObj 2 [("get", VObj 3 [("x-responseDTO", VStr "A")])])]);
   ("components",
    VObj 4
      [("schemas",
        VObj 5
          [("A", VObj 6 [("x-responseDTO", VStr "B")]);
           ("B", VObj 7 [("x-responseDTO", VStr "A")])])])].

End SampleCycle.

Module SampleRefCycle.

(** Two schemas that refer to each other by [$ref], the first of them
    referred to by the response of the only operation. *)
Definition spec : document :=
  [("paths",
    VObj 1
      [("/a",
        VObj 2
          [("get",
            VObj 3
              [("responses",
                VObj 4
                  [("200",
                    VObj 5
                      [("content",
                        VObj 6
                          [("application/json",
                            VObj 7
                              [("schema",
                                VObj 8 [("$ref", VStr "#/components/schemas/A")])])])])])])])]);
   ("components",
    VObj 9
      [("schemas",
        VObj 10
          [("A",
            VObj 11
              [("type", VStr "object");
               ("properties",
                VObj 12 [("next", VObj 13 [("$ref", VStr "#/components/schemas/B")])])]);
           ("B",
            VObj 14
              [("type", VStr "object");
               ("properties",
                VObj 15 [("back", VObj 16 [("$ref", VStr "#/components/schemas/A")])])])])])].

End SampleRefCycle.

(** What a run leaves to observe of the scan: the document returned, the
    reachable set of [schemas], and the objects scanned, in order. *)
Definition scan_report (r : result (document * document))
  : option (list (string * json) * list jsval * list nat) :=
  match r with
  | Ok (out, _) st => Some (erase_fields out, usedComponents st schemas, scans st)
  | _ => None
  end.

(** [deep_copy] on the elements of an array, left to right. *)
Fixpoint deep_copy_list (l : list value) (n : nat) : list value * nat :=
  match l with
  | [] => ([], n)
  | x :: r =>
      let '(x', n1) := deep_copy x n in
      let '(r', n2) := deep_copy_list r n1 in
      (x' :: r', n2)
  end.

(** ** Sample documents *)
Module Sample.

(** One path with one operation tagged [User]: three parameters of which the
    third repeats the first, and a response body that refers to the schema
    [Foo]; the schemas [Foo], [Error] (which names [Bar] as its response DTO)
    and [Bar]; two tags. *)
Definition users : document :=
  [("openapi", VStr "3.0.0");
   ("paths",
    VObj 1
      [("/users",
        VObj 2
          [("get",
            VObj 3
              [("tags", VArr 4 [VStr "User"]);
               ("parameters",
                VArr 5
                  [VObj 6 [("in", VStr "query"); ("name", VStr "a")];
                   VObj 7 [("in", VStr "header"); ("name", VStr "a")];
                   VObj 8 [("in", VStr "query"); ("name", VStr "a")]]);
               ("responses",
                VObj 9
                  [("200",
                    VObj 10
                      [("content",
                        VObj 11
                          [("application/json",
                            VObj 12
                              [("schema",
                                VObj 13 [("$ref", VStr "#/components/schemas/Foo")])])])])])])])]);
   ("components",
    VObj 14
      [("schemas",
        VObj 15
          [("Foo", VObj 16 [("type", VStr "object")]);
           ("Error", VObj 17 [("x-responseDTO", VStr "Bar")]);
           ("Bar", VObj 18 [])])]);
   ("tags", VArr 19 [VObj 20 [("name", VStr "User")]; VObj 21 [("name", VStr "Admin")]])].

Definition only_user : options := mkOptions ["User"] None false [].

Definition defaults : options := mkOptions [] None false [].

(** [filterOpenAPI] on the platform model of the examples. *)
Definition run (spec : document) (opts : options) : result (document * document) :=
  filterOpenAPI Whatwg.URL_file Whatwg.RegExp_none spec opts.

Definition output (r : result (document * document)) : option (list (string * json)) :=
  match r with
  | Ok (out, _) _ => Some (erase_fields out)
  | _ => None
  end.

End Sample.

(** ** The claims that fail as stated *)

(** The always-include claim as the specification states it: whatever the
    configuration, a name of [alwaysIncludeComponents] that a source category
    defines is in that category of the output. *)
Definition always_included_claim : Prop :=
  forall URL RegExp spec opts out spec' st name t ci cfields i fields c,
    filterOpenAPI URL RegExp spec opts = Ok (out, spec') st ->
    In name (alwaysIncludeComponents opts) ->
    assoc "components" spec = Some (VObj ci cfields) ->
    assoc (type_name t) cfields = Some (VObj i fields) ->
    NoDup (map fst fields) ->
    assoc name fields = Some c ->
    exists oi ofields ci' cat,
      assoc "components" out = Some (VObj oi ofields) /\
      assoc (type_name t) ofields = Some (VObj ci' cat) /\
      assoc name cat = Some c.

Module SampleInternal.

(** A schema marked internal that nothing refers to. *)
Definition spec : document :=
  [("paths", VObj 1 []);
   ("components",
    VObj 2 [("schemas", VObj 3 [("Keep", VObj 4 [("x-internal", VBool true)])])])].

Definition opts : options := mkOptions [] None true ["Keep"].

End SampleInternal.

Module SampleJobs.

(** A valid description whose request body has a property named
    [parameters]. *)
Definition spec : document :=
  [("openapi", VStr "3.0.0");
   ("paths",
    VObj 1
      [("/jobs",
        VObj 2
          [("post",
            VObj 3
              [("requestBody",
                VObj 4
                  [("content",
                    VObj 5
                      [("application/json",
                        VObj 6
                          [("schema",
                            VObj 7
                              [("type", VStr "object");
                               ("properties",
                                VObj 8
                                  [("parameters",
                                    VObj 9 [("type", VStr "object")])])])])])])])])])].

End SampleJobs.

(** Does a run end by throwing [e]? *)
Definition throws {A : Type} (e : exn) (r : result A) : bool :=
  match r, e with
  | Throw TypeError _, TypeError => true
  | Throw SyntaxError _, SyntaxError => true
  | _, _ => false
  end.

(** [spec] as the call leaves it. *)
Definition input_after (r : result (document * document)) : option (list (string * json)) :=
  match r with
  | Ok (_, spec') _ => Some (erase_fields spec')
  | _ => None
  end.

(** The claim on the other top-level fields as the specification states it:
    each is in the output with a value deep-equal to its value in the
    input. *)
Definition untouched_claim : Prop :=
  forall URL RegExp spec opts out spec' st k,
    filterOpenAPI URL RegExp spec opts = Ok (out, spec') st ->
    ~ In k ["paths"; "components"; "tags"; "security"; "securitySchemes"] ->
    option_map erase (assoc k out) = option_map erase (assoc k spec).

Module SampleLimit.

(** A document read from a text with the extension field [x-limit] set to
    [1e400], which [JSON.parse] reads as [Infinity]. *)
Definition spec : document :=
  [("openapi", VStr "3.0.0");
   ("x-limit", VNum "Infinity");
   ("paths", VObj 1 [])].

End SampleLimit.

(** ** De-duplication of parameters, as a specification *)

(** Two parameters are remembered under the same key. *)
Definition same_key (p q : value) : bool :=
  match param_key p, param_key q with
  | Some a, Some b => String.eqb a b
  | _, _ => false
  end.

(** [l] without the parameters whose key is the key of a parameter before
    them; [earlier] holds the parameters already passed. *)
Fixpoint drop_repeated (earlier l : list value) : list value :=
  match l with
  | [] => []
  | p :: r =>
      if existsb (same_key p) earlier
      then drop_repeated (earlier ++ [p]) r
      else p :: drop_repeated (earlier ++ [p]) r
  end.

Definition first_occurrences (l : list value) : list value := drop_repeated [] l.

(** A string with a full stop in it. *)
Fixpoint has_dot (s : string) : bool :=
  match s with
  | EmptyString => false
  | String c r => Ascii.eqb c "." || has_dot r
  end.

(** The (location, name) pair of a parameter, as JSON. *)
Definition pair_of (p : value) : option json * option json :=
  (option_map erase (get p "in"), option_map erase (get p "name")).

(** The de-duplication the specification states: a parameter is removed
    exactly when its (location, name) pair is the pair of an earlier one. *)
Inductive dedup_by_pair : list value -> list value -> list value -> Prop :=
| dedup_by_pair_nil : forall earlier, dedup_by_pair earlier [] []
| dedup_by_pair_drop : forall earlier p r u,
    (exists q, In q earlier /\ pair_of q = pair_of p) ->
    dedup_by_pair (earlier ++ [p]) r u ->
    dedup_by_pair earlier (p :: r) u
| dedup_by_pair_keep : forall earlier p r u,
    (forall q, In q earlier -> pair_of q <> pair_of p) ->
    dedup_by_pair (earlier ++ [p]) r u ->
    dedup_by_pair earlier (p :: r) (p :: u).

(** The de-duplication claim as the specification states it. *)
Definition dedup_by_pair_claim : Prop :=
  forall URL RegExp spec opts out spec' st pid fp path i fpi method op',
    filterOpenAPI URL RegExp spec opts = Ok (out, spec') st ->
    assoc "paths" out = Some (VObj pid fp) ->
    In (path, VObj i fpi) fp ->
    In (method, op') fpi ->
    string_in method HTTP_METHODS = true ->
    exists pathItem op,
      In (path, pathItem) (path_entries spec) /\
      In (method, op) (entries pathItem) /\
      forall ai l,
        get op "parameters" = Some (VArr ai l) ->
        exists id u, get op' "parameters" = Some (VArr id u) /\ dedup_by_pair [] l u.

Module SampleDots.

(** Two parameters with different (location, name) pairs and the same
    key ["query.x.y"]. *)
Definition spec : document :=
  [("paths",
    VObj 1
      [("/search",
        VObj 2
          [("get",
            VObj 3
              [("parameters",
                VArr 4
                  [VObj 5 [("in", VStr "query.x"); ("name", VStr "y")];
                   VObj 6 [("in", VStr "query"); ("name", VStr "x.y")]])])])])].

End SampleDots.

(** ** Filtering the output again *)

(** An operation whose parameter list, if it has one, holds no parameter
    with the key of an earlier one. *)
Definition settled (op : value) : Prop :=
  truthy (get op "parameters") = false \/
  exists i u, get op "parameters" = Some (VArr i u) /\ unique_params u [] = Some u.

(** The entries of a path item of the output: distinct keys, a retained
    operation among them, nothing the paths loop would drop or change. *)
Definition stable_item (opts : options) (fs : list (string * value)) : Prop :=
  NoDup (map fst fs) /\ ~ In "__proto__" (map fst fs) /\
  existsb (retained_entry opts) fs = true /\
  forall e, In e fs ->
            kept_entry opts e = true /\
            (retained_entry opts e = true -> settled (snd e)).

(** The entries of [paths] in the output. *)
Definition stable_paths (opts : options) (pathRegex : option (string -> bool))
           (fp : list (string * value)) : Prop :=
  NoDup (map fst fp) /\ ~ In "__proto__" (map fst fp) /\
  forall e, In e fp ->
            selected pathRegex (fst e) = true /\
            exists id fs, snd e = VObj id fs /\ stable_item opts fs.

(** Two lists of entries with the same keys and, as JSON, the same values. *)
Definition same_entries (l l' : list (string * value)) : Prop :=
  Forall2 (fun e e' => fst e' = fst e /\ erase (snd e') = erase (snd e)) l l'.

(** The idempotence claim as the specification states it: the output,
    filtered again with the same configuration, is returned as it is. *)
Definition idempotence_claim : Prop :=
  forall URL RegExp spec opts out spec' st,
    filterOpenAPI URL RegExp spec opts = Ok (out, spec') st ->
    exists out2 spec2 st2,
      filterOpenAPI URL RegExp out opts = Ok (out2, spec2) st2 /\
      erase_fields out2 = erase_fields out.

Module SampleInternalChain.

(** The only operation names the schema [A] as its response DTO; [A] is
    marked internal and names [B] as its own. *)
Definition spec : document :=
  [("paths",
    VObj 1 [("/a", VObj 2 [("get", VObj 3 [("x-responseDTO", VStr "A")])])]);
   ("components",
    VObj 4
      [("schemas",
        VObj 5
          [("A", VObj 6 [("x-internal", VBool true); ("x-responseDTO", VStr "B")]);
           ("B", VObj 7 [("type", VStr "object")])])])].

Definition opts : options := mkOptions [] None true [].

End SampleInternalChain.

Module SampleJobsSummary.

(** A path item with a summary beside its only operation. *)
Definition spec : document :=
  [("paths",
    VObj 1
      [("/jobs",
        VObj 2
          [("summary", VStr "Jobs");
           ("get", VObj 3 [("operationId", VStr "listJobs")])])])].

End SampleJobsSummary.

Module SampleSecurity.

(** An empty root-level security list and top-level security schemes. *)
Definition spec : document :=
  [("paths", VObj 1 []);
   ("security", VArr 2 []);
   ("securitySchemes", VObj 3 [("key", VObj 4 [("type", VStr "apiKey")])])].

End SampleSecurity.

(** ** The tags in use *)

(** [tag] is a tag of the entry [e] of a path item, an operation that the
    tag filter retains. *)
Definition entry_tag (opts : options) (e : string * value) (tag : value) : Prop :=
  retained_entry opts e = true /\
  exists l, operation_tags (snd e) = Some l /\ In tag l.

(** [tag] is a tag of a retained operation of the entry [e] of [spec.paths],
    a path the pattern selects. *)
Definition path_tag (opts : options) (pathRegex : option (string -> bool))
           (e : string * value) (tag : value) : Prop :=
  selected pathRegex (fst e) = true /\
  exists m, In m (entries (snd e)) /\ entry_tag opts m tag.

(** [tag] is a tag of a retained operation of the source. *)
Definition retained_tag (opts : options) (pathRegex : option (string -> bool))
           (spec : document) (tag : value) : Prop :=
  exists e, In e (path_entries spec) /\ path_tag opts pathRegex e tag.

(** [usedTags] holds the tags [S] and nothing else. *)
Definition tags_are (S : value -> Prop) (st : state) : Prop :=
  (forall x, In x (usedTags st) -> exists tag, x = Some tag /\ S tag) /\
  (forall tag, S tag -> set_has (Some tag) (usedTags st) = true).

(** ** The error schemas and the input after the call *)

(** The conventional error schemas that the source defines are in the
    reachable set of [schemas]. *)
Definition errors_forced (spec : document) (st : state) : Prop :=
  forall name c,
    In name ERROR_COMPONENTS ->
    find_component spec schemas (Some (VStr name)) = Some (Some c) ->
    truthy (Some c) = true ->
    set_has (Some (VStr name)) (usedComponents st schemas) = true.

(** An entry of [spec.paths] as the paths loop leaves it: the path item of
    a selected path holds the entries the iteration over it left. *)
Definition path_visited (opts : options) (pathRegex : option (string -> bool))
           (e e' : string * value) : Prop :=
  fst e' = fst e /\
  if selected pathRegex (fst e)
  then exists ents',
      snd e' = rebuild (snd e) ents' /\
      Forall2 (entry_left opts) (entries (snd e)) ents'
  else snd e' = snd e.

(** [spec] as the call leaves it, against [spec] as the call found it. *)
Definition input_left (opts : options) (pathRegex : option (string -> bool))
           (spec spec' : document) : Prop :=
  (forall k, k <> "paths" -> assoc k spec' = assoc k spec) /\
  match assoc "paths" spec with
  | Some ps =>
      if truthy (Some ps)
      then exists vis,
          assoc "paths" spec' = Some (rebuild ps vis) /\
          Forall2 (path_visited opts pathRegex) (entries ps) vis
      else assoc "paths" spec' = Some ps
  | None => assoc "paths" spec' = None
  end.

Module SampleErrors.

(** No path; the schemas [Error] and [Other]. *)
Definition spec : document :=
  [("paths", VObj 1 []);
   ("components",
    VObj 2
      [("schemas",
        VObj 3
          [("Error", VObj 4 [("type", VStr "object")]);
           ("Other", VObj 5 [])])])].

End SampleErrors.

(** ** The call of the script *)

(** The options of the call at the end of the script. *)
Definition script_options : options :=
  mkOptions
    ["User"; "User Group"; "Service Account"; "Project"; "Token";
     "Role Assignments"; "API Keys"]
    None false
    ["Error"; "Failure"; "SortOrder"; "PageRequest"; "ResponseDTO"; "RestResponse";
     "ACLAggregateFilter"; "UserGroupRequestV2"; "RoleAssignmentFilter"].

(** [filteredByTag], from the parsed [openapi.json]. *)
Definition filteredByTag (URL : string -> option url)
           (RegExp : string -> option (string -> bool))
           (openApiSpec : document) : result (document * document) :=
  filterOpenAPI URL RegExp openApiSpec script_options.

(** * Properties *)

Unset Implicit Arguments.

(** ** Rules for statements *)

Lemma triple_ret (A : Type) (P : state -> Prop) (a : A) (Q : A -> state -> Prop) E F :
  (forall st, P st -> Q a st) -> triple P (ret a) Q E F.
Proof. intros H st HP. simpl. auto. Qed.

Lemma triple_throw (A : Type) (P : state -> Prop) e (Q : A -> state -> Prop) (E : state -> Prop) F :
  (forall st, P st -> E st) -> triple P (throw e) Q E F.
Proof. intros H st HP. simpl. auto. Qed.

Lemma triple_bind (A B : Type) (P : state -> Prop) (m : M A) (k : A -> M B)
      (R : A -> state -> Prop) (Q : B -> state -> Prop) E F :
  triple P m R E F ->
  (forall a, triple (R a) (k a) Q E F) ->
  triple P (bind m k) Q E F.
Proof.
  intros Hm Hk st HP. unfold bind. specialize (Hm st HP).
  destruct (m st) as [a st'|e st'|]; auto.
  apply (Hk a st' Hm).
Qed.

Lemma triple_weaken (A : Type) (P P' : state -> Prop) (m : M A)
      (Q Q' : A -> state -> Prop) (E E' : state -> Prop) (F F' : Prop) :
  triple P' m Q' E' F' ->
  (forall st, P st -> P' st) ->
  (forall a st, Q' a st -> Q a st) ->
  (forall st, E' st -> E st) ->
  (F' -> F) ->
  triple P m Q E F.
Proof.
  intros H HP HQ HE HF st Hst. specialize (H st (HP st Hst)).
  destruct (m st); auto.
Qed.

Lemma triple_gets (A : Type) (P : state -> Prop) (f : state -> A) (Q : A -> state -> Prop) E F :
  (forall st, P st -> Q (f st) st) -> triple P (gets f) Q E F.
Proof. intros H st HP. simpl. auto. Qed.

Lemma triple_modify (P : state -> Prop) (f : state -> state) (Q : unit -> state -> Prop) E F :
  (forall st, P st -> Q tt (f st)) -> triple P (modify f) Q E F.
Proof. intros H st HP. simpl. auto. Qed.

Lemma triple_catch (A : Type) (P : state -> Prop) (m : M A) (h : exn -> M A)
      (Q : A -> state -> Prop) (E' E : state -> Prop) F :
  triple P m Q E' F ->
  (forall e, triple E' (h e) Q E F) ->
  triple P (try_catch m h) Q E F.
Proof.
  intros Hm Hh st HP. unfold try_catch. specialize (Hm st HP).
  destruct (m st) as [a st'|e st'|]; auto.
  apply (Hh e st' Hm).
Qed.

Lemma triple_forEach (A : Type) (I : state -> Prop) (l : list A) (f : A -> M unit) E F :
  (forall x, In x l -> triple I (f x) (fun _ => I) E F) ->
  triple I (forEach l f) (fun _ => I) E F.
Proof.
  induction l as [|x r IH]; intros H; simpl.
  - apply triple_ret; auto.
  - eapply triple_bind.
    + apply H. now left.
    + intros []. apply IH. intros y Hy. apply H. now right.
Qed.

Lemma triple_foldM (A B : Type) (Inv : B -> state -> Prop) (f : B -> A -> M B)
      (l : list A) (b : B) E F :
  (forall b x, In x l -> triple (Inv b) (f b x) Inv E F) ->
  triple (Inv b) (foldM f l b) Inv E F.
Proof.
  revert b. induction l as [|x r IH]; intros b H; simpl.
  - apply triple_ret; auto.
  - eapply triple_bind.
    + apply H. now left.
    + intros b'. apply IH. intros b0 y Hy. apply H. now right.
Qed.

Lemma triple_bind_lift (A B : Type) (P : state -> Prop) (o : option A)
      (k : A -> M B) (Q : B -> state -> Prop) (E : state -> Prop) F :
  (forall a, o = Some a -> triple P (k a) Q E F) ->
  (o = None -> forall st, P st -> E st) ->
  triple P (bind (lift o) k) Q E F.
Proof.
  intros Hk HE st HP. unfold bind, lift.
  destruct o as [a|]; simpl; auto. apply Hk; auto.
Qed.

Lemma triple_when_truthy (P : state -> Prop) (v : jsval) (k : value -> M unit)
      (Q : unit -> state -> Prop) E F :
  (forall x, v = Some x -> truthy (Some x) = true -> triple P (k x) Q E F) ->
  (forall st, P st -> Q tt st) ->
  triple P (when_truthy v k) Q E F.
Proof.
  intros Hk Hq. unfold when_truthy. destruct v as [x|].
  - destruct (truthy (Some x)) eqn:Ht.
    + apply Hk; auto.
    + apply triple_ret; auto.
  - apply triple_ret; auto.
Qed.

(** Reads and conversions leave the state alone. *)
Lemma triple_get_M (P : state -> Prop) (v : value) (k : string) E F :
  (forall st, P st -> E st) ->
  triple P (get_M v k) (fun r st => P st /\ r = get v k /\ v <> VNull) E F.
Proof.
  intros HE. unfold get_M.
  destruct v; try (apply triple_ret; intros; repeat split; auto; discriminate).
  apply triple_throw; auto.
Qed.

Lemma triple_to_string_M (P : state -> Prop) (v : jsval) E F :
  (forall st, P st -> E st) ->
  triple P (to_string_M v) (fun s st => P st /\ to_string_js v = Some s) E F.
Proof.
  intros HE. unfold to_string_M. destruct (to_string_js v).
  - apply triple_ret; auto.
  - apply triple_throw; auto.
Qed.

Lemma triple_component_of (P : state -> Prop) spec t x E F :
  (forall st, P st -> find_component spec t x = None -> E st) ->
  triple P (component_of spec t x) (fun c st => P st /\ find_component spec t x = Some c) E F.
Proof.
  intros HE. unfold component_of. destruct (find_component spec t x) eqn:Hc.
  - apply triple_ret; auto.
  - apply triple_throw; auto.
Qed.

Lemma triple_fresh (P : state -> Prop) (Q : nat -> state -> Prop) E F :
  (forall st, P st -> Q (next_id st) (bump st)) -> triple P fresh Q E F.
Proof. intros H st HP. simpl. auto. Qed.

Lemma triple_bind_get_M (B : Type) (P : state -> Prop) (v : value) (key : string)
      (k : jsval -> M B) (Q : B -> state -> Prop) (E : state -> Prop) F :
  (v <> VNull -> triple P (k (get v key)) Q E F) ->
  (forall st, P st -> E st) ->
  triple P (bind (get_M v key) k) Q E F.
Proof.
  intros Hk HE st HP. unfold bind, get_M.
  destruct v; simpl; auto; apply Hk; auto; discriminate.
Qed.

Lemma triple_bind_to_string_M (B : Type) (P : state -> Prop) (v : jsval)
      (k : string -> M B) (Q : B -> state -> Prop) (E : state -> Prop) F :
  (forall s, to_string_js v = Some s -> triple P (k s) Q E F) ->
  (forall st, P st -> E st) ->
  triple P (bind (to_string_M v) k) Q E F.
Proof.
  intros Hk HE st HP. unfold bind, to_string_M.
  destruct (to_string_js v) as [s|]; simpl; auto. apply Hk; auto.
Qed.

Lemma triple_bind_component_of (B : Type) (P : state -> Prop) spec t x
      (k : jsval -> M B) (Q : B -> state -> Prop) (E : state -> Prop) F :
  (forall c, find_component spec t x = Some c -> triple P (k c) Q E F) ->
  (find_component spec t x = None -> forall st, P st -> E st) ->
  triple P (bind (component_of spec t x) k) Q E F.
Proof.
  intros Hk HE st HP. unfold bind, component_of.
  destruct (find_component spec t x) as [c|]; simpl; auto. apply Hk; auto.
Qed.

(** ** Lists of entries *)

Lemma map_snd_indexed_from (A : Type) (l : list A) n : map snd (indexed_from n l) = l.
Proof. revert n. induction l; simpl; intros; f_equal; auto. Qed.

Lemma values_of_arr id l : values_of (VArr id l) = l.
Proof. apply map_snd_indexed_from. Qed.

Lemma assoc_In (A : Type) k (l : list (string * A)) v : assoc k l = Some v -> In (k, v) l.
Proof.
  induction l as [|[k' v'] r IH]; simpl; [discriminate|].
  destruct (String.eqb k k') eqn:Hk; intros H.
  - apply String.eqb_eq in Hk. inversion H; subst. now left.
  - right. auto.
Qed.

Lemma get_values_of v k x :
  get v k = Some x -> In x (values_of v) \/ exists r, x = VNum r.
Proof.
  destruct v; simpl; try discriminate.
  - unfold values_of. simpl. rewrite map_snd_indexed_from.
    destruct (index_of_string k).
    + intros H. left. eapply nth_error_In; eauto.
    + destruct (String.eqb k "length"); [|discriminate].
      intros H. inversion H. right. eauto.
  - rewrite values_of_arr. destruct (index_of_string k).
    + intros H. left. eapply nth_error_In; eauto.
    + destruct (String.eqb k "length"); [|discriminate].
      intros H. inversion H. right. eauto.
  - intros H. left. apply assoc_In in H. apply (in_map snd) in H. exact H.
Qed.

(** ** Invariants of the scan

    One proof of "the scan keeps [I]" for every invariant [I] of the closure
    state and every class [V] of scanned values that satisfy the hypotheses
    below; [collect] is the recursive occurrence. *)
Section ScanInvariant.

Variable URL : string -> option url.
Variable spec : document.
Variable I : state -> Prop.
Variable V : value -> Prop.
Variable Pre : value -> state -> Prop.
Variable F : Prop.
Variable collect : jsval -> M unit.

Hypothesis Pre_intro : forall v st, I st -> Pre v st.
Hypothesis V_get : forall v k x, V v -> get v k = Some x -> V x.
Hypothesis V_values : forall v x, V v -> In x (values_of v) -> V x.
Hypothesis I_warn : forall msg st, I st -> I (add_warning msg st).
Hypothesis I_security : forall obj k st,
  V obj -> mentions URL obj securitySchemes (Some (VStr k)) -> I st ->
  I (add_used securitySchemes (Some (VStr k)) st).
Hypothesis I_track : forall obj t x st,
  V obj -> mentions URL obj t x -> I st -> set_has x (usedComponents st t) = false ->
  match find_component spec t x with
  | Some (Some c) =>
      if truthy (Some c) then V c /\ Pre c (add_used t x st)
      else I (add_used t x st)
  | _ => I (add_used t x st)
  end.
Hypothesis collect_ok : forall v,
  V v -> triple (Pre v) (collect (Some v)) (fun _ => I) I F.

Lemma collect_keeps v : V v -> preserves I F (collect (Some v)).
Proof.
  intros Hv. eapply triple_weaken; [apply (collect_ok _ Hv)| |auto|auto|auto].
  intros st. apply Pre_intro.
Qed.

Lemma V_items id l x : V (VArr id l) -> In x l -> V x.
Proof. intros Hv Hx. apply (V_values _ _ Hv). now rewrite values_of_arr. Qed.

Lemma trackComponent_keeps obj t x :
  V obj -> mentions URL obj t x ->
  preserves I F (trackComponent spec collect t x).
Proof.
  intros Hv Hm. unfold trackComponent.
  eapply triple_bind.
  { apply triple_gets with (Q := fun used st => I st /\ used = usedComponents st t). auto. }
  intros used. destruct (set_has x used) eqn:Hhas.
  { apply triple_ret; tauto. }
  eapply triple_bind.
  { apply triple_modify with
      (Q := fun _ st1 => exists st, I st /\ set_has x (usedComponents st t) = false
                                    /\ st1 = add_used t x st).
    intros st [HI ->]. eauto. }
  intros ?. eapply triple_bind.
  { apply triple_component_of. intros st1 (st & HI & Hh & ->) Hnone.
    pose proof (I_track _ _ _ _ Hv Hm HI Hh) as Ht. now rewrite Hnone in Ht. }
  intros component st1 [(st & HI & Hh & ->) Hfc].
  pose proof (I_track _ _ _ _ Hv Hm HI Hh) as Ht. rewrite Hfc in Ht.
  destruct component as [c|]; [|simpl; auto].
  destruct (truthy (Some c)) eqn:Htr; [|simpl; auto].
  destruct Ht as [Hc He]. apply (collect_ok _ Hc). exact He.
Qed.

Lemma scan_ref_keeps obj : V obj -> preserves I F (scan_ref URL spec collect obj).
Proof.
  intros Hv. unfold scan_ref. destruct (truthy (get obj "$ref")) eqn:Ht.
  2:{ apply triple_ret; auto. }
  eapply triple_catch with (E' := I).
  - eapply triple_bind; [apply triple_to_string_M; auto|].
    intros s. cbv zeta.
    destruct (URL s) as [u|] eqn:Hu.
    2:{ apply triple_throw. tauto. }
    destruct (String.eqb (pathname u) "/components") eqn:Hp.
    2:{ apply triple_ret. tauto. }
    destruct (nth_error (split_on "/" (hash u)) 2) as [ty|] eqn:Hty.
    2:{ apply triple_ret. tauto. }
    destruct (type_of_name ty) as [t|] eqn:Htn.
    2:{ apply triple_ret. tauto. }
    intros st [HI Hs].
    apply trackComponent_keeps with (obj := obj); auto.
    apply String.eqb_eq in Hp.
    eapply mentions_ref; eauto.
  - intros e. eapply triple_bind; [apply triple_to_string_M; auto|].
    intros s. apply triple_modify. intros st [HI _]. auto.
Qed.

Lemma scan_composition_keeps obj :
  V obj -> preserves I F (scan_composition collect obj).
Proof.
  intros Hv. unfold scan_composition. apply triple_forEach. intros prop _.
  destruct (get obj prop) as [[| | | |id l|]|] eqn:Hg; try (apply triple_ret; auto).
  apply triple_forEach. intros s Hs.
  apply collect_keeps. eapply V_items; eauto.
Qed.

Lemma scan_schema_keeps obj : V obj -> preserves I F (scan_schema collect obj).
Proof.
  intros Hv. unfold scan_schema.
  eapply triple_bind.
  { apply triple_when_truthy with (Q := fun _ => I); auto.
    intros p Hp _. apply triple_forEach. intros v Hin.
    apply collect_keeps. eauto. }
  intros ?. eapply triple_bind.
  { apply triple_when_truthy with (Q := fun _ => I); auto.
    intros v Hp _. apply collect_keeps. eauto. }
  intros ?. apply triple_when_truthy; auto.
  intros v Hp _. apply collect_keeps. eauto.
Qed.

Lemma scan_parameters_keeps obj : V obj -> preserves I F (scan_parameters collect obj).
Proof.
  intros Hv. unfold scan_parameters. apply triple_when_truthy; auto.
  intros ps Hps _. destruct ps; try (apply triple_throw; auto).
  apply triple_forEach. intros param Hin.
  assert (Hparam : V param) by (eapply V_items; eauto).
  apply triple_bind_get_M; auto. intros _.
  eapply triple_bind with (R := fun _ => I).
  { destruct (truthy (get param "$ref")).
    - apply collect_keeps; auto.
    - apply triple_ret; auto. }
  intros ?. apply triple_bind_get_M; auto. intros _.
  apply triple_when_truthy; auto.
  intros x Hx _. apply collect_keeps. eauto.
Qed.

Lemma scan_content_keeps obj : V obj -> preserves I F (scan_content collect obj).
Proof.
  intros Hv. unfold scan_content. apply triple_when_truthy; auto.
  intros c Hc _. apply triple_forEach. intros content Hin.
  assert (Hcontent : V content) by eauto.
  apply triple_bind_get_M; auto. intros _.
  apply triple_when_truthy; auto.
  intros x Hx _. apply collect_keeps. eauto.
Qed.

Lemma scan_security_keeps obj : V obj -> preserves I F (scan_security obj).
Proof.
  intros Hv. unfold scan_security. apply triple_when_truthy; auto.
  intros sec Hsec _. destruct sec; try (apply triple_throw; auto).
  apply triple_forEach. intros secReq Hin.
  destruct (truthy (Some secReq)) eqn:Ht.
  - apply triple_forEach. intros schemeName Hk.
    apply triple_modify. intros st HI.
    apply I_security with (obj := obj); auto.
    eapply mentions_security; eauto.
  - simpl. apply triple_ret; auto.
Qed.

Lemma scan_dto_keeps obj : V obj -> preserves I F (scan_dto spec collect obj).
Proof.
  intros Hv. unfold scan_dto. apply triple_when_truthy; auto.
  intros d Hd Ht. apply trackComponent_keeps with (obj := obj); auto.
  apply mentions_dto; auto.
Qed.

Lemma scan_values_keeps obj : V obj -> preserves I F (scan_values collect obj).
Proof.
  intros Hv. unfold scan_values. apply triple_forEach. intros value Hin.
  assert (Hvalue : V value) by eauto.
  destruct value; try (apply triple_ret; auto); try (apply collect_keeps; auto).
  apply triple_forEach. intros item Hitem. apply collect_keeps.
  eapply V_items; eauto.
Qed.

Lemma scan_keeps obj : V obj -> preserves I F (scan URL spec collect obj).
Proof.
  intros Hv. unfold scan.
  eapply triple_bind; [apply scan_ref_keeps; auto|]. intros ?.
  eapply triple_bind; [apply scan_composition_keeps; auto|]. intros ?.
  eapply triple_bind; [apply scan_schema_keeps; auto|]. intros ?.
  eapply triple_bind; [apply scan_parameters_keeps; auto|]. intros ?.
  eapply triple_bind; [apply scan_content_keeps; auto|]. intros ?.
  eapply triple_bind; [apply scan_security_keeps; auto|]. intros ?.
  eapply triple_bind; [apply scan_dto_keeps; auto|]. intros ?.
  apply scan_values_keeps; auto.
Qed.

End ScanInvariant.

Lemma entering_intro (I : state -> Prop) v st :
  (forall id st, I st -> seen id st = false -> I (mark_seen id st)) ->
  I st -> entering I v st.
Proof.
  intros Hs H. destruct v; simpl; auto; destruct (seen id st) eqn:E; auto.
Qed.

(** [collectReferences] keeps every invariant the scan keeps; running out of
    budget is not excluded here. *)
Lemma collectReferences_keeps URL spec (I : state -> Prop) (V : value -> Prop) :
  (forall v k x, V v -> get v k = Some x -> V x) ->
  (forall v x, V v -> In x (values_of v) -> V x) ->
  (forall id st, I st -> seen id st = false -> I (mark_seen id st)) ->
  (forall msg st, I st -> I (add_warning msg st)) ->
  (forall obj k st,
      V obj -> mentions URL obj securitySchemes (Some (VStr k)) -> I st ->
      I (add_used securitySchemes (Some (VStr k)) st)) ->
  (forall obj t x st,
      V obj -> mentions URL obj t x -> I st -> set_has x (usedComponents st t) = false ->
      match find_component spec t x with
      | Some (Some c) =>
          if truthy (Some c) then V c /\ entering I c (add_used t x st)
          else I (add_used t x st)
      | _ => I (add_used t x st)
      end) ->
  forall fuel obj, V obj ->
    triple (entering I obj) (collectReferences URL spec fuel (Some obj)) (fun _ => I) I True.
Proof.
  intros Hg Hv Hs Hw Hsec Ht. induction fuel as [|f IH]; intros obj Hobj.
  - intros st _. exact Logic.I.
  - simpl. unfold collect_body.
    assert (Hscan : preserves I True (scan URL spec (collectReferences URL spec f) obj)).
    { apply scan_keeps with (V := V) (Pre := entering I); auto.
      intros v st HI. apply entering_intro; auto. }
    destruct obj; try (apply triple_ret; auto).
    + intros st He. unfold bind, gets. simpl in He. unfold seen in He.
      destruct (existsb (Nat.eqb id) (seenObjects st)) eqn:E; simpl; auto.
      apply Hscan. exact He.
    + intros st He. unfold bind, gets. simpl in He. unfold seen in He.
      destruct (existsb (Nat.eqb id) (seenObjects st)) eqn:E; simpl; auto.
      apply Hscan. exact He.
Qed.

(** ** Termination of the scan *)

Lemma filter_length_le (A : Type) (p q : A -> bool) (l : list A) :
  (forall x, q x = true -> p x = true) ->
  length (filter q l) <= length (filter p l).
Proof.
  intros H. induction l as [|x r IH]; simpl; auto.
  destruct (q x) eqn:Hq.
  - rewrite (H x Hq). simpl. lia.
  - destruct (p x); simpl; lia.
Qed.

Lemma filter_length_lt (A : Type) (p q : A -> bool) (l : list A) a :
  In a l -> p a = true -> q a = false ->
  (forall x, q x = true -> p x = true) ->
  length (filter q l) < length (filter p l).
Proof.
  intros Hin Hp Hq H. induction l as [|x r IH]; simpl; [contradiction|].
  pose proof (filter_length_le _ p q r H) as Hle.
  destruct Hin as [->|Hin].
  - rewrite Hp, Hq. simpl. lia.
  - specialize (IH Hin). destruct (q x) eqn:Hqx.
    + rewrite (H x Hqx). simpl. lia.
    + destruct (p x); simpl; lia.
Qed.

Lemma unseen_mark U id st :
  In id U -> seen id st = false -> unseen U (mark_seen id st) < unseen U st.
Proof.
  intros Hin Hs. unfold unseen.
  apply filter_length_lt with (a := id); auto.
  - now rewrite Hs.
  - unfold seen. simpl. now rewrite Nat.eqb_refl.
  - intros x. unfold seen. simpl.
    destruct (Nat.eqb x id); simpl; auto. discriminate.
Qed.

Lemma unseen_le U st : unseen U st <= length U.
Proof.
  unfold unseen. induction U as [|x r IH]; simpl; auto.
  destruct (negb (seen x st)); simpl; lia.
Qed.

Lemma incl_flat_map (A B : Type) (f : A -> list B) (l : list A) x :
  In x l -> incl (f x) (flat_map f l).
Proof. intros Hx y Hy. apply in_flat_map. eauto. Qed.

Lemma values_of_ids v x : In x (values_of v) -> incl (ids x) (ids v).
Proof.
  destruct v; simpl; try contradiction.
  - unfold values_of. simpl. rewrite map_snd_indexed_from.
    intros Hin. apply in_map_iff in Hin as [c [<- _]]. intros z [].
  - rewrite values_of_arr. intros Hin z Hz. simpl. right.
    apply in_flat_map. eauto.
  - unfold values_of. simpl. intros Hin. apply in_map_iff in Hin as [[k y] [Hy Hin]].
    simpl in Hy. subst y. intros z Hz. simpl. right.
    apply in_flat_map. exists (k, x). auto.
Qed.

Lemma get_ids v k x : get v k = Some x -> incl (ids x) (ids v).
Proof.
  intros H. apply get_values_of in H as [H|[r ->]].
  - now apply values_of_ids.
  - intros z [].
Qed.

(** A component that is found sits in a category of [spec.components]. *)
Lemma find_component_inv spec t x c :
  find_component spec t x = Some (Some c) ->
  exists comps cat k,
    assoc "components" spec = Some comps /\ get comps (type_name t) = Some cat /\
    to_string_js x = Some k /\ get cat k = Some c.
Proof.
  unfold find_component.
  destruct (assoc "components" spec) as [comps|]; [|discriminate].
  intros H. exists comps.
  assert (H' : match get comps (type_name t) with
               | None | Some VNull => Some None
               | Some cat => match to_string_js x with
                           | Some k => Some (get cat k)
                           | None => None
                           end
               end = Some (Some c)).
  { destruct comps; auto; discriminate. }
  clear H. destruct (get comps (type_name t)) as [cat|] eqn:Hcat; [|discriminate].
  exists cat.
  assert (H : match to_string_js x with
              | Some k => Some (get cat k)
              | None => None
              end = Some (Some c)).
  { destruct cat; auto; discriminate. }
  clear H'. destruct (to_string_js x) as [k|]; [|discriminate].
  exists k. inversion H. auto.
Qed.

Lemma find_component_ids spec t x c :
  find_component spec t x = Some (Some c) -> incl (ids c) (component_ids spec).
Proof.
  intros H. apply find_component_inv in H as (comps & cat & k & Hc & Hcat & _ & Hg).
  unfold component_ids. rewrite Hc.
  eapply incl_tran; [apply (get_ids _ _ _ Hg)|apply (get_ids _ _ _ Hcat)].
Qed.

(** With a budget above the number of objects still to enter,
    [collectReferences] does not run out: it returns having changed nothing,
    or it has entered at least one more object. *)
Lemma collectReferences_terminates URL spec U :
  incl (component_ids spec) U ->
  forall fuel obj st,
    incl (ids obj) U ->
    unseen U st < fuel ->
    match collectReferences URL spec fuel (Some obj) st with
    | Ok _ st' => st' = st \/ unseen U st' < unseen U st
    | Throw _ st' => unseen U st' < unseen U st
    | OutOfFuel => False
    end.
Proof.
  intros HU. induction fuel as [|f IH]; intros obj st Hobj Hlt; [lia|].
  simpl. unfold collect_body.
  assert (Hscan : forall id, In id (ids obj) -> seen id st = false ->
            triple (fun s => unseen U s < unseen U st)
                   (scan URL spec (collectReferences URL spec f) obj)
                   (fun _ s => unseen U s < unseen U st)
                   (fun s => unseen U s < unseen U st) False).
  { intros id Hid Hs.
    apply scan_keeps with (V := fun v => incl (ids v) U)
                          (Pre := fun _ s => unseen U s < unseen U st); auto.
    - intros v k x Hv Hg. eapply incl_tran; [eapply get_ids; eauto|auto].
    - intros v x Hv Hin. eapply incl_tran; [eapply values_of_ids; eauto|auto].
    - intros obj' t x s Hv Hm Hs' Hhas.
      destruct (find_component spec t x) as [[c|]|] eqn:Hc; auto.
      destruct (truthy (Some c)); auto. split; auto.
      eapply incl_tran; [eapply find_component_ids; eauto|auto].
    - intros v Hv s Hs'.
      specialize (IH v s Hv ltac:(lia)).
      destruct (collectReferences URL spec f (Some v) s); auto.
      + destruct IH as [->|IH]; auto. lia.
      + lia. }
  destruct obj; simpl; auto.
  - unfold bind, gets. destruct (existsb (Nat.eqb id) (seenObjects st)) eqn:Hs; simpl; auto.
    assert (Hid : In id (ids (VArr id items))) by (simpl; auto).
    pose proof (unseen_mark U id st (Hobj _ Hid) Hs) as Hm.
    specialize (Hscan id Hid Hs (mark_seen id st) Hm).
    destruct (scan URL spec (collectReferences URL spec f) (VArr id items) (mark_seen id st)); auto.
  - unfold bind, gets. destruct (existsb (Nat.eqb id) (seenObjects st)) eqn:Hs; simpl; auto.
    assert (Hid : In id (ids (VObj id fields))) by (simpl; auto).
    pose proof (unseen_mark U id st (Hobj _ Hid) Hs) as Hm.
    specialize (Hscan id Hid Hs (mark_seen id st) Hm).
    destruct (scan URL spec (collectReferences URL spec f) (VObj id fields) (mark_seen id st)); auto.
Qed.

Lemma triple_foldM_prefix (A B : Type) (Inv : list A -> B -> state -> Prop)
      (f : B -> A -> M B) (l : list A) (b : B) E F :
  (forall pre x post b, l = pre ++ x :: post ->
      triple (Inv pre b) (f b x) (Inv (pre ++ [x])) E F) ->
  triple (Inv [] b) (foldM f l b) (Inv l) E F.
Proof.
  intros H.
  assert (G : forall post pre b, l = pre ++ post ->
            triple (Inv pre b) (foldM f post b) (Inv l) E F).
  { induction post as [|x r IH]; intros pre b0 Hl; simpl.
    - rewrite app_nil_r in Hl. subst l. apply triple_ret; auto.
    - eapply triple_bind.
      + apply (H pre x r b0 Hl).
      + intros b'. apply IH. rewrite Hl, <- app_assoc. reflexivity. }
  apply (G l [] b). reflexivity.
Qed.

Lemma triple_assume (A : Type) (I : state -> Prop) (P : Prop) (m : M A) Q E F :
  (P -> triple I m Q E F) -> triple (fun st => I st /\ P) m Q E F.
Proof. intros H st [HI HP]. apply (H HP st HI). Qed.

Lemma triple_drop_fuel (A : Type) (P : state -> Prop) (m : M A) Q E (F : Prop) :
  triple P m Q E True ->
  (forall st, P st -> F \/ m st <> OutOfFuel) ->
  triple P m Q E F.
Proof.
  intros H Hf st HP. specialize (H st HP). specialize (Hf st HP).
  destruct (m st); auto. destruct Hf as [Hf|Hf]; [auto|congruence].
Qed.

(** ** De-duplication leaves the rest of an operation alone *)

Lemma assoc_set_field_other (A : Type) k k' (v : A) l :
  k <> k' -> assoc k (set_field k' v l) = assoc k l.
Proof.
  intros Hk. induction l as [|[k0 v0] r IH]; simpl.
  - destruct (String.eqb k k') eqn:E; auto. apply String.eqb_eq in E. contradiction.
  - destruct (String.eqb k' k0) eqn:E0; simpl.
    + apply String.eqb_eq in E0. subst k0.
      destruct (String.eqb k k') eqn:E; auto. apply String.eqb_eq in E. contradiction.
    + destruct (String.eqb k k0); auto.
Qed.

Lemma assoc_set_field_same (A : Type) k (v : A) l :
  assoc k (set_field k v l) = Some v.
Proof.
  induction l as [|[k0 v0] r IH]; simpl.
  - now rewrite String.eqb_refl.
  - destruct (String.eqb k k0) eqn:E; simpl.
    + now rewrite String.eqb_refl.
    + now rewrite E.
Qed.

Lemma get_assign_parameters op u k :
  k <> "parameters" -> get (assign_parameters op u) k = get op k.
Proof.
  intros Hk. destruct op; simpl; auto. now apply assoc_set_field_other.
Qed.

Lemma deduped_get op op' k :
  deduped op op' -> k <> "parameters" -> get op' k = get op k.
Proof.
  intros [[_ ->]|(i & l & id & u & _ & _ & ->)] Hk; auto.
  now apply get_assign_parameters.
Qed.

Lemma deduped_not_null op op' : deduped op op' -> op' = VNull -> op = VNull.
Proof.
  intros [[_ ->]|(i & l & id & u & Hg & _ & ->)]; auto.
  destruct op; simpl; auto; discriminate.
Qed.

Lemma deduped_should_include opts op op' :
  deduped op op' -> should_include opts op' = should_include opts op.
Proof.
  intros H. destruct H as [[_ ->]|(i & l & id & u & Hg & _ & ->)]; auto.
  destruct op; simpl in *; try discriminate.
  unfold should_include, operation_tags. simpl.
  rewrite assoc_set_field_other; [reflexivity|discriminate].
Qed.

(** ** Invariants of the whole pass

    The body of [filterOpenAPI] keeps every invariant [I] that the scan keeps
    on the class [V] of values, provided [V] holds of the objects the body
    hands to [collectReferences]. *)
Section PassInvariant.

Variable URL : string -> option url.
Variable RegExp : string -> option (string -> bool).
Variable spec : document.
Variable opts : options.
Variable I : state -> Prop.
Variable V : value -> Prop.
Variable Pre : value -> state -> Prop.
Variable F : Prop.

Hypothesis Pre_intro : forall v st, I st -> Pre v st.
Hypothesis collect_ok : forall v,
  V v -> triple (Pre v) (collect URL spec (Some v)) (fun _ => I) I F.
Hypothesis I_tag : forall tag st, I st -> I (add_tag tag st).
Hypothesis I_bump : forall st, I st -> I (bump st).

Variable pathRegex : option (string -> bool).

Hypothesis V_parameters : forall w path pathItem p,
  In (path, pathItem) (path_entries spec) ->
  selected pathRegex path = true ->
  get pathItem "parameters" = Some p ->
  truthy (Some p) = true ->
  V (VObj w [("parameters", p)]).
Hypothesis V_operation : forall path pathItem method op op',
  In (path, pathItem) (path_entries spec) ->
  selected pathRegex path = true ->
  In (method, op) (entries pathItem) ->
  string_in method HTTP_METHODS = true ->
  should_include opts op = Some true ->
  deduped op op' ->
  V op'.
Hypothesis V_item : forall path pathItem ents',
  In (path, pathItem) (path_entries spec) ->
  selected pathRegex path = true ->
  existsb (retained_entry opts) (entries pathItem) = true ->
  Forall2 (entry_left opts) (entries pathItem) ents' ->
  V (rebuild pathItem ents').

Lemma collect_keeps_top v : V v -> preserves I F (collect URL spec (Some v)).
Proof.
  intros Hv. eapply triple_weaken; [apply (collect_ok _ Hv)| |auto|auto|auto].
  intros st. apply Pre_intro.
Qed.

Lemma deduplicate_parameters_keeps op :
  triple I (deduplicate_parameters op) (fun op' st => I st /\ deduped op op') I F.
Proof.
  unfold deduplicate_parameters.
  destruct (truthy (get op "parameters")) eqn:Ht.
  2:{ apply triple_ret. intros st HI. split; auto. left. auto. }
  eapply triple_bind.
  { apply triple_fresh with (Q := fun _ => I). auto. }
  intros id. destruct (get op "parameters") as [p|] eqn:Hp; [|apply triple_throw; auto].
  destruct p; try (apply triple_throw; auto).
  destruct (unique_params items []) as [u|] eqn:Hu; [|apply triple_throw; auto].
  apply triple_ret. intros st HI. split; auto.
  right. exists id0, items, id, u. auto.
Qed.

Lemma retained_entry_pair method op :
  retained_entry opts (method, op) =
  string_in method HTTP_METHODS && is_true (should_include opts op).
Proof. reflexivity. Qed.

Lemma kept_entry_pair method op :
  kept_entry opts (method, op) =
  negb (string_in method HTTP_METHODS) || retained_entry opts (method, op).
Proof. reflexivity. Qed.

Lemma filter_app_one (A : Type) (f : A -> bool) l x :
  filter f (l ++ [x]) = filter f l ++ (if f x then [x] else []).
Proof. rewrite filter_app. simpl. destruct (f x); auto. Qed.

Lemma assign_all_snoc l e :
  assign_all (l ++ [e]) = js_assign (fst e) (snd e) (assign_all l).
Proof. unfold assign_all. now rewrite fold_left_app. Qed.

Lemma existsb_snoc (A : Type) (f : A -> bool) l x :
  existsb f (l ++ [x]) = existsb f l || f x.
Proof. rewrite existsb_app. simpl. now rewrite orb_false_r. Qed.

(** One entry of a selected path item. *)
Lemma process_method_keeps path pathItem pre e acc :
  In (path, pathItem) (path_entries spec) ->
  selected pathRegex path = true ->
  In e (entries pathItem) ->
  triple (fun st => I st /\ item_inv opts pre acc)
         (process_method URL spec opts acc e)
         (fun acc' st => I st /\ item_inv opts (pre ++ [e]) acc') I F.
Proof.
  intros Hin Hsel He. destruct e as [method operation]. unfold process_method.
  apply triple_assume. intros Hacc.
  destruct (string_in method HTTP_METHODS) eqn:Hm; simpl negb; cbv iota.
  - (* an HTTP method *)
    apply triple_bind_lift; [|tauto].
    intros shouldInclude Hsi. destruct shouldInclude; simpl negb; cbv iota.
    + apply triple_bind_lift; [|tauto]. intros l Hl.
      eapply triple_bind with (R := fun _ => I).
      { apply triple_forEach. intros tag _. apply triple_modify. auto. }
      intros ?. eapply triple_bind.
      { apply (deduplicate_parameters_keeps operation). }
      intros op'. apply triple_assume. intros Hd.
      eapply triple_bind.
      { apply collect_keeps_top.
        apply (V_operation path pathItem method operation op'); auto. }
      intros ?. apply triple_ret. intros st HI. split; auto.
      destruct Hacc as (Hv & Hh & Hf). unfold item_inv. simpl.
      assert (Hk : kept_entry opts (method, op') = true).
      { rewrite kept_entry_pair, retained_entry_pair, Hm.
        rewrite (deduped_should_include opts _ _ Hd), Hsi. reflexivity. }
      repeat split.
      * apply Forall2_app; auto. constructor; [|constructor].
        split; [reflexivity|]. rewrite retained_entry_pair, Hm, Hsi. exact Hd.
      * rewrite existsb_snoc, retained_entry_pair, Hm, Hsi. now rewrite orb_true_r.
      * rewrite filter_app_one, Hk, assign_all_snoc. simpl. now rewrite Hf.
    + apply triple_ret. intros st HI. destruct Hacc as (Hv & Hh & Hf). split; auto.
      unfold item_inv. simpl.
      assert (Hk : kept_entry opts (method, operation) = false).
      { now rewrite kept_entry_pair, retained_entry_pair, Hm, Hsi. }
      repeat split.
      * apply Forall2_app; auto. constructor; [|constructor].
        split; [reflexivity|]. now rewrite retained_entry_pair, Hm, Hsi.
      * rewrite existsb_snoc, retained_entry_pair, Hm, Hsi. now rewrite orb_false_r.
      * rewrite filter_app_one, Hk, app_nil_r. exact Hf.
  - (* any other key is copied *)
    apply triple_ret. intros st HI. destruct Hacc as (Hv & Hh & Hf). split; auto.
    unfold item_inv. simpl.
    assert (Hk : kept_entry opts (method, operation) = true).
    { now rewrite kept_entry_pair, Hm. }
    repeat split.
    + apply Forall2_app; auto. constructor; [|constructor].
      split; [reflexivity|]. now rewrite retained_entry_pair, Hm.
    + rewrite existsb_snoc, retained_entry_pair, Hm. now rewrite orb_false_r.
    + rewrite filter_app_one, Hk, assign_all_snoc. simpl. now rewrite Hf.
Qed.

Lemma item_inv_init : item_inv opts [] (mkItem [] false []).
Proof. repeat split. constructor. Qed.

Lemma path_item_keeps path pathItem :
  In (path, pathItem) (path_entries spec) ->
  selected pathRegex path = true ->
  triple I (foldM (process_method URL spec opts) (entries pathItem) (mkItem [] false []))
         (fun item st => I st /\ item_inv opts (entries pathItem) item) I F.
Proof.
  intros Hin Hsel.
  eapply triple_weaken;
    [apply triple_foldM_prefix with
       (Inv := fun pre acc st => I st /\ item_inv opts pre acc) (E := I) (F := F)
    | | | | ]; simpl; auto.
  - intros pre x post b Hl.
    apply process_method_keeps with (path := path) (pathItem := pathItem); auto.
    rewrite Hl. apply in_or_app. right. now left.
  - intros st HI. split; auto. apply item_inv_init.
Qed.

Lemma concat_snoc (A : Type) (ks : list (list A)) k : concat (ks ++ [k]) = concat ks ++ k.
Proof. rewrite concat_app. simpl. now rewrite app_nil_r. Qed.

(** One entry of [spec.paths]. *)
Lemma process_path_keeps pre e acc :
  In e (path_entries spec) ->
  triple (fun st => I st /\ paths_inv opts pathRegex pre acc)
         (process_path URL spec opts pathRegex acc e)
         (fun acc' st => I st /\ paths_inv opts pathRegex (pre ++ [e]) acc') I F.
Proof.
  intros Hin. destruct e as [path pathItem]. apply triple_assume.
  intros (ks & Hks & Hfp). unfold process_path.
  destruct (selected pathRegex path) eqn:Hsel; simpl negb; cbv iota.
  2:{ apply triple_ret. intros st HI. split; auto.
      exists (ks ++ [[]]). split.
      - apply Forall2_app; auto. constructor; [|constructor]. left. auto.
      - simpl. now rewrite concat_snoc, app_nil_r. }
  eapply triple_bind.
  { apply triple_fresh with (Q := fun _ => I). auto. }
  intros id. apply triple_bind_get_M; auto. intros Hnn.
  eapply triple_bind with (R := fun _ => I).
  { destruct (truthy (get pathItem "parameters")) eqn:Ht.
    - eapply triple_bind.
      { apply triple_fresh with (Q := fun _ => I). auto. }
      intros w. apply collect_keeps_top.
      destruct (get pathItem "parameters") as [p|] eqn:Hp; [|discriminate].
      apply (V_parameters w path pathItem p); auto.
    - apply triple_ret; auto. }
  intros ?. eapply triple_bind.
  { apply (path_item_keeps path pathItem); auto. }
  intros item. apply triple_assume. intros (Hv & Hh & Hf). cbv zeta.
  destruct (hasOperations item) eqn:Hhas.
  - eapply triple_bind.
    { apply collect_keeps_top. apply (V_item path pathItem (visited item)); auto. }
    intros ?. apply triple_ret. intros st HI. split; auto.
    exists (ks ++ [[(path, VObj id (assign_all (filter (kept_entry opts) (visited item))))]]).
    split.
    + apply Forall2_app; auto. constructor; [|constructor].
      right. exists id, (visited item). simpl. repeat split; auto.
    + simpl. rewrite concat_snoc, assign_all_snoc. simpl. now rewrite Hfp, Hf.
  - apply triple_ret. intros st HI. split; auto.
    exists (ks ++ [[]]). split.
    + apply Forall2_app; auto. constructor; [|constructor].
      left. split; auto.
    + simpl. now rewrite concat_snoc, app_nil_r.
Qed.

Lemma paths_loop_keeps :
  triple I (foldM (process_path URL spec opts pathRegex) (path_entries spec) (mkPaths [] []))
         (fun acc st => I st /\ paths_inv opts pathRegex (path_entries spec) acc) I F.
Proof.
  eapply triple_weaken;
    [apply triple_foldM_prefix with
       (Inv := fun pre acc st => I st /\ paths_inv opts pathRegex pre acc) (E := I) (F := F)
    | | | | ]; simpl; auto.
  - intros pre x post b Hl. apply process_path_keeps.
    rewrite Hl. apply in_or_app. right. now left.
  - intros st HI. split; auto. exists []. split; [constructor|reflexivity].
Qed.

Hypothesis V_security : forall w s,
  assoc "security" (working_copy spec) = Some s ->
  truthy (Some s) = true ->
  V (VObj w [("security", s)]).
Hypothesis I_next : forall n st,
  I st ->
  I (mkState (usedComponents st) (seenObjects st) (usedTags st) (console st) (scans st) n).
Hypothesis I_error : forall name c st,
  In name ERROR_COMPONENTS ->
  find_component spec schemas (Some (VStr name)) = Some (Some c) ->
  truthy (Some c) = true ->
  I st ->
  V c /\ Pre c (add_used schemas (Some (VStr name)) st).
Hypothesis V_loop : forall t x c st,
  I st -> In x (usedComponents st t) ->
  find_component spec t x = Some (Some c) ->
  truthy (Some c) = true ->
  V c.
Hypothesis resolve_total : forall st,
  I st -> F \/ resolve URL spec (S (length (component_ids spec))) st <> OutOfFuel.
Hypothesis pattern_ok : forall r, compile_pattern RegExp opts = Some r -> r = pathRegex.

Lemma force_errors_keeps : preserves I F (force_errors URL spec).
Proof.
  unfold force_errors. apply triple_forEach. intros name Hname.
  apply triple_bind_component_of.
  2:{ auto. }
  intros c Hc. destruct c as [c|]; [|apply triple_ret; auto].
  destruct (truthy (Some c)) eqn:Ht; [|apply triple_ret; auto].
  intros st HI. unfold bind, modify.
  destruct (I_error name c st Hname Hc Ht HI) as [Hv Hp].
  apply (collect_ok _ Hv). exact Hp.
Qed.

Lemma resolve_component_keeps type hc name :
  (forall c, find_component spec type name = Some (Some c) ->
             truthy (Some c) = true -> V c) ->
  triple I (resolve_component URL spec type hc name) (fun _ => I) I F.
Proof.
  intros Hv. unfold resolve_component.
  apply triple_bind_component_of; [|auto].
  intros c Hc. destruct c as [c|]; [|apply triple_ret; auto].
  destruct (truthy (Some c)) eqn:Ht; [|apply triple_ret; auto].
  eapply triple_bind with (R := fun _ => I); [apply triple_gets; auto|].
  intros before. eapply triple_bind.
  { apply collect_keeps_top. auto. }
  intros ?. eapply triple_bind with (R := fun _ => I); [apply triple_gets; auto|].
  intros size. apply triple_ret; auto.
Qed.

Lemma resolve_type_keeps hc type :
  triple I (resolve_type URL spec hc type) (fun _ => I) I F.
Proof.
  unfold resolve_type.
  eapply triple_bind with
    (R := fun names st =>
            I st /\ forall x c, In x names ->
                                find_component spec type x = Some (Some c) ->
                                truthy (Some c) = true -> V c).
  { apply triple_gets. intros st HI. split; auto.
    intros x c Hx Hc Ht. apply (V_loop type x c st); auto. }
  intros names. apply triple_assume. intros Hn.
  apply triple_foldM with (Inv := fun _ => I).
  intros b name Hname. apply resolve_component_keeps. eauto.
Qed.

Lemma resolve_pass_keeps :
  triple I (resolve_pass URL spec) (fun _ => I) I F.
Proof.
  unfold resolve_pass. apply triple_foldM with (Inv := fun _ => I).
  intros hc type _. apply resolve_type_keeps.
Qed.

Lemma resolve_keeps fuel : triple I (resolve URL spec fuel) (fun _ => I) I True.
Proof.
  induction fuel as [|f IH]; simpl.
  - intros st _. exact Logic.I.
  - eapply triple_bind with (R := fun _ => I).
    + eapply triple_weaken; [apply resolve_pass_keeps| | | |]; simpl; auto.
    + intros []; [exact IH|apply triple_ret; auto].
Qed.

Lemma resolve_keeps_top :
  preserves I F (resolve URL spec (S (length (component_ids spec)))).
Proof.
  apply triple_drop_fuel; [apply resolve_keeps|apply resolve_total].
Qed.

Lemma assoc_delete_field_same (A : Type) k (l : list (string * A)) :
  assoc k (delete_field k l) = None.
Proof.
  unfold delete_field. induction l as [|[k0 v0] r IH]; simpl; auto.
  destruct (String.eqb k k0) eqn:E; simpl; auto. now rewrite E.
Qed.

Lemma assoc_delete_field_other (A : Type) k k' (l : list (string * A)) :
  k <> k' -> assoc k (delete_field k' l) = assoc k l.
Proof.
  intros Hk. unfold delete_field. induction l as [|[k0 v0] r IH]; simpl; auto.
  destruct (String.eqb k' k0) eqn:E; simpl.
  - apply String.eqb_eq in E. subst k0.
    destruct (String.eqb k k') eqn:E'; auto.
    apply String.eqb_eq in E'. contradiction.
  - destruct (String.eqb k k0); auto.
Qed.

Lemma set_field_twice (A : Type) k (v v' : A) l :
  set_field k v (set_field k v' l) = set_field k v l.
Proof.
  induction l as [|[k0 v0] r IH]; simpl.
  - now rewrite String.eqb_refl.
  - destruct (String.eqb k k0) eqn:E; simpl.
    + now rewrite String.eqb_refl.
    + now rewrite E, IH.
Qed.

Lemma type_name_inj t t' : type_name t = type_name t' -> t = t'.
Proof. destruct t, t'; simpl; intros H; try reflexivity; discriminate. Qed.

Lemma assoc_store_category_other t t' id kept fc :
  t' <> t ->
  assoc (type_name t') (store_category t id kept fc) = assoc (type_name t') fc.
Proof.
  intros Ht. assert (Hn : type_name t' <> type_name t).
  { intros H. apply Ht. now apply type_name_inj. }
  unfold store_category. cbv zeta.
  destruct (keys_of (VObj id (from_entries kept))).
  - rewrite assoc_delete_field_other, assoc_set_field_other; auto.
  - rewrite assoc_set_field_other; auto.
Qed.

Lemma assoc_store_category_same t id kept fc :
  assoc (type_name t) (store_category t id kept fc) =
  match from_entries kept with
  | [] => None
  | o => Some (VObj id o)
  end.
Proof.
  unfold store_category. cbv zeta. unfold keys_of, entries.
  destruct (from_entries kept) as [|e o]; cbn [map].
  - apply assoc_delete_field_same.
  - apply assoc_set_field_same.
Qed.

Lemma category_inv_other used c t t' id kept fc :
  t' <> t ->
  category_inv opts used c t' fc ->
  category_inv opts used c t' (store_category t id kept fc).
Proof.
  intros Ht H. unfold category_inv in *.
  rewrite (assoc_store_category_other _ _ id kept fc Ht). exact H.
Qed.

Lemma assoc_store_category_dom t id kept fc k v :
  assoc k (store_category t id kept fc) = Some v ->
  k = type_name t \/ assoc k fc = Some v.
Proof.
  intros H. destruct (String.eqb k (type_name t)) eqn:E.
  - left. now apply String.eqb_eq.
  - right. apply String.eqb_neq in E. revert H.
    unfold store_category. cbv zeta.
    destruct (keys_of (VObj id (from_entries kept))).
    + rewrite assoc_delete_field_other, assoc_set_field_other; auto.
    + rewrite assoc_set_field_other; auto.
Qed.

Lemma filter_category_keeps used c fc t :
  assoc (type_name t) fc = None ->
  triple (fun st => I st /\ usedComponents st = used)
         (filter_category opts c fc t)
         (fun fc' st =>
            (I st /\ usedComponents st = used) /\
            (category_inv opts used c t fc' /\
             (forall t', t' <> t ->
                assoc (type_name t') fc' = assoc (type_name t') fc) /\
             (forall k v, assoc k fc' = Some v -> k = type_name t \/ assoc k fc = Some v)))
         I F.
Proof.
  intros Hnone. unfold filter_category, category_inv.
  destruct (get c (type_name t)) as [x|] eqn:Hx.
  2:{ apply triple_ret. intros st H. repeat split; try tauto. }
  destruct (truthy (Some x)) eqn:Ht.
  2:{ apply triple_ret. intros st H. repeat split; try tauto. }
  eapply triple_bind with
    (R := fun u st => (I st /\ usedComponents st = used) /\ u = used t).
  { apply triple_gets. intros st [HI Hu]. rewrite Hu. auto. }
  intros u. apply triple_assume. intros ->.
  apply triple_bind_lift; [|tauto]. intros kept Hkept.
  eapply triple_bind with (R := fun _ st => I st /\ usedComponents st = used).
  { apply triple_fresh. intros st [HI Hu]. split; auto. }
  intros id. apply triple_ret. intros st H. repeat split; try tauto.
  - exists kept. split; auto.
    rewrite assoc_store_category_same. destruct (from_entries kept); eauto.
  - intros t' Hne. apply assoc_store_category_other; auto.
  - intros k v. apply assoc_store_category_dom.
Qed.

Lemma NoDup_COMPONENT_TYPES : NoDup COMPONENT_TYPES.
Proof.
  unfold COMPONENT_TYPES.
  repeat (constructor; [simpl; intuition discriminate|]). constructor.
Qed.

Lemma In_COMPONENT_TYPES t : In t COMPONENT_TYPES.
Proof. destruct t; simpl; tauto. Qed.

Lemma filter_categories_keeps used c :
  triple (fun st => I st /\ usedComponents st = used)
         (foldM (filter_category opts c) COMPONENT_TYPES [])
         (fun fc st => (I st /\ usedComponents st = used) /\ components_inv opts used c fc)
         I F.
Proof.
  eapply triple_weaken;
    [apply triple_foldM_prefix with
       (Inv := fun pre fc st =>
                 (I st /\ usedComponents st = used) /\
                 ((forall t, In t pre -> category_inv opts used c t fc) /\
                  (forall t, ~ In t pre -> assoc (type_name t) fc = None) /\
                  (forall k v, assoc k fc = Some v -> exists t, k = type_name t)))
       (E := I) (F := F)
    | | | | ]; simpl; auto.
  - intros pre t post fc Hl. apply triple_assume. intros (Hdone & Hrest & Hdom).
    assert (Hnot : ~ In t pre).
    { pose proof NoDup_COMPONENT_TYPES as Hnd. rewrite Hl in Hnd.
      apply NoDup_remove_2 in Hnd. intros Hin. apply Hnd.
      apply in_or_app. now left. }
    eapply triple_weaken; [apply (filter_category_keeps used c fc t (Hrest t Hnot))| | | |];
      simpl; auto.
    intros fc' st [Hst (Hcat & Hother & Hd)]. split; auto. repeat split.
    + intros t' Hin. apply in_app_or in Hin as [Hin|[<-|[]]]; auto.
      assert (Hne : t' <> t) by (intros ->; contradiction).
      specialize (Hdone t' Hin). unfold category_inv in *.
      now rewrite (Hother t' Hne).
    + intros t' Hin. assert (Hne : t' <> t).
      { intros ->. apply Hin. apply in_or_app. right. now left. }
      rewrite (Hother t' Hne). apply Hrest. intros Hp. apply Hin.
      apply in_or_app. now left.
    + intros k v Hk. destruct (Hd k v Hk) as [->|Hk']; eauto.
  - intros st H. split; auto. split; [intros t []|]. split; [auto|discriminate].
  - intros fc st [Hst (Hdone & _ & Hdom)]. split; auto. split; auto.
    intros t. apply Hdone. apply In_COMPONENT_TYPES.
Qed.

Lemma filter_components_keeps used X0 :
  triple (fun st => I st /\ usedComponents st = used)
         (filter_components spec opts X0)
         (fun X1 st => (I st /\ usedComponents st = used) /\
                       with_components opts used spec X0 X1)
         I F.
Proof.
  unfold filter_components, with_components.
  destruct (assoc "components" spec) as [c|]; [|apply triple_ret; auto].
  destruct (truthy (Some c)); [|apply triple_ret; auto].
  eapply triple_bind with (R := fun _ st => I st /\ usedComponents st = used).
  { apply triple_fresh. intros st [HI Hu]. split; auto. }
  intros id. eapply triple_bind.
  { eapply triple_weaken; [apply (filter_categories_keeps used c)| | | |]; simpl; auto.
    intros a st H. exact H. }
  intros fc. apply triple_ret. intros st [Hst Hfc]. split; auto.
  exists id, fc. auto.
Qed.

Lemma filter_tags_keeps uc ut X0 :
  triple (fun st => I st /\ usedComponents st = uc /\ usedTags st = ut)
         (filter_tags spec opts X0)
         (fun X1 st => (I st /\ usedComponents st = uc /\ usedTags st = ut) /\
                       with_tags opts ut spec X0 X1)
         I F.
Proof.
  unfold filter_tags, with_tags.
  apply triple_bind_lift; [|tauto]. intros l Hl.
  eapply triple_bind with
    (R := fun u st => (I st /\ usedComponents st = uc /\ usedTags st = ut) /\ u = ut).
  { apply triple_gets. intros st (HI & Hc & Hu). auto. }
  intros u. apply triple_assume. intros ->.
  apply triple_bind_lift; [|tauto]. intros kept Hkept.
  eapply triple_bind with
    (R := fun _ st => I st /\ usedComponents st = uc /\ usedTags st = ut).
  { apply triple_fresh. intros st (HI & Hc & Hu). repeat split; auto. }
  intros id. apply triple_ret. intros st H. split; auto.
  exists l, kept, id. auto.
Qed.

Lemma triple_frame (A : Type) (P : state -> Prop) (m : M A) Q E F' :
  (forall st0, P st0 -> triple (fun st => st = st0) m Q E F') ->
  triple P m Q E F'.
Proof. intros H st HP. apply (H st HP st eq_refl). Qed.

Lemma deep_copy_fields_working n :
  n = first_free spec -> fst (deep_copy_fields spec n) = working_copy spec.
Proof. intros ->. reflexivity. Qed.

(** The whole body: the invariant holds at the end, and the document
    returned is the one assembled from the final state. *)
Lemma filter_body_keeps :
  triple (fun st => I st /\ next_id st = first_free spec)
         (filter_body URL RegExp spec opts)
         (fun r st => I st /\ assembled opts pathRegex spec st (fst r))
         I F.
Proof.
  unfold filter_body.
  eapply triple_bind with
    (R := fun n st => I st /\ n = first_free spec).
  { apply triple_gets. intros st [HI Hn]. auto. }
  intros n. apply triple_assume. intros Hn.
  pose proof (deep_copy_fields_working n Hn) as Hcopy.
  destruct (deep_copy_fields spec n) as [copy n'] eqn:Hdc. simpl in Hcopy.
  eapply triple_bind with (R := fun _ => I).
  { apply triple_modify. intros st HI. apply I_next. exact HI. }
  intros ?. eapply triple_bind with (R := fun _ => I).
  { apply triple_fresh. auto. }
  intros pid. cbv zeta.
  destruct (compile_pattern RegExp opts) as [r|] eqn:Hpat.
  2:{ eapply triple_bind with (R := fun _ _ => False).
      - apply triple_throw. auto.
      - intros ? st []. }
  eapply triple_bind with (R := fun a st => I st /\ a = pathRegex).
  { apply triple_ret. intros st HI. split; auto. }
  intros ?. apply triple_assume. intros ->. eapply triple_bind.
  { apply paths_loop_keeps. }
  intros acc. apply triple_assume. intros Hacc.
  rewrite set_field_twice.
  eapply triple_bind with (R := fun _ => I).
  { rewrite assoc_set_field_other by discriminate.
    destruct (truthy (assoc "security" copy)) eqn:Hsec.
    - eapply triple_bind with (R := fun _ => I).
      { apply triple_fresh. auto. }
      intros w. apply collect_keeps_top.
      destruct (assoc "security" copy) as [s|] eqn:Hs; [|discriminate].
      apply V_security; auto. now rewrite <- Hcopy.
    - apply triple_ret. auto. }
  intros ?. eapply triple_bind; [apply force_errors_keeps|].
  intros ?. eapply triple_bind; [apply resolve_keeps_top|].
  intros ?. apply triple_frame. intros st0 HI0.
  eapply triple_bind.
  { eapply triple_weaken;
      [apply (filter_components_keeps (usedComponents st0)
                (set_field "paths" (VObj pid (filteredPaths acc)) copy))| | | |];
      simpl; auto.
    - intros st ->. auto.
    - intros x st H. exact H. }
  intros X1. apply triple_assume. intros HX1.
  apply triple_frame. intros st1 [HI1 Hu1].
  eapply triple_bind.
  { eapply triple_weaken;
      [apply (filter_tags_keeps (usedComponents st0) (usedTags st1)
                (with_security_schemes spec X1))| | | |];
      simpl; auto.
    - intros st ->. auto.
    - intros x st H. exact H. }
  intros X2. apply triple_ret. intros st [(HI & Hc & Hu) HX2]. split; auto.
  simpl. exists pid, acc, X1, X2. rewrite Hc, Hu, <- Hcopy. auto.
Qed.

End PassInvariant.

(** ** Termination of the whole pass *)

Section Termination.

Variable URL : string -> option url.
Variable spec : document.

Lemma collect_terminates U v st :
  incl (component_ids spec) U ->
  incl (ids v) U ->
  length U <= length (ids v) + length (component_ids spec) ->
  match collect URL spec (Some v) st with
  | Ok _ st' => st' = st \/ unseen U st' < unseen U st
  | Throw _ st' => unseen U st' < unseen U st
  | OutOfFuel => False
  end.
Proof.
  intros Hc Hv Hlen. unfold collect.
  apply collectReferences_terminates with (U := U); auto.
  pose proof (unseen_le U st). lia.
Qed.

Lemma collect_total v : total (collect URL spec (Some v)).
Proof.
  intros st _.
  pose proof (collect_terminates (ids v ++ component_ids spec) v st) as H.
  destruct (collect URL spec (Some v) st); auto.
  apply H.
  - apply incl_appr, incl_refl.
  - apply incl_appl, incl_refl.
  - rewrite length_app. lia.
Qed.

Lemma resolve_component_measure k type hc name :
  triple (pass_inv spec k hc) (resolve_component URL spec type hc name)
         (pass_inv spec k) (fun st => unseen (component_ids spec) st <= k) False.
Proof.
  unfold resolve_component. apply triple_bind_component_of.
  2:{ intros _ st [H _]. exact H. }
  intros c Hc. destruct c as [c|]; [|apply triple_ret; auto].
  destruct (truthy (Some c)) eqn:Ht; [|apply triple_ret; auto].
  intros st [Hk Hhc]. unfold bind, gets.
  pose proof (collect_terminates (component_ids spec) c st (incl_refl _)
                (find_component_ids _ _ _ _ Hc) ltac:(lia)) as H.
  destruct (collect URL spec (Some c) st) as [[] st'|e st'|]; simpl; auto; [|lia].
  destruct H as [->|H].
  - rewrite Nat.ltb_irrefl. split; auto.
  - split; [lia|]. intros _. lia.
Qed.

Lemma resolve_pass_measure k :
  triple (fun st => unseen (component_ids spec) st <= k) (resolve_pass URL spec)
         (pass_inv spec k) (fun st => unseen (component_ids spec) st <= k) False.
Proof.
  unfold resolve_pass.
  eapply triple_weaken;
    [apply triple_foldM with (Inv := pass_inv spec k)
                             (E := fun st => unseen (component_ids spec) st <= k)
                             (F := False)
    | | | | ]; simpl; auto.
  - intros hc type _. unfold resolve_type.
    eapply triple_bind with (R := fun _ => pass_inv spec k hc).
    { apply triple_gets. auto. }
    intros names. apply triple_foldM with (Inv := pass_inv spec k).
    intros b name _. apply resolve_component_measure.
  - intros st H. split; auto. discriminate.
Qed.

Lemma resolve_measure fuel k :
  k < fuel ->
  triple (fun st => unseen (component_ids spec) st <= k) (resolve URL spec fuel)
         (fun _ _ => True) (fun _ => True) False.
Proof.
  revert k. induction fuel as [|f IH]; intros k Hk; [lia|]. simpl.
  eapply triple_bind.
  { eapply triple_weaken; [apply (resolve_pass_measure k)| | | |]; simpl; auto.
    intros a st H. exact H. }
  intros hasChanges. destruct hasChanges.
  - intros st [Hle Hlt]. specialize (Hlt eq_refl).
    apply (IH (k - 1) ltac:(lia) st). lia.
  - apply triple_ret. auto.
Qed.

Lemma resolve_total : total (resolve URL spec (S (length (component_ids spec)))).
Proof.
  intros st _.
  apply (resolve_measure (S (length (component_ids spec))) (length (component_ids spec))
           ltac:(lia) st).
  apply unseen_le.
Qed.

End Termination.

(** [filterOpenAPI] returns or throws: the budgets of the embedding are never
    exhausted. *)
Lemma filterOpenAPI_total URL RegExp spec opts :
  filterOpenAPI URL RegExp spec opts <> OutOfFuel.
Proof.
  unfold filterOpenAPI.
  assert (H : triple (fun st => True /\ next_id st = first_free spec)
                (filter_body URL RegExp spec opts)
                (fun _ _ => True) (fun _ => True) False).
  { eapply triple_weaken;
      [apply filter_body_keeps with
         (I := fun _ => True) (V := fun _ => True) (Pre := fun _ _ => True) (F := False)
         (pathRegex := match compile_pattern RegExp opts with Some r => r | None => None end)
      | | | | ]; try solve [auto].
    - intros v _ st _. pose proof (collect_total URL spec v st Logic.I) as G.
      destruct (collect URL spec (Some v) st); auto.
    - intros st _. right. intros G.
      pose proof (resolve_total URL spec st Logic.I) as G'.
      rewrite G in G'. exact G'.
    - intros r Hr. now rewrite Hr. }
  specialize (H (initial_state spec opts) (conj Logic.I eq_refl)).
  intros Hoof. rewrite Hoof in H. exact H.
Qed.

(** ** Invariants that every update of the state keeps *)

Section Stable.

Variable URL : string -> option url.
Variable RegExp : string -> option (string -> bool).
Variable spec : document.
Variable opts : options.
Variable I : state -> Prop.

Hypothesis I_used : forall t x st, I st -> I (add_used t x st).
Hypothesis I_seen : forall id st, I st -> seen id st = false -> I (mark_seen id st).
Hypothesis I_warn : forall msg st, I st -> I (add_warning msg st).
Hypothesis I_tag : forall tag st, I st -> I (add_tag tag st).
Hypothesis I_bump : forall st, I st -> I (bump st).
Hypothesis I_next : forall n st,
  I st ->
  I (mkState (usedComponents st) (seenObjects st) (usedTags st) (console st) (scans st) n).

Lemma collect_keeps_stable v :
  triple (entering I v) (collect URL spec (Some v)) (fun _ => I) I True.
Proof.
  unfold collect.
  apply collectReferences_keeps with (V := fun _ => True); auto.
  intros obj t x st _ _ HI _.
  destruct (find_component spec t x) as [[c|]|]; auto.
  destruct (truthy (Some c)); auto. split; auto.
  apply entering_intro; auto.
Qed.

(** The state in which [filterOpenAPI] ends, normally or not, satisfies [I];
    the document it returns is assembled from that state. *)
Lemma filterOpenAPI_keeps :
  I (initial_state spec opts) ->
  match filterOpenAPI URL RegExp spec opts with
  | Ok r st =>
      I st /\ exists pathRegex,
        compile_pattern RegExp opts = Some pathRegex /\
        assembled opts pathRegex spec st (fst r)
  | Throw _ st => I st
  | OutOfFuel => False
  end.
Proof.
  intros Hinit. unfold filterOpenAPI.
  pose proof (filterOpenAPI_total URL RegExp spec opts) as Htotal.
  unfold filterOpenAPI in Htotal.
  assert (H : triple (fun st => I st /\ next_id st = first_free spec)
                (filter_body URL RegExp spec opts)
                (fun r st => I st /\
                   assembled opts
                     (match compile_pattern RegExp opts with Some r => r | None => None end)
                     spec st (fst r))
                I True).
  { apply filter_body_keeps with (V := fun _ => True) (Pre := entering I);
      try solve [auto].
    - intros v st HI. apply entering_intro; auto.
    - intros v _. apply collect_keeps_stable.
    - intros name c st _ _ _ HI. split; auto. apply entering_intro; auto.
    - intros r Hr. now rewrite Hr. }
  specialize (H (initial_state spec opts) (conj Hinit eq_refl)).
  destruct (filter_body URL RegExp spec opts (initial_state spec opts)) as [r st|e st|] eqn:Hrun;
    auto.
  destruct H as [HI Ha]. split; auto.
  destruct (compile_pattern RegExp opts) as [r0|] eqn:Hpat; eauto.
  (* a pattern that does not compile makes the body throw *)
  exfalso. unfold filter_body, bind, gets in Hrun. simpl in Hrun.
  destruct (deep_copy_fields spec (first_free spec)). simpl in Hrun.
  rewrite Hpat in Hrun. discriminate.
Qed.

End Stable.

(** ** The deep copy *)

Lemma deep_copy_arr id l n :
  deep_copy (VArr id l) n =
  let '(l', n') := deep_copy_list l (S n) in (VArr n l', n').
Proof. reflexivity. Qed.

Lemma deep_copy_obj id fs n :
  deep_copy (VObj id fs) n =
  let '(fs', n') := deep_copy_fields fs (S n) in (VObj n fs', n').
Proof. reflexivity. Qed.

Lemma deep_copy_erase v : forall n, erase (fst (deep_copy v n)) = reparsed (erase v).
Proof.
  induction v using value_ind'; intros n; try reflexivity.
  - simpl. destruct (non_finite r); reflexivity.
  - rewrite deep_copy_arr.
    destruct (deep_copy_list l (S n)) as [l' n'] eqn:Hl. simpl. f_equal.
    revert l' n' Hl. generalize (S n). induction H as [|x r Hx Hr IH]; intros m l' n' Hl.
    + simpl in Hl. inversion Hl. reflexivity.
    + simpl in Hl. specialize (Hx m).
      destruct (deep_copy x m) as [x' n1].
      destruct (deep_copy_list r n1) as [r' n2] eqn:Hr'.
      inversion Hl; subst. simpl in *. f_equal; eauto.
  - rewrite deep_copy_obj.
    destruct (deep_copy_fields fs (S n)) as [fs' n'] eqn:Hl. simpl. f_equal.
    revert fs' n' Hl. generalize (S n). induction H as [|[k x] r Hx Hr IH]; intros m l' n' Hl.
    + simpl in Hl. inversion Hl. reflexivity.
    + simpl in Hl. specialize (Hx m). simpl in Hx.
      destruct (deep_copy x m) as [x' n1].
      destruct (deep_copy_fields r n1) as [r' n2] eqn:Hr'.
      inversion Hl; subst. simpl in *. f_equal; eauto. now rewrite Hx.
Qed.

Lemma deep_copy_fields_erase fs : forall n,
  erase_fields (fst (deep_copy_fields fs n)) = reparsed_fields (erase_fields fs).
Proof.
  induction fs as [|[k x] r IH]; intros n; simpl; auto.
  pose proof (deep_copy_erase x n) as Hx.
  destruct (deep_copy x n) as [x' n1]. specialize (IH n1).
  destruct (deep_copy_fields r n1) as [r' n2]. simpl in *.
  now rewrite Hx, IH.
Qed.

Lemma assoc_reparsed_fields k fs :
  assoc k (reparsed_fields fs) = option_map reparsed (assoc k fs).
Proof.
  induction fs as [|[k0 v0] r IH]; simpl; auto.
  destruct (String.eqb k k0); auto.
Qed.

Lemma assoc_erase_fields k fs :
  assoc k (erase_fields fs) = option_map erase (assoc k fs).
Proof.
  induction fs as [|[k0 v0] r IH]; simpl; auto.
  destruct (String.eqb k k0); auto.
Qed.

Lemma working_copy_erase spec :
  erase_fields (working_copy spec) = reparsed_fields (erase_fields spec).
Proof. apply deep_copy_fields_erase. Qed.

(** A field of the working copy is the field of the source, read back. *)
Lemma assoc_working_copy k spec :
  option_map erase (assoc k (working_copy spec))
  = option_map (fun v => reparsed (erase v)) (assoc k spec).
Proof.
  rewrite <- assoc_erase_fields, working_copy_erase, assoc_reparsed_fields,
    assoc_erase_fields.
  now destruct (assoc k spec).
Qed.

(** Reading back changes nothing where every number is finite, and nothing
    the second time. *)
Lemma reparsed_finite v : finite_numbers v = true -> reparsed (erase v) = erase v.
Proof.
  induction v using value_ind'; simpl; intros Hf; auto.
  - now destruct (non_finite r).
  - f_equal. rewrite map_map. apply map_ext_in. intros x Hx.
    rewrite Forall_forall in H. rewrite forallb_forall in Hf. auto.
  - f_equal. rewrite map_map. apply map_ext_in. intros [k x] Hx. simpl.
    rewrite Forall_forall in H. rewrite forallb_forall in Hf.
    f_equal. apply (H (k, x) Hx). apply (Hf (k, x) Hx).
Qed.

(** ** Cleaning the empty fields *)

Lemma assoc_clean_field_other k field X :
  k <> field -> assoc k (clean_field X field) = assoc k X.
Proof.
  intros Hk. unfold clean_field. destruct (assoc field X) as [v|]; auto.
  destruct (truthy (Some v) && Nat.eqb (length (keys_of v)) 0); auto.
  now apply assoc_delete_field_other.
Qed.




Lemma assoc_clean_empty_fields_other k X :
  ~ In k ["components"; "security"; "tags"] ->
  assoc k (clean_empty_fields X) = assoc k X.
Proof.
  intros Hk. unfold clean_empty_fields. simpl.
  rewrite !assoc_clean_field_other; auto; intros ->; apply Hk; simpl; auto.
Qed.

(** ** The document returned *)

Lemma filterOpenAPI_assembled URL RegExp spec opts out spec' st :
  filterOpenAPI URL RegExp spec opts = Ok (out, spec') st ->
  exists pathRegex,
    compile_pattern RegExp opts = Some pathRegex /\
    assembled opts pathRegex spec st out.
Proof.
  intros Hrun.
  pose proof (filterOpenAPI_keeps URL RegExp spec opts (fun _ => True)) as H.
  rewrite Hrun in H. simpl in H. apply H; auto.
Qed.

Lemma assoc_with_security_schemes k spec X :
  k <> "securitySchemes" -> assoc k (with_security_schemes spec X) = assoc k X.
Proof.
  intros Hk. unfold with_security_schemes.
  destruct (assoc "securitySchemes" spec) as [s|]; auto.
  destruct (truthy (Some s)); auto. now apply assoc_set_field_other.
Qed.

Lemma assoc_with_components k opts used spec X0 X1 :
  k <> "components" -> with_components opts used spec X0 X1 -> assoc k X1 = assoc k X0.
Proof.
  intros Hk. unfold with_components.
  destruct (assoc "components" spec) as [c|]; [|now intros ->].
  destruct (truthy (Some c)); [|now intros ->].
  intros (id & fc & _ & ->). now apply assoc_set_field_other.
Qed.

Lemma assoc_with_tags k opts used spec X0 X1 :
  k <> "tags" -> with_tags opts used spec X0 X1 -> assoc k X1 = assoc k X0.
Proof.
  intros Hk (l & kept & id & _ & _ & ->). now apply assoc_set_field_other.
Qed.

(** The fields the pass leaves alone. *)
Lemma assoc_output_other URL RegExp spec opts out spec' st k :
  filterOpenAPI URL RegExp spec opts = Ok (out, spec') st ->
  ~ In k ["paths"; "components"; "tags"; "security"; "securitySchemes"] ->
  option_map erase (assoc k out)
  = option_map (fun v => reparsed (erase v)) (assoc k spec).
Proof.
  intros Hrun Hk.
  assert (Hne : k <> "paths" /\ k <> "components" /\ k <> "tags" /\
                k <> "security" /\ k <> "securitySchemes").
  { repeat split; intros ->; apply Hk; simpl; tauto. }
  destruct Hne as (Hp & Hc & Ht & Hs & Hss).
  apply filterOpenAPI_assembled in Hrun as (pathRegex & _ & pid & acc & X1 & X2 & _ & H1 & H2 & ->).
  rewrite assoc_clean_empty_fields_other.
  2:{ simpl. intros [E|[E|[E|[]]]]; subst k; congruence. }
  rewrite (assoc_with_tags k _ _ _ _ _ Ht H2).
  rewrite assoc_with_security_schemes by assumption.
  rewrite (assoc_with_components k _ _ _ _ _ Hc H1).
  rewrite assoc_set_field_other by assumption.
  apply assoc_working_copy.
Qed.

(** C10. Every top-level field of the input other than [paths],
    [components], [tags], [security] and [securitySchemes] is in the output
    with the value that [JSON.parse(JSON.stringify(...))] makes of its value
    in the input: the same JSON with [null] for every number that is not
    finite.  A value whose numbers are all finite is in the output as it is
    in the input; a field the input lacks is not in the output either. *)
Theorem untouched_fields_preserved URL RegExp spec opts out spec' st k :
  filterOpenAPI URL RegExp spec opts = Ok (out, spec') st ->
  ~ In k ["paths"; "components"; "tags"; "security"; "securitySchemes"] ->
  option_map erase (assoc k out)
  = option_map (fun v => reparsed (erase v)) (assoc k spec) /\
  (forall v, assoc k spec = Some v -> finite_numbers v = true ->
             option_map erase (assoc k out) = Some (erase v)) /\
  (assoc k spec = None -> assoc k out = None).
Proof.
  intros Hrun Hk.
  pose proof (assoc_output_other _ _ _ _ _ _ _ k Hrun Hk) as He.
  split; [exact He|split].
  - intros v Hv Hf. rewrite He, Hv. simpl. now rewrite reparsed_finite.
  - intros Hn. rewrite Hn in He. now destruct (assoc k out).
Qed.

Lemma untouched_fields_preserved_witness :
  exists out spec' st,
    Sample.run Sample.users Sample.only_user = Ok (out, spec') st /\
    option_map erase (assoc "openapi" out) = Some (JStr "3.0.0").
Proof.
  unfold Sample.run.
  destruct (filterOpenAPI Whatwg.URL_file Whatwg.RegExp_none Sample.users Sample.only_user)
    as [[out spec'] st|e st|] eqn:E.
  - exists out, spec', st. split; [reflexivity|].
    assert (Hk : ~ In "openapi" ["paths"; "components"; "tags"; "security"; "securitySchemes"])
      by (simpl; intuition discriminate).
    exact (proj1 (proj2 (untouched_fields_preserved _ _ _ _ _ _ _ "openapi" E Hk))
                 (VStr "3.0.0") eq_refl eq_refl).
  - vm_compute in E. discriminate.
  - vm_compute in E. discriminate.
Defined.

(** The claim as the specification states it fails: a number out of range,
    which [JSON.parse] reads as [Infinity], comes back as [null]. *)
Theorem untouched_claim_fails : ~ untouched_claim.
Proof.
  intros H.
  destruct (filterOpenAPI Whatwg.URL_file Whatwg.RegExp_none SampleLimit.spec Sample.defaults)
    as [[out spec'] st|e st|] eqn:E.
  2,3: vm_compute in E; discriminate.
  specialize (H _ _ _ _ _ _ _ "x-limit" E).
  assert (Hout : option_map erase (assoc "x-limit" out) = Some JNull).
  { change (option_map erase
              (assoc "x-limit"
                 (match Ok (out, spec') st with Ok (o, _) _ => o | _ => [] end))
            = Some JNull).
    rewrite <- E. vm_compute. reflexivity. }
  rewrite Hout in H.
  assert (Hk : ~ In "x-limit" ["paths"; "components"; "tags"; "security"; "securitySchemes"])
    by (simpl; intuition discriminate).
  specialize (H Hk). vm_compute in H. discriminate.
Qed.





(** ** Forced inclusion *)

Lemma same_value_zero_str s : same_value_zero (Some (VStr s)) (Some (VStr s)) = true.
Proof. simpl. apply String.eqb_refl. Qed.

Lemma set_has_app x s r : set_has x (s ++ r) = set_has x s || set_has x r.
Proof. unfold set_has. apply existsb_app. Qed.

Lemma set_has_set_add_old x y s : set_has x s = true -> set_has x (set_add y s) = true.
Proof.
  intros H. unfold set_add. destruct (set_has y s); auto.
  rewrite set_has_app, H. reflexivity.
Qed.

Lemma set_has_set_add_new s name :
  set_has (Some (VStr name)) (set_add (Some (VStr name)) s) = true.
Proof.
  unfold set_add. destruct (set_has (Some (VStr name)) s) eqn:E; auto.
  rewrite set_has_app. simpl. rewrite String.eqb_refl. now rewrite orb_true_r.
Qed.

Lemma set_has_set_of_strings names name :
  In name names -> set_has (Some (VStr name)) (set_of_strings names) = true.
Proof.
  unfold set_of_strings. generalize (@nil jsval) as acc.
  induction names as [|n r IH]; intros acc Hin; [contradiction|]. simpl.
  destruct Hin as [->|Hin]; auto.
  clear IH. generalize (set_has_set_add_new acc name).
  generalize (set_add (Some (VStr name)) acc) as acc'. clear acc.
  induction r as [|m r IH]; intros acc' H; simpl; auto.
  apply IH. now apply set_has_set_add_old.
Qed.

Lemma set_has_add_used x t y t' st :
  set_has x (usedComponents st t) = true ->
  set_has x (usedComponents (add_used t' y st) t) = true.
Proof.
  intros H. simpl. destruct (type_eqb t t'); auto. now apply set_has_set_add_old.
Qed.

(** A name in a reachable set stays there. *)
Lemma reachable_set_grows URL RegExp spec opts x t :
  set_has x (usedComponents (initial_state spec opts) t) = true ->
  match filterOpenAPI URL RegExp spec opts with
  | Ok _ st => set_has x (usedComponents st t) = true
  | _ => True
  end.
Proof.
  intros H.
  pose proof (filterOpenAPI_keeps URL RegExp spec opts
                (fun st => set_has x (usedComponents st t) = true)) as K.
  destruct (filterOpenAPI URL RegExp spec opts); auto.
  apply K; auto. intros. now apply set_has_add_used.
Qed.

Lemma filter_opt_In (A : Type) (f : A -> option bool) l kept e :
  filter_opt f l = Some kept -> In e l -> f e = Some true -> In e kept.
Proof.
  revert kept. induction l as [|x r IH]; intros kept H Hin He; [contradiction|].
  simpl in H. destruct (f x) as [b|] eqn:Hx; [|discriminate].
  destruct (filter_opt f r) as [r'|]; [|discriminate].
  inversion H; subst kept. destruct Hin as [->|Hin].
  - rewrite He in Hx. inversion Hx; subst b. now left.
  - specialize (IH r' eq_refl Hin He). destruct b; [right|]; auto.
Qed.

Lemma filter_opt_incl (A : Type) (f : A -> option bool) l kept e :
  filter_opt f l = Some kept -> In e kept -> In e l /\ f e = Some true.
Proof.
  revert kept. induction l as [|x r IH]; intros kept H Hin; simpl in H.
  - inversion H; subst. contradiction.
  - destruct (f x) as [b|] eqn:Hx; [|discriminate].
    destruct (filter_opt f r) as [r'|]; [|discriminate].
    inversion H; subst kept. destruct b.
    + destruct Hin as [<-|Hin]; [split; auto; now left|].
      destruct (IH r' eq_refl Hin). split; auto. now right.
    + destruct (IH r' eq_refl Hin). split; auto. now right.
Qed.

Lemma filter_opt_NoDup (A B : Type) (g : A -> B) (f : A -> option bool) l kept :
  filter_opt f l = Some kept -> NoDup (map g l) -> NoDup (map g kept).
Proof.
  revert kept. induction l as [|x r IH]; intros kept H Hnd; simpl in H.
  - inversion H; subst. constructor.
  - destruct (f x) as [b|] eqn:Hx; [|discriminate].
    destruct (filter_opt f r) as [r'|] eqn:Hr; [|discriminate].
    inversion H; subst kept. inversion Hnd as [|? ? Hnot Hnd']; subst.
    specialize (IH r' eq_refl Hnd'). destruct b; auto.
    simpl. constructor; auto. intros Hin. apply Hnot.
    apply in_map_iff in Hin as [y [Hy Hin]].
    apply in_map_iff. exists y. split; auto.
    apply (filter_opt_incl _ f r r' y Hr Hin).
Qed.

Lemma assoc_fold_set_field_absent k (l acc : list (string * value)) :
  ~ In k (map fst l) ->
  assoc k (fold_left (fun o kv => set_field (fst kv) (snd kv) o) l acc) = assoc k acc.
Proof.
  revert acc. induction l as [|[k0 v0] r IH]; intros acc Hk; simpl; auto.
  rewrite IH by (intros H; apply Hk; now right).
  apply assoc_set_field_other. intros ->. apply Hk. now left.
Qed.

Lemma assoc_from_entries k v l :
  NoDup (map fst l) -> In (k, v) l -> assoc k (from_entries l) = Some v.
Proof.
  unfold from_entries. generalize (@nil (string * value)) as acc.
  induction l as [|[k0 v0] r IH]; intros acc Hnd Hin; [contradiction|].
  simpl in *. inversion Hnd as [|? ? Hnot Hnd']; subst.
  destruct Hin as [E|Hin].
  - inversion E; subst. rewrite assoc_fold_set_field_absent by assumption.
    apply assoc_set_field_same.
  - apply IH; auto.
Qed.

Lemma assoc_In_fst (A : Type) k (l : list (string * A)) v :
  In (k, v) l -> NoDup (map fst l) -> assoc k l = Some v.
Proof.
  induction l as [|[k0 v0] r IH]; intros Hin Hnd; [contradiction|]. simpl in *.
  inversion Hnd as [|? ? Hnot Hnd']; subst. destruct Hin as [E|Hin].
  - inversion E; subst. now rewrite String.eqb_refl.
  - destruct (String.eqb k k0) eqn:Ek; auto.
    apply String.eqb_eq in Ek. subst k0. exfalso. apply Hnot.
    apply in_map_iff. exists (k, v). auto.
Qed.

Lemma filter_opt_defined (A : Type) (f : A -> option bool) l kept e :
  filter_opt f l = Some kept -> In e l -> exists b, f e = Some b.
Proof.
  revert kept. induction l as [|x r IH]; intros kept H Hin; [contradiction|].
  simpl in H. destruct (f x) as [b|] eqn:Hx; [|discriminate].
  destruct (filter_opt f r) as [r'|]; [|discriminate].
  destruct Hin as [<-|Hin]; eauto.
Qed.

Lemma clean_empty_fields_components_kept X v :
  assoc "components" X = Some v ->
  keys_of v <> [] ->
  assoc "components" (clean_empty_fields X) = Some v.
Proof.
  intros Hv Hk. unfold clean_empty_fields. simpl.
  rewrite !assoc_clean_field_other by discriminate.
  unfold clean_field. rewrite Hv.
  destruct (keys_of v) as [|k r]; [contradiction|].
  simpl. rewrite andb_false_r. exact Hv.
Qed.

(** C7, as amended. A name of [alwaysIncludeComponents] that a source
    category defines is in that category of the output, with its definition,
    unless internal components are excluded and the definition carries the
    internal marker. *)
Theorem always_included_present URL RegExp spec opts out spec' st name t ci cfields i fields c :
  filterOpenAPI URL RegExp spec opts = Ok (out, spec') st ->
  In name (alwaysIncludeComponents opts) ->
  assoc "components" spec = Some (VObj ci cfields) ->
  assoc (type_name t) cfields = Some (VObj i fields) ->
  NoDup (map fst fields) ->
  assoc name fields = Some c ->
  excludeInternalComponents opts = false \/ truthy (get c "x-internal") = false ->
  exists oi ofields ci' cat,
    assoc "components" out = Some (VObj oi ofields) /\
    assoc (type_name t) ofields = Some (VObj ci' cat) /\
    assoc name cat = Some c.
Proof.
  intros Hrun Hname Hcomps Hcat Hnd Hc Hint.
  pose proof (reachable_set_grows URL RegExp spec opts (Some (VStr name)) t
                (set_has_set_of_strings _ _ Hname)) as Hused.
  rewrite Hrun in Hused.
  apply filterOpenAPI_assembled in Hrun
    as (pathRegex & _ & pid & acc & X1 & X2 & _ & H1 & H2 & ->).
  unfold with_components in H1. rewrite Hcomps in H1. simpl in H1.
  destruct H1 as (id & fc & [Hfc _] & ->).
  specialize (Hfc t). unfold category_inv in Hfc. simpl in Hfc. rewrite Hcat in Hfc.
  simpl in Hfc. destruct Hfc as (kept & Hkept & Hassoc).
  assert (Hin : In (name, c) kept).
  { apply (filter_opt_In _ _ _ _ (name, c) Hkept); [now apply assoc_In|].
    destruct (filter_opt_defined _ _ _ _ (name, c) Hkept (assoc_In _ _ _ _ Hc)) as [b Hb].
    revert Hb. unfold keep_component. simpl. rewrite Hused.
    destruct (excludeInternalComponents opts) eqn:Hex; auto.
    rewrite Hc. destruct Hint as [Hint|Hint]; [discriminate|].
    destruct c; try discriminate; now rewrite Hint. }
  assert (Hfrom : assoc name (from_entries kept) = Some c).
  { apply assoc_from_entries; auto.
    apply (filter_opt_NoDup _ _ fst _ _ _ Hkept Hnd). }
  destruct (from_entries kept) as [|e o] eqn:Ho; [discriminate|].
  destruct Hassoc as [cid Hcid].
  exists id, fc, cid, (e :: o). repeat split; auto.
  apply clean_empty_fields_components_kept.
  - rewrite (assoc_with_tags "components" _ _ _ _ _ ltac:(discriminate) H2).
    rewrite assoc_with_security_schemes by discriminate.
    apply assoc_set_field_same.
  - unfold keys_of. simpl. destruct fc; [discriminate|]. discriminate.
Qed.

Lemma always_included_present_witness :
  exists out spec' st oi ofields ci' cat,
    Sample.run Sample.users (mkOptions ["User"] None false ["Foo"]) = Ok (out, spec') st /\
    assoc "components" out = Some (VObj oi ofields) /\
    assoc "schemas" ofields = Some (VObj ci' cat) /\
    assoc "Foo" cat = Some (VObj 16 [("type", VStr "object")]).
Proof.
  unfold Sample.run.
  destruct (filterOpenAPI Whatwg.URL_file Whatwg.RegExp_none Sample.users
              (mkOptions ["User"] None false ["Foo"]))
    as [[out spec'] st|e st|] eqn:E.
  - destruct (always_included_present _ _ _ _ _ _ _ "Foo" schemas 14
                [("schemas",
                  VObj 15
                    [("Foo", VObj 16 [("type", VStr "object")]);
                     ("Error", VObj 17 [("x-responseDTO", VStr "Bar")]);
                     ("Bar", VObj 18 [])])]
                15
                [("Foo", VObj 16 [("type", VStr "object")]);
                 ("Error", VObj 17 [("x-responseDTO", VStr "Bar")]);
                 ("Bar", VObj 18 [])]
                (VObj 16 [("type", VStr "object")]) E)
      as (oi & ofields & ci' & cat & H1 & H2 & H3).
    + simpl. tauto.
    + reflexivity.
    + reflexivity.
    + simpl. repeat (constructor; [simpl; intuition discriminate|]). constructor.
    + reflexivity.
    + left. reflexivity.
    + exists out, spec', st, oi, ofields, ci', cat. auto.
  - vm_compute in E. discriminate.
  - vm_compute in E. discriminate.
Defined.

(** C7, as stated, fails: with internal components excluded, an
    always-included schema that carries the internal marker is dropped. *)
Lemma always_included_claim_fails : ~ always_included_claim.
Proof.
  intros H.
  destruct (filterOpenAPI Whatwg.URL_file Whatwg.RegExp_none
              SampleInternal.spec SampleInternal.opts)
    as [[out spec'] st|e st|] eqn:E.
  - destruct (H _ _ _ _ _ _ _ "Keep" schemas 2
                [("schemas", VObj 3 [("Keep", VObj 4 [("x-internal", VBool true)])])]
                3 [("Keep", VObj 4 [("x-internal", VBool true)])]
                (VObj 4 [("x-internal", VBool true)]) E)
      as (oi & ofields & ci' & cat & H1 & _).
    + simpl. tauto.
    + reflexivity.
    + reflexivity.
    + simpl. repeat (constructor; [simpl; intuition discriminate|]). constructor.
    + reflexivity.
    + vm_compute in E. inversion E; subst out. discriminate.
  - vm_compute in E. discriminate.
  - vm_compute in E. discriminate.
Qed.

(** ** Three defects, on concrete documents *)

(** C1 (defect). The retained operation of [Sample.users] refers to
    ["#/components/schemas/Foo"], which the source defines; the output keeps
    the reference and drops [Foo].  [new URL(ref, 'file:///')] gives such a
    reference the pathname ["/"], so the test against ["/components"]
    fails and [trackComponent] is not called. *)
Theorem direct_reference_not_tracked :
  Whatwg.URL_file "#/components/schemas/Foo"
  = Some (mkUrl "/" "#/components/schemas/Foo") /\
  Sample.output (Sample.run Sample.users Sample.only_user)
  = Some
      [("openapi", JStr "3.0.0");
       ("paths",
        JObj
          [("/users",
            JObj
              [("get",
                JObj
                  [("tags", JArr [JStr "User"]);
                   ("parameters",
                    JArr
                      [JObj [("in", JStr "query"); ("name", JStr "a")];
                       JObj [("in", JStr "header"); ("name", JStr "a")]]);
                   ("responses",
                    JObj
                      [("200",
                        JObj
                          [("content",
                            JObj
                              [("application/json",
                                JObj
                                  [("schema",
                                    JObj [("$ref", JStr "#/components/schemas/Foo")])])])])])])])]);
       ("components",
        JObj
          [("schemas",
            JObj
              [("Error", JObj [("x-responseDTO", JStr "Bar")]);
               ("Bar", JObj [])])]);
       ("tags", JArr [JObj [("name", JStr "User")]])].
Proof. split; vm_compute; reflexivity. Qed.

(** C3 (defect). After the call on [Sample.users], the operation of the
    input has lost its third parameter: the assignment
    [operation.parameters = uniqueParams] is made on the object of [spec]. *)
Theorem input_is_modified :
  input_after (Sample.run Sample.users Sample.only_user)
  <> Some (erase_fields Sample.users) /\
  option_map (fun fs => assoc "paths" fs) (input_after (Sample.run Sample.users Sample.only_user))
  = Some (Some
      (JObj
         [("/users",
           JObj
             [("get",
               JObj
                 [("tags", JArr [JStr "User"]);
                  ("parameters",
                   JArr
                     [JObj [("in", JStr "query"); ("name", JStr "a")];
                      JObj [("in", JStr "header"); ("name", JStr "a")]]);
                  ("responses",
                   JObj
                     [("200",
                       JObj
                         [("content",
                           JObj
                             [("application/json",
                               JObj
                                 [("schema",
                                   JObj [("$ref", JStr "#/components/schemas/Foo")])])])])])])])])).
Proof. split; vm_compute; [discriminate|reflexivity]. Qed.

(** C8 (defect). On [SampleJobs.spec], a valid description, the call throws
    a [TypeError]: the scan reaches the [properties] object, whose
    [parameters] field is an object, and calls [forEach] on it. *)
Theorem valid_document_throws :
  throws TypeError (Sample.run SampleJobs.spec Sample.defaults) = true.
Proof. vm_compute. reflexivity. Qed.

(** ** De-duplication of parameters *)

Lemma string_in_app k l r : string_in k (l ++ r) = string_in k l || string_in k r.
Proof. unfold string_in. apply existsb_app. Qed.

Lemma string_in_true k l : string_in k l = true <-> In k l.
Proof.
  unfold string_in. rewrite existsb_exists. split.
  - intros [x [Hx E]]. apply String.eqb_eq in E. now subst.
  - intros H. exists k. split; auto. apply String.eqb_refl.
Qed.

Lemma same_key_true p q :
  same_key p q = true <-> exists k, param_key p = Some k /\ param_key q = Some k.
Proof.
  unfold same_key. destruct (param_key p) as [a|], (param_key q) as [b|]; split;
    try discriminate; try (intros [k [H1 H2]]; discriminate).
  - intros E. apply String.eqb_eq in E. subst. eauto.
  - intros [k [H1 H2]]. inversion H1; inversion H2; subst. apply String.eqb_refl.
Qed.

(** The loop of the source computes the specification: [seenParams] holds
    the keys of the parameters passed. *)
Lemma unique_params_drop_repeated l : forall earlier seenParams u,
  (forall k, In k seenParams <-> exists q, In q earlier /\ param_key q = Some k) ->
  unique_params l seenParams = Some u ->
  u = drop_repeated earlier l /\ Forall (fun p => param_key p <> None) l.
Proof.
  induction l as [|p r IH]; intros earlier sp u Hsp Hu; simpl in *.
  - inversion Hu. auto.
  - destruct (param_key p) as [key|] eqn:Hkey; [|discriminate].
    assert (Hdup : string_in key sp = existsb (same_key p) earlier).
    { apply eq_true_iff_eq. rewrite string_in_true, Hsp, existsb_exists. split.
      - intros [q [Hq Hk]]. exists q. split; auto. apply same_key_true. eauto.
      - intros [q [Hq Hs]]. apply same_key_true in Hs as [k [H1 H2]].
        rewrite Hkey in H1. inversion H1; subst. eauto. }
    rewrite <- Hdup. destruct (string_in key sp) eqn:Hin.
    + destruct (IH (earlier ++ [p]) sp u) as [-> Hall]; auto.
      * intros k. rewrite Hsp. split.
        -- intros [q [Hq Hk]]. exists q. split; auto. apply in_or_app. now left.
        -- intros [q [Hq Hk]]. apply in_app_or in Hq as [Hq|[<-|[]]]; eauto.
           rewrite Hkey in Hk. inversion Hk; subst k.
           apply Hsp. now apply string_in_true.
      * split; auto. constructor; auto. congruence.
    + destruct (unique_params r (sp ++ [key])) as [u'|] eqn:Hu'; [|discriminate].
      inversion Hu; subst u.
      destruct (IH (earlier ++ [p]) (sp ++ [key]) u') as [-> Hall]; auto.
      * intros k. rewrite in_app_iff, Hsp. split.
        -- intros [[q [Hq Hk]]|[<-|[]]].
           ++ exists q. split; auto. apply in_or_app. now left.
           ++ exists p. split; auto. apply in_or_app. right. now left.
        -- intros [q [Hq Hk]]. apply in_app_or in Hq as [Hq|[<-|[]]]; eauto.
           rewrite Hkey in Hk. inversion Hk. right. now left.
      * split; auto. constructor; auto. congruence.
Qed.

Lemma unique_params_first_occurrences l u :
  unique_params l [] = Some u ->
  u = first_occurrences l /\ Forall (fun p => param_key p <> None) l.
Proof.
  apply unique_params_drop_repeated. intros k. split; [intros []|].
  intros [q [[] _]].
Qed.

Lemma In_js_assign k v k' v' o :
  In (k, v) (js_assign k' v' o) -> (k, v) = (k', v') \/ In (k, v) o.
Proof.
  unfold js_assign. destruct (String.eqb k' "__proto__"); auto.
  induction o as [|[k0 v0] r IH]; simpl.
  - intros [E|[]]. left. now inversion E.
  - destruct (String.eqb k' k0); simpl.
    + intros [E|H]; [left; now inversion E|right; now right].
    + intros [E|H]; [right; now left|]. destruct (IH H); auto.
Qed.

Lemma In_assign_all e l : In e (assign_all l) -> In e l.
Proof.
  unfold assign_all.
  assert (G : forall acc, In e (fold_left (fun o e0 => js_assign (fst e0) (snd e0) o) l acc) ->
                          In e l \/ In e acc).
  { induction l as [|[k v] r IH]; intros acc H; simpl in *; auto.
    destruct (IH _ H) as [H'|H']; auto.
    destruct e as [ke ve].
    apply In_js_assign in H' as [E|H']; [left; left; now inversion E|auto]. }
  intros H. destruct (G [] H) as [H'|[]]. exact H'.
Qed.

Lemma Forall2_In_r (A B : Type) (R : A -> B -> Prop) l l' y :
  Forall2 R l l' -> In y l' -> exists x, In x l /\ R x y.
Proof.
  induction 1 as [|a b r r' Hab Hr IH]; intros Hin; [contradiction|].
  destruct Hin as [<-|Hin].
  - exists a. split; auto. now left.
  - destruct (IH Hin) as [x [Hx HR]]. exists x. split; auto. now right.
Qed.

(** The retained operations of the output and where they come from. *)
Lemma output_operation URL RegExp spec opts out spec' st pid fp path i fpi method op' :
  filterOpenAPI URL RegExp spec opts = Ok (out, spec') st ->
  assoc "paths" out = Some (VObj pid fp) ->
  In (path, VObj i fpi) fp ->
  In (method, op') fpi ->
  string_in method HTTP_METHODS = true ->
  exists pathItem op,
    In (path, pathItem) (path_entries spec) /\
    In (method, op) (entries pathItem) /\
    should_include opts op = Some true /\
    deduped op op'.
Proof.
  intros Hrun Hpaths Hfp Hfpi Hm.
  apply filterOpenAPI_assembled in Hrun
    as (pathRegex & _ & pid' & acc & X1 & X2 & (ks & Hks & Hacc) & H1 & H2 & ->).
  rewrite assoc_clean_empty_fields_other in Hpaths
    by (simpl; intros [E|[E|[E|[]]]]; discriminate).
  rewrite (assoc_with_tags "paths" _ _ _ _ _ ltac:(discriminate) H2) in Hpaths.
  rewrite assoc_with_security_schemes in Hpaths by discriminate.
  rewrite (assoc_with_components "paths" _ _ _ _ _ ltac:(discriminate) H1) in Hpaths.
  rewrite assoc_set_field_same in Hpaths. inversion Hpaths; subst pid' fp. clear Hpaths.
  rewrite Hacc in Hfp. apply In_assign_all in Hfp.
  apply in_concat in Hfp as (k & Hk & Hin).
  destruct (Forall2_In_r _ _ _ _ _ _ Hks Hk) as ([path0 pathItem] & Hentry & Hleft).
  destruct Hleft as [[-> _]|(id & ents' & -> & Hsel & Hret & Hents)]; [contradiction|].
  destruct Hin as [E|[]]. simpl in E. inversion E; subst path0 i fpi. clear E.
  apply In_assign_all in Hfpi. apply filter_In in Hfpi as [Hin' Hkept].
  destruct (Forall2_In_r _ _ _ _ _ _ Hents Hin') as ([m0 op] & Hop & [Hfst Hsnd]).
  simpl in Hfst, Hsnd. subst m0.
  exists pathItem, op. split; auto. split; auto.
  rewrite kept_entry_pair, Hm in Hkept. simpl negb in Hkept. simpl orb in Hkept.
  destruct (retained_entry opts (method, op)) eqn:Hr.
  - split; auto. rewrite retained_entry_pair, Hm in Hr.
    destruct (should_include opts op) as [[|]|]; auto; discriminate.
  - subst op'. rewrite Hr in Hkept. discriminate.
Qed.

Lemma key_injective a b a' b' :
  has_dot a = false -> has_dot a' = false ->
  (a ++ "." ++ b)%string = (a' ++ "." ++ b')%string -> a = a' /\ b = b'.
Proof.
  revert a'. induction a as [|c r IH]; intros [|c' r'] Ha Ha' H; simpl in *.
  - inversion H. auto.
  - inversion H; subst c'. discriminate.
  - inversion H; subst c. discriminate.
  - inversion H; subst c'.
    apply orb_false_iff in Ha as [_ Ha]. apply orb_false_iff in Ha' as [_ Ha'].
    destruct (IH r' Ha Ha' H2) as [-> ->]. auto.
Qed.

(** Equal keys are equal (location, name) pairs when the locations are
    strings without a full stop and the names are strings. *)
Lemma same_key_pair p q a b a' b' :
  get p "in" = Some (VStr a) -> get p "name" = Some (VStr b) ->
  get q "in" = Some (VStr a') -> get q "name" = Some (VStr b') ->
  has_dot a = false -> has_dot a' = false ->
  (same_key p q = true <-> a = a' /\ b = b').
Proof.
  intros Hpi Hpn Hqi Hqn Ha Ha'.
  assert (Hp : param_key p = Some (a ++ "." ++ b)%string).
  { unfold param_key. rewrite Hpi, Hpn. destruct p; try reflexivity. discriminate. }
  assert (Hq : param_key q = Some (a' ++ "." ++ b')%string).
  { unfold param_key. rewrite Hqi, Hqn. destruct q; try reflexivity. discriminate. }
  unfold same_key. rewrite Hp, Hq. rewrite String.eqb_eq. split.
  - now apply key_injective.
  - intros [-> ->]. reflexivity.
Qed.

(** C5, as amended. The parameter list of every retained operation of the
    output is the list of the source operation without the parameters whose
    key, the string [in + "." + name], is the key of an earlier parameter of
    the list; order is kept, and a repeated parameter is no error.  Two
    parameters whose locations are strings without a full stop and whose
    names are strings have the same key exactly when they have the same
    location and the same name. *)
Theorem parameters_deduplicated URL RegExp spec opts out spec' st pid fp path i fpi method op' :
  filterOpenAPI URL RegExp spec opts = Ok (out, spec') st ->
  assoc "paths" out = Some (VObj pid fp) ->
  In (path, VObj i fpi) fp ->
  In (method, op') fpi ->
  string_in method HTTP_METHODS = true ->
  (exists pathItem op,
      In (path, pathItem) (path_entries spec) /\
      In (method, op) (entries pathItem) /\
      should_include opts op = Some true /\
      ((truthy (get op "parameters") = false /\ op' = op) \/
       (exists ai l id,
           get op "parameters" = Some (VArr ai l) /\
           Forall (fun p => param_key p <> None) l /\
           get op' "parameters" = Some (VArr id (first_occurrences l)) /\
           forall k, k <> "parameters" -> get op' k = get op k))) /\
  (forall p q a b a' b',
      get p "in" = Some (VStr a) -> get p "name" = Some (VStr b) ->
      get q "in" = Some (VStr a') -> get q "name" = Some (VStr b') ->
      has_dot a = false -> has_dot a' = false ->
      (same_key p q = true <-> a = a' /\ b = b')).
Proof.
  intros Hrun Hpaths Hfp Hfpi Hm. split; [|apply same_key_pair].
  destruct (output_operation _ _ _ _ _ _ _ _ _ _ _ _ _ _ Hrun Hpaths Hfp Hfpi Hm)
    as (pathItem & op & Hp & Ho & Hs & Hd).
  exists pathItem, op. repeat split; auto.
  destruct Hd as [Hd|(ai & l & id & u & Hg & Hu & ->)]; [now left|right].
  apply unique_params_first_occurrences in Hu as [-> Hall].
  exists ai, l, id. repeat split; auto.
  - destruct op; simpl in Hg; try discriminate.
    simpl. apply assoc_set_field_same.
  - intros k Hk. now apply get_assign_parameters.
Qed.

Lemma parameters_deduplicated_witness :
  exists out spec' st op',
    Sample.run Sample.users Sample.only_user = Ok (out, spec') st /\
    option_map erase (get op' "parameters")
    = Some (JArr [JObj [("in", JStr "query"); ("name", JStr "a")];
                  JObj [("in", JStr "header"); ("name", JStr "a")]]).
Proof.
  unfold Sample.run.
  destruct (filterOpenAPI Whatwg.URL_file Whatwg.RegExp_none Sample.users Sample.only_user)
    as [[out spec'] st|e st|] eqn:E.
  - pose proof (f_equal (fun r => match r with Ok (o, _) _ => o | _ => [] end) E) as Hout.
    vm_compute in Hout.
    exists out, spec', st.
    pose proof (fun fp fpi op' =>
                  parameters_deduplicated _ _ _ _ _ _ _ 43 fp "/users" 44 fpi "get" op' E)
      as Hthm.
    edestruct Hthm as [(pathItem & op & Hp & Ho & Hs & Hd) _].
    + rewrite <- Hout. reflexivity.
    + simpl. left. reflexivity.
    + simpl. left. reflexivity.
    + reflexivity.
    + simpl in Hp. destruct Hp as [Hp|[]]. inversion Hp; subst pathItem. clear Hp.
      simpl in Ho. destruct Ho as [Ho|[]]. inversion Ho; subst op. clear Ho.
      destruct Hd as [[Hd _]|(ai & l & id & Hg & Hall & Hget & _)]; [discriminate|].
      simpl in Hg. inversion Hg; subst ai l. clear Hg.
      match type of Hget with get ?o _ = _ => exists o end.
      split; [reflexivity|]. rewrite Hget. reflexivity.
  - vm_compute in E. discriminate.
  - vm_compute in E. discriminate.
Defined.

(** C5, as stated, fails: two parameters whose (location, name) pairs
    differ are taken for duplicates when the pairs give the same key. *)
Lemma dedup_by_pair_claim_fails : ~ dedup_by_pair_claim.
Proof.
  intros H.
  destruct (filterOpenAPI Whatwg.URL_file Whatwg.RegExp_none SampleDots.spec Sample.defaults)
    as [[out spec'] st|e st|] eqn:E.
  - pose proof (f_equal (fun r => match r with Ok (o, _) _ => o | _ => [] end) E) as Hout.
    vm_compute in Hout.
    pose proof (fun fp fpi op' => H _ _ _ _ _ _ _ 13 fp "/search" 14 fpi "get" op' E) as Hthm.
    edestruct Hthm as (pathItem & op & Hp & Ho & Hclaim).
    + rewrite <- Hout. reflexivity.
    + simpl. left. reflexivity.
    + simpl. left. reflexivity.
    + reflexivity.
    + simpl in Hp. destruct Hp as [Hp|[]]. inversion Hp; subst pathItem. clear Hp.
      simpl in Ho. destruct Ho as [Ho|[]]. inversion Ho; subst op. clear Ho.
      destruct (Hclaim 4 _ eq_refl) as (id & u & Hget & Hdedup).
      simpl in Hget. inversion Hget; subst id u. clear Hget.
      inversion Hdedup as [|earlier p r u Hex Hrest|earlier p r u Hnone Hrest]; subst.
      * destruct Hex as (q & [] & _).
      * inversion Hrest as [|earlier p r u Hex2 Hrest'|]; subst.
        destruct Hex2 as (q & [<-|[]] & Hq). discriminate.
  - vm_compute in E. discriminate.
  - vm_compute in E. discriminate.
Qed.

(** ** Soundness of the reachable sets *)

Lemma In_set_add x y s : In x (set_add y s) -> In x s \/ x = y.
Proof.
  unfold set_add. destruct (set_has y s); auto.
  intros H. apply in_app_or in H as [H|[H|[]]]; auto.
Qed.

Lemma type_eqb_true t t' : type_eqb t t' = true -> t = t'.
Proof. unfold type_eqb. intros H. apply String.eqb_eq in H. now apply type_name_inj. Qed.

Lemma In_add_used x t y t' st :
  In x (usedComponents (add_used t' y st) t) ->
  In x (usedComponents st t) \/ (t = t' /\ x = y).
Proof.
  simpl. destruct (type_eqb t t') eqn:E; auto.
  intros H. apply In_set_add in H as [H| ->]; auto.
  right. split; auto. now apply type_eqb_true.
Qed.

Lemma within_trans a b c : within a b -> within b c -> within a c.
Proof.
  intros Hab Hbc. induction Hbc as [|v y Hy Hby IH]; auto.
  eapply within_step; eauto.
Qed.

Lemma within_child x v : In x (values_of v) -> within x v.
Proof. intros H. eapply within_step; [exact H|apply within_refl]. Qed.

Lemma mentions_object URL v t x :
  mentions URL v t x -> exists id fs, v = VObj id fs.
Proof.
  intros H. destruct v; eauto; exfalso; inversion H; subst;
    simpl in *; try discriminate.
Qed.

Lemma In_set_of_strings x names :
  In x (set_of_strings names) -> exists name, x = Some (VStr name) /\ In name names.
Proof.
  unfold set_of_strings.
  assert (G : forall acc,
            In x (fold_left (fun s n => set_add (Some (VStr n)) s) names acc) ->
            In x acc \/ exists name, x = Some (VStr name) /\ In name names).
  { induction names as [|n r IH]; intros acc H; simpl in *; auto.
    destruct (IH _ H) as [H'|(name & -> & Hn)].
    - apply In_set_add in H' as [H'| ->]; auto. right. exists n. auto.
    - right. exists name. auto. }
  intros H. destruct (G [] H) as [[]|H']. exact H'.
Qed.

Lemma set_has_In_str name s :
  set_has (Some (VStr name)) s = true -> In (Some (VStr name)) s.
Proof.
  unfold set_has. rewrite existsb_exists. intros [y [Hy E]].
  destruct y as [[]|]; simpl in E; try discriminate.
  apply String.eqb_eq in E. now subst.
Qed.

Lemma In_set_field (A : Type) k (v : A) l k' v' :
  In (k', v') (set_field k v l) -> (k', v') = (k, v) \/ In (k', v') l.
Proof.
  induction l as [|[k0 v0] r IH]; simpl.
  - intros [E|[]]. left. now inversion E.
  - destruct (String.eqb k k0); simpl.
    + intros [E|H]; [left; now inversion E|right; now right].
    + intros [E|H]; [right; now left|]. destruct (IH H); auto.
Qed.

Lemma assoc_from_entries_In k v l : assoc k (from_entries l) = Some v -> In (k, v) l.
Proof.
  unfold from_entries. intros H. apply assoc_In in H.
  assert (G : forall acc,
            In (k, v) (fold_left (fun o kv => set_field (fst kv) (snd kv) o) l acc) ->
            In (k, v) l \/ In (k, v) acc).
  { clear H. induction l as [|[k0 v0] r IH]; intros acc H; simpl in *; auto.
    destruct (IH _ H) as [H'|H']; auto.
    apply In_set_field in H' as [E|H']; [left; left; now inversion E|auto]. }
  destruct (G [] H) as [H'|[]]. exact H'.
Qed.

Lemma unique_params_incl l : forall sp u, unique_params l sp = Some u -> incl u l.
Proof.
  induction l as [|p r IH]; intros sp u H; simpl in H.
  - inversion H. intros x [].
  - destruct (param_key p) as [key|]; [|discriminate].
    destruct (string_in key sp).
    + intros x Hx. right. eapply IH; eauto.
    + destruct (unique_params r (sp ++ [key])) as [u'|] eqn:Hu; [|discriminate].
      inversion H; subst u. intros x [<-|Hx]; [now left|right]. eapply IH; eauto.
Qed.

Section Soundness.

Variable URL : string -> option url.
Variable RegExp : string -> option (string -> bool).
Variable spec : document.
Variable opts : options.

Local Notation "'reached'" := (Reached URL spec opts (scan_root RegExp spec opts)).
Local Notation "'is_sound'" := (sound URL spec opts (scan_root RegExp spec opts)).
Local Notation "'is_covered'" := (covered URL spec opts (scan_root RegExp spec opts)).

Lemma covered_within v n : is_covered v -> within n v -> is_covered n.
Proof. intros Hv Hn m Hm. apply Hv. eapply within_trans; eauto. Qed.

Lemma covered_values v x : is_covered v -> In x (values_of v) -> is_covered x.
Proof. intros Hv Hx. apply (covered_within v); auto. now apply within_child. Qed.

Lemma covered_scalar v : (forall id fs, v <> VObj id fs) ->
  (forall x, In x (values_of v) -> is_covered x) -> is_covered v.
Proof.
  intros Hv Hch n Hn. inversion Hn as [|v' y Hy Hw]; subst.
  - intros t x Hm. apply mentions_object in Hm as (id & fs & ->). now destruct (Hv id fs).
  - apply (Hch y Hy). exact Hw.
Qed.

Lemma covered_get v k x : is_covered v -> get v k = Some x -> is_covered x.
Proof.
  intros Hv Hg. apply get_values_of in Hg as [Hg|[r ->]].
  - now apply (covered_values v).
  - apply covered_scalar; [discriminate|]. intros x [].
Qed.

Lemma covered_root r : scan_root RegExp spec opts r -> is_covered r.
Proof.
  intros Hr n Hn t x Hm. eapply Reached_mention; [|exact Hm].
  eapply Scanned_root; eauto.
Qed.

Lemma covered_component t x c :
  reached t x -> find_component spec t x = Some (Some c) -> is_covered c.
Proof.
  intros Hr Hc n Hn t' x' Hm. eapply Reached_mention; [|exact Hm].
  eapply Scanned_component; eauto.
Qed.

Lemma mentions_same_fields v v' t x :
  (forall k, k <> "parameters" -> get v' k = get v k) ->
  mentions URL v' t x -> mentions URL v t x.
Proof.
  intros Hg Hm. inversion Hm; subst.
  - rewrite (Hg "$ref") in * by discriminate. eapply mentions_ref; eauto.
  - rewrite (Hg "security") in * by discriminate. eapply mentions_security; eauto.
  - rewrite (Hg "x-responseDTO") in * by discriminate. eapply mentions_dto; eauto.
Qed.

Lemma values_of_assign_parameters id fs v y :
  In y (values_of (VObj id (set_field "parameters" v fs))) ->
  y = v \/ In y (values_of (VObj id fs)).
Proof.
  unfold values_of. simpl. intros H. apply in_map_iff in H as [[k z] [<- H]].
  apply In_set_field in H as [E|H].
  - left. now inversion E.
  - right. apply in_map_iff. exists (k, z). auto.
Qed.

(** De-duplicating the parameters of an operation adds nothing to what it
    mentions. *)
Lemma covered_deduped op op' : is_covered op -> deduped op op' -> is_covered op'.
Proof.
  intros Hop [[_ ->]|(ai & l & id & u & Hg & Hu & ->)]; auto.
  destruct op as [| | | | |oid fs]; simpl in Hg; try discriminate.
  simpl. intros n Hn. inversion Hn as [|v' y Hy Hw]; subst.
  - intros t x Hm. apply (Hop (VObj oid fs) (within_refl _)).
    eapply mentions_same_fields; [|exact Hm].
    intros k Hk. simpl. now apply assoc_set_field_other.
  - apply values_of_assign_parameters in Hy as [->|Hy].
    + (* the fresh array holds parameters of the old one *)
      assert (Hl : is_covered (VArr ai l)).
      { apply (covered_get (VObj oid fs) "parameters"); auto. }
      clear Hn. revert n Hw. apply covered_scalar; [discriminate|].
      intros x Hx. rewrite values_of_arr in Hx.
      apply (covered_values (VArr ai l)); auto. rewrite values_of_arr.
      eapply unique_params_incl; eauto.
    + apply (covered_values (VObj oid fs) y Hop Hy). exact Hw.
Qed.

Lemma entry_left_covered e e' :
  entry_left opts e e' -> is_covered (snd e) -> is_covered (snd e').
Proof.
  intros [_ H] Hc. destruct (retained_entry opts e).
  - eapply covered_deduped; eauto.
  - now rewrite H.
Qed.

Lemma entry_left_assoc fs ents' k :
  Forall2 (entry_left opts) fs ents' ->
  string_in k HTTP_METHODS = false ->
  assoc k ents' = assoc k fs.
Proof.
  intros H Hk. induction H as [|[k0 v0] [k1 v1] r r' [Hf Hs] Hr IH]; auto.
  cbn [fst snd] in Hf, Hs. subst k1. cbn [assoc].
  destruct (String.eqb k k0) eqn:E; auto.
  apply String.eqb_eq in E. subst k0.
  rewrite retained_entry_pair, Hk in Hs. cbn [andb] in Hs. now subst.
Qed.

(** A path item as the paths loop leaves it mentions what it did before. *)
Lemma covered_rebuild pathItem ents' :
  is_covered pathItem ->
  Forall2 (entry_left opts) (entries pathItem) ents' ->
  is_covered (rebuild pathItem ents').
Proof.
  intros Hp Hents.
  assert (Hch : forall y, In y (map snd ents') -> is_covered y).
  { intros y Hy. apply in_map_iff in Hy as [e' [<- He']].
    destruct (Forall2_In_r _ _ _ _ _ _ Hents He') as [e [He Hl]].
    apply (entry_left_covered e e' Hl).
    apply (covered_values pathItem); auto. unfold values_of.
    apply in_map_iff. eauto. }
  destruct pathItem as [| | | |id l|id fs]; simpl; auto.
  - apply covered_scalar; [discriminate|].
    intros x Hx. rewrite values_of_arr in Hx. auto.
  - intros n Hn. inversion Hn as [|v' y Hy Hw]; subst.
    + intros t x Hm. apply (Hp (VObj id fs) (within_refl _)).
      inversion Hm; subst; simpl in *.
      * rewrite (entry_left_assoc fs ents' "$ref" Hents eq_refl) in *.
        eapply mentions_ref; eauto.
      * rewrite (entry_left_assoc fs ents' "security" Hents eq_refl) in *.
        eapply mentions_security; eauto.
      * rewrite (entry_left_assoc fs ents' "x-responseDTO" Hents eq_refl) in *.
        eapply mentions_dto; eauto.
    + apply (Hch y Hy). exact Hw.
Qed.

Lemma sound_add_used t x st : is_sound st -> reached t x -> is_sound (add_used t x st).
Proof.
  intros Hs Hr t' y Hy. apply In_add_used in Hy as [Hy|[-> ->]]; auto.
Qed.

Lemma sound_collect v :
  is_covered v ->
  triple (entering is_sound v) (collect URL spec (Some v)) (fun _ => is_sound) is_sound True.
Proof.
  intros Hv. unfold collect.
  apply collectReferences_keeps with (V := is_covered); auto.
  - apply covered_get.
  - apply covered_values.
  - intros obj k st Hobj Hm Hs. apply sound_add_used; auto.
    apply (Hobj obj (within_refl _)). exact Hm.
  - intros obj t x st Hobj Hm Hs _.
    assert (Hr : reached t x) by (apply (Hobj obj (within_refl _)); exact Hm).
    pose proof (sound_add_used t x st Hs Hr) as Hs'.
    destruct (find_component spec t x) as [[c|]|] eqn:Hc; auto.
    destruct (truthy (Some c)); auto. split.
    + eapply covered_component; eauto.
    + apply entering_intro; auto.
Qed.

Lemma sound_initial : is_sound (initial_state spec opts).
Proof.
  intros t x Hx. simpl in Hx. apply In_set_of_strings in Hx as (name & -> & Hn).
  now apply Reached_always.
Qed.

(** Every name in a reachable set is reached, at every point of the pass. *)
Lemma filterOpenAPI_sound :
  match filterOpenAPI URL RegExp spec opts with
  | Ok _ st => is_sound st
  | _ => True
  end.
Proof.
  unfold filterOpenAPI.
  destruct (compile_pattern RegExp opts) as [pathRegex|] eqn:Hpat.
  2:{ unfold filter_body, bind, gets. simpl.
      destruct (deep_copy_fields spec (first_free spec)). simpl. now rewrite Hpat. }
  assert (H : triple (fun st => is_sound st /\ next_id st = first_free spec)
                (filter_body URL RegExp spec opts)
                (fun _ st => is_sound st) (fun _ => True) True).
  { eapply triple_weaken;
      [apply filter_body_keeps with
         (I := is_sound) (V := is_covered) (Pre := entering is_sound) (F := True)
         (pathRegex := pathRegex)
      | | | | ]; try solve [auto].
    - intros v st Hs. apply entering_intro; auto.
    - apply sound_collect.
    - intros w path pathItem p Hin Hsel Hg Ht.
      apply covered_root. eapply root_parameters; eauto.
    - intros path pathItem method op op' Hin Hsel Hop Hm Hs Hd.
      apply (covered_deduped op); auto.
      apply (covered_values pathItem).
      + apply covered_root. eapply root_item; eauto.
        apply existsb_exists. exists (method, op). split; auto.
        now rewrite retained_entry_pair, Hm, Hs.
      + unfold values_of. apply in_map_iff. exists (method, op). auto.
    - intros path pathItem ents' Hin Hsel Hret Hents.
      apply covered_rebuild; auto.
      apply covered_root. eapply root_item; eauto.
    - intros w s Hs Ht. apply covered_root. eapply root_security; eauto.
    - intros name c st Hn Hc Ht Hs.
      assert (Hr : reached schemas (Some (VStr name))) by (eapply Reached_error; eauto).
      split.
      + eapply covered_component; eauto.
      + apply entering_intro; auto. now apply sound_add_used.
    - intros t x c st Hs Hx Hc Ht. eapply covered_component; eauto.
    - intros r Hr. rewrite Hpat in Hr. now inversion Hr.
    - intros a st [Hs _]. exact Hs. }
  specialize (H (initial_state spec opts) (conj sound_initial eq_refl)).
  destruct (filter_body URL RegExp spec opts (initial_state spec opts)); auto.
Qed.

End Soundness.

Lemma falsy_copy_get spec k v name x :
  assoc k (working_copy spec) = Some v ->
  (forall c, assoc k spec = Some c -> truthy (Some c) = false) ->
  get v name = Some x ->
  exists r, x = VNum r.
Proof.
  intros Hv Hfalsy Hg.
  pose proof (assoc_working_copy k spec) as He. rewrite Hv in He.
  destruct (assoc k spec) as [c|] eqn:Hc; [|discriminate].
  specialize (Hfalsy c eq_refl). simpl in He. inversion He as [Hce]. clear He.
  destruct v; try (simpl in Hg; discriminate);
    destruct c; simpl in Hfalsy; try discriminate; simpl in Hce;
    try discriminate; try (destruct (non_finite repr); discriminate).
  inversion Hce; subst.
  destruct (String.eqb s0 "") eqn:E; [|discriminate].
  apply String.eqb_eq in E; subst s0.
  simpl in Hg.
  destruct (index_of_string name) as [[|n]|]; try discriminate.
  destruct (String.eqb name "length"); [|discriminate]. inversion Hg. eauto.
Qed.

Lemma clean_empty_fields_components_inv X v :
  assoc "components" (clean_empty_fields X) = Some v -> assoc "components" X = Some v.
Proof.
  unfold clean_empty_fields. simpl.
  rewrite !assoc_clean_field_other by discriminate.
  unfold clean_field. destruct (assoc "components" X) as [w|] eqn:Hw; [|congruence].
  destruct (truthy (Some w) && Nat.eqb (length (keys_of w)) 0); [|congruence].
  rewrite assoc_delete_field_same. discriminate.
Qed.

(** A component of the output: its name is in the reachable set of its
    category, and its definition is the one of the source. *)
Lemma output_component URL RegExp spec opts out spec' st comps t cat name c :
  filterOpenAPI URL RegExp spec opts = Ok (out, spec') st ->
  assoc "components" out = Some comps ->
  get comps (type_name t) = Some cat ->
  get cat name = Some c ->
  set_has (Some (VStr name)) (usedComponents st t) = true /\
  exists srcComps srcCat,
    assoc "components" spec = Some srcComps /\
    get srcComps (type_name t) = Some srcCat /\
    In (name, c) (entries srcCat).
Proof.
  intros Hrun Hcomps Hcat Hc.
  apply filterOpenAPI_assembled in Hrun
    as (pathRegex & _ & pid & acc & X1 & X2 & _ & H1 & H2 & ->).
  pose proof (clean_empty_fields_components_inv _ _ Hcomps) as HX2.
  rewrite (assoc_with_tags "components" _ _ _ _ _ ltac:(discriminate) H2) in HX2.
  rewrite assoc_with_security_schemes in HX2 by discriminate.
  unfold with_components in H1.
  destruct (assoc "components" spec) as [src|] eqn:Hsrc.
  2:{ subst X1. rewrite assoc_set_field_other in HX2 by discriminate.
      pose proof (assoc_working_copy "components" spec) as He.
      rewrite HX2, Hsrc in He. discriminate. }
  destruct (truthy (Some src)) eqn:Hts.
  2:{ subst X1. rewrite assoc_set_field_other in HX2 by discriminate.
      assert (Hf : forall c0, assoc "components" spec = Some c0 -> truthy (Some c0) = false)
        by (intros c0 Hc0; congruence).
      destruct (falsy_copy_get spec "components" comps (type_name t) cat HX2 Hf Hcat) as [r ->].
      simpl in Hc. discriminate. }
  destruct H1 as (id & fc & [Hfc _] & ->).
  rewrite assoc_set_field_same in HX2. inversion HX2; subst comps. clear HX2.
  simpl in Hcat. specialize (Hfc t). unfold category_inv in Hfc.
  destruct (get src (type_name t)) as [x|] eqn:Hx; [|congruence].
  destruct (truthy (Some x)) eqn:Htx; [|congruence].
  destruct Hfc as (kept & Hkept & Hfrom).
  destruct (from_entries kept) as [|e o] eqn:Ho; [congruence|].
  rewrite <- Ho in Hfrom. clear Ho.
  destruct Hfrom as [cid Hcid]. rewrite Hcid in Hcat. inversion Hcat; subst cat.
  cbn [get] in Hc. apply assoc_from_entries_In in Hc.
  destruct (filter_opt_incl _ _ _ _ _ Hkept Hc) as [Hin Hkeep].
  split.
  - unfold keep_component in Hkeep. simpl in Hkeep.
    destruct (set_has (Some (VStr name)) (usedComponents st t)); auto. discriminate.
  - exists src, x. auto.
Qed.


(** X21. A component of the output is defined by the source under its
    category, and its name is in [alwaysIncludeComponents], or is a
    conventional error schema the source defines, or is mentioned (by a
    reference the scan follows, a security requirement or a response-DTO
    hint) by an object inside something the pass scans: the path-level
    parameters of a path the pattern selects, a selected path item with at
    least one retained operation (all of it), the root-level security list
    of the copy, or the definition of a component so reached. *)
Theorem components_are_reached URL RegExp spec opts out spec' st comps t cat name c :
  filterOpenAPI URL RegExp spec opts = Ok (out, spec') st ->
  assoc "components" out = Some comps ->
  get comps (type_name t) = Some cat ->
  get cat name = Some c ->
  Reached URL spec opts (scan_root RegExp spec opts) t (Some (VStr name)) /\
  exists srcComps srcCat,
    assoc "components" spec = Some srcComps /\
    get srcComps (type_name t) = Some srcCat /\
    In (name, c) (entries srcCat).
Proof.
  intros Hrun Hcomps Hcat Hc.
  pose proof (filterOpenAPI_sound URL RegExp spec opts) as Hsound. rewrite Hrun in Hsound.
  destruct (output_component _ _ _ _ _ _ _ _ _ _ _ _ Hrun Hcomps Hcat Hc) as [Hset Hsrc].
  split; [|exact Hsrc].
  apply Hsound. now apply set_has_In_str.
Qed.

Lemma components_are_reached_witness :
  Reached Whatwg.URL_file Sample.users Sample.only_user
    (scan_root Whatwg.RegExp_none Sample.users Sample.only_user)
    schemas (Some (VStr "Bar")) /\
  exists srcComps srcCat,
    assoc "components" Sample.users = Some srcComps /\
    get srcComps "schemas" = Some srcCat /\
    In ("Bar", VObj 18 []) (entries srcCat).
Proof.
  destruct (filterOpenAPI Whatwg.URL_file Whatwg.RegExp_none Sample.users Sample.only_user)
    as [[out spec'] st|e st|] eqn:E.
  - pose proof (f_equal (fun r => match r with Ok (o, _) _ => o | _ => [] end) E) as Hout.
    vm_compute in Hout.
    apply (components_are_reached _ _ _ _ out spec' st
             (VObj 46
                [("schemas",
                  VObj 47
                    [("Error", VObj 17 [("x-responseDTO", VStr "Bar")]);
                     ("Bar", VObj 18 [])])])
             schemas
             (VObj 47
                [("Error", VObj 17 [("x-responseDTO", VStr "Bar")]);
                 ("Bar", VObj 18 [])])
             "Bar" (VObj 18 []) E).
    + rewrite <- Hout. reflexivity.
    + reflexivity.
    + reflexivity.
  - vm_compute in E. discriminate.
  - vm_compute in E. discriminate.
Defined.

(** C2 (defect). Every operation of the path [/admin] of
    [SampleShared.spec] is dropped by the tag filter, and the path with
    them; yet the schema [Foo], which only the path-level parameters of that
    path mention, is in the output: the parameters are scanned before the
    operations are looked at.  [Foo] is not reached from a retained
    operation, the root-level security list, an error schema or an
    always-included name. *)
Theorem unreachable_component_kept :
  Sample.output (Sample.run SampleShared.spec Sample.only_user)
  = Some
      [("paths", JObj []);
       ("components", JObj [("schemas", JObj [("Foo", JObj [])])])] /\
  ~ Reached Whatwg.URL_file SampleShared.spec Sample.only_user
      (claimed_root Whatwg.RegExp_none SampleShared.spec Sample.only_user)
      schemas (Some (VStr "Foo")).
Proof.
  split; [vm_compute; reflexivity|].
  intros Hr. revert Hr. generalize schemas, (Some (VStr "Foo")).
  apply (@Reached_min Whatwg.URL_file SampleShared.spec Sample.only_user
           (claimed_root Whatwg.RegExp_none SampleShared.spec Sample.only_user)
           (fun _ _ => False) (fun _ => False)); auto.
  - intros name c Hn Hc _. simpl in Hn.
    repeat (destruct Hn as [<-|Hn]; [vm_compute in Hc; discriminate|]). contradiction.
  - intros r n Hroot _. inversion Hroot as [pathRegex path pathItem method op _ Hin _ Hop Hret|w s Hs _]; subst.
    + simpl in Hin. destruct Hin as [Hin|[]]. inversion Hin; subst.
      simpl in Hop. destruct Hop as [Hop|[Hop|[]]]; inversion Hop; subst;
        vm_compute in Hret; discriminate.
    + vm_compute in Hs. discriminate.
Qed.

(** ** Every tracked component is scanned once *)

Lemma triple_conj (A : Type) (P1 P2 : state -> Prop) (m : M A)
      (Q1 Q2 : A -> state -> Prop) (E1 E2 : state -> Prop) F :
  triple P1 m Q1 E1 F -> triple P2 m Q2 E2 F ->
  triple (fun st => P1 st /\ P2 st) m
         (fun a st => Q1 a st /\ Q2 a st) (fun st => E1 st /\ E2 st) F.
Proof.
  intros H1 H2 st [HP1 HP2]. specialize (H1 st HP1). specialize (H2 st HP2).
  destruct (m st); auto.
Qed.

Lemma seen_mark_seen id id' st : seen id st = true -> seen id (mark_seen id' st) = true.
Proof. unfold seen. simpl. intros ->. apply orb_true_r. Qed.

Lemma seen_mark_seen_same id st : seen id (mark_seen id st) = true.
Proof. unfold seen. simpl. now rewrite Nat.eqb_refl. Qed.

Lemma entered_mark_seen c id st : entered c st -> entered c (mark_seen id st).
Proof.
  unfold entered. destruct (container_id c); auto. apply seen_mark_seen.
Qed.

Lemma falsy_not_container c : truthy (Some c) = false -> container_id c = None.
Proof. destruct c; simpl; auto; discriminate. Qed.

Lemma entered_falsy c st : truthy (Some c) = false -> entered c st.
Proof. intros H. unfold entered. now rewrite (falsy_not_container c H). Qed.

Lemma scanned_inv_impl spec (P P' : component_type -> jsval -> Prop) st :
  (forall t x, P t x -> P' t x) -> scanned_inv spec P st -> scanned_inv spec P' st.
Proof.
  intros HP H t x c Hx Hc. destruct (H t x c Hx Hc); auto.
Qed.

Lemma scanned_mark spec P id st : scanned_inv spec P st -> scanned_inv spec P (mark_seen id st).
Proof.
  intros H t x c Hx Hc. destruct (H t x c Hx Hc); auto.
  right. now apply entered_mark_seen.
Qed.

(** A name added to a set, with its definition entered or excused. *)
Lemma scanned_add spec P t x st :
  scanned_inv spec P st ->
  (forall c, find_component spec t x = Some (Some c) -> P t x \/ entered c st) ->
  scanned_inv spec P (add_used t x st).
Proof.
  intros H Hnew t' x' c Hx Hc.
  apply In_add_used in Hx as [Hx|[-> ->]].
  - apply (H t' x' c Hx Hc).
  - apply (Hnew c Hc).
Qed.

(** A name that loses its excuse as its definition is entered. *)
Lemma scanned_enter spec (P : component_type -> jsval -> Prop) t x c st :
  scanned_inv spec (fun t' x' => P t' x' \/ (t' = t /\ x' = x)) st ->
  find_component spec t x = Some (Some c) ->
  entering (scanned_inv spec P) c st.
Proof.
  intros H Hc.
  assert (G : forall st', (forall c', entered c' st -> entered c' st') ->
                          usedComponents st' = usedComponents st ->
                          entered c st' -> scanned_inv spec P st').
  { intros st' Hmono Hu He t' x' c' Hx Hc'. rewrite Hu in Hx.
    destruct (H t' x' c' Hx Hc') as [[Hp|[-> ->]]|Hent]; auto.
    rewrite Hc in Hc'. inversion Hc'; subst c'. auto. }
  destruct c; simpl; try (apply G; auto; exact Logic.I).
  - destruct (seen id st) eqn:Hs.
    + apply G; auto.
    + apply G; auto.
      * intros c'. apply entered_mark_seen.
      * apply seen_mark_seen_same.
  - destruct (seen id st) eqn:Hs.
    + apply G; auto.
    + apply G; auto.
      * intros c'. apply entered_mark_seen.
      * apply seen_mark_seen_same.
Qed.

(** A scan keeps the definitions of the tracked names entered. *)
Lemma collect_scanned URL spec (P : component_type -> jsval -> Prop) v :
  (forall x, P securitySchemes x) ->
  triple (entering (scanned_inv spec P) v) (collect URL spec (Some v))
         (fun _ => scanned_inv spec P) (scanned_inv spec P) True.
Proof.
  intros Hsec. unfold collect.
  apply collectReferences_keeps with (V := fun _ => True); auto.
  - intros id st H _. now apply scanned_mark.
  - intros obj k st _ _ H. apply scanned_add; auto.
  - intros obj t x st _ _ H _.
    destruct (find_component spec t x) as [[c|]|] eqn:Hc.
    + destruct (truthy (Some c)) eqn:Ht.
      * split; auto. apply scanned_enter with (t := t) (x := x).
        -- apply scanned_add.
           ++ eapply scanned_inv_impl; [|exact H]. auto.
           ++ intros c' _. left. right. auto.
        -- exact Hc.
      * apply scanned_add; auto. intros c' Hc'. rewrite Hc in Hc'. inversion Hc'; subst c'.
        right. now apply entered_falsy.
    + apply scanned_add; auto. intros c' Hc'. congruence.
    + apply scanned_add; auto. intros c' Hc'. congruence.
Qed.

Lemma type_eq_or (t t' : component_type) : t = t' \/ t <> t'.
Proof. destruct t, t'; (now left) || (right; discriminate). Qed.

(** The names of one category, looked up in turn: each loses its excuse. *)
Lemma resolve_names_scanned URL spec (Q : component_type -> jsval -> Prop) t names :
  (forall x, Q securitySchemes x) ->
  forall hc,
    triple (scanned_inv spec (fun t' x => Q t' x \/ (t' = t /\ In x names)))
           (foldM (resolve_component URL spec t) names hc)
           (fun _ => scanned_inv spec Q) (fun _ => True) True.
Proof.
  intros Hsec. induction names as [|x0 r IH]; intros hc; simpl foldM.
  - apply triple_ret. intros st H. eapply scanned_inv_impl; [|exact H].
    simpl. intros t' x [Hq|[_ []]]; auto.
  - eapply triple_bind with
      (R := fun _ => scanned_inv spec (fun t' x => Q t' x \/ (t' = t /\ In x r))).
    2:{ intros hc'. apply IH. }
    unfold resolve_component.
    apply triple_bind_component_of; [|auto].
    intros c Hc.
    set (P' := fun (t' : component_type) (x : jsval) => Q t' x \/ (t' = t /\ In x r)).
    assert (Hdrop : forall st,
               scanned_inv spec (fun t' x => Q t' x \/ (t' = t /\ In x (x0 :: r))) st ->
               scanned_inv spec (fun t' x' => P' t' x' \/ (t' = t /\ x' = x0)) st).
    { intros st. apply scanned_inv_impl.
      intros t' x [Hq|[-> [<-|Hin]]]; unfold P'; auto. }
    destruct c as [c|].
    2:{ simpl. apply triple_ret. intros st H. apply Hdrop in H.
        intros t' x' c' Hx Hc'.
        destruct (H t' x' c' Hx Hc') as [[Hp|[-> ->]]|He]; auto. congruence. }
    destruct (truthy (Some c)) eqn:Ht.
    2:{ apply triple_ret. intros st H. apply Hdrop in H.
        intros t' x' c' Hx Hc'.
        destruct (H t' x' c' Hx Hc') as [[Hp|[-> ->]]|He]; auto.
        rewrite Hc in Hc'. inversion Hc'; subst. right. now apply entered_falsy. }
    eapply triple_bind with
      (R := fun _ st =>
              scanned_inv spec (fun t' x' => P' t' x' \/ (t' = t /\ x' = x0)) st).
    { apply triple_gets. intros st H. now apply Hdrop. }
    intros before. eapply triple_bind with (R := fun _ => scanned_inv spec P').
    { eapply triple_weaken; [apply (collect_scanned URL spec P' c)| | | |]; auto.
      - intros x. left. apply Hsec.
      - intros st H. eapply scanned_enter; eauto. }
    intros ?. eapply triple_bind with (R := fun _ => scanned_inv spec P').
    { apply triple_gets. auto. }
    intros size. apply triple_ret. auto.
Qed.

(** One category of a pass: its always-included names lose their excuse. *)
Lemma resolve_type_scanned URL spec opts pre hc t :
  triple (scanned_inv spec (excused opts pre)) (resolve_type URL spec hc t)
         (fun _ => scanned_inv spec (excused opts (pre ++ [t]))) (fun _ => True) True.
Proof.
  unfold resolve_type. apply triple_frame. intros st0 H0.
  eapply triple_bind with (R := fun names st => st = st0 /\ names = usedComponents st0 t).
  { apply triple_gets. intros st ->. auto. }
  intros names.
  eapply triple_weaken;
    [apply (resolve_names_scanned URL spec (excused opts (pre ++ [t])) t names)| | | |]; auto.
  - intros x. left. reflexivity.
  - intros st [-> ->]. intros t' x c Hx Hc.
    destruct (H0 t' x c Hx Hc) as [[Hs|[Hn Ha]]|He]; auto.
    + left. left. left. exact Hs.
    + destruct (type_eq_or t' t) as [->|Hne].
      * left. right. auto.
      * left. left. right. split; auto.
        intros Hin. apply in_app_or in Hin as [Hin|[Hin|[]]]; auto.
Qed.

(** What a scan leaves of the state it starts in: the sets grow at the end,
    the visited objects stay visited, and the object scanned is one. *)
Lemma collect_relates URL spec c st0 :
  match collect URL spec (Some c) st0 with
  | Ok _ st | Throw _ st =>
      (forall t, exists added, usedComponents st t = usedComponents st0 t ++ added) /\
      (forall id, seen id st0 = true -> seen id st = true) /\
      entered c st
  | OutOfFuel => True
  end.
Proof.
  set (I := fun st =>
              (forall t, exists added,
                  usedComponents st t = usedComponents st0 t ++ added) /\
              (forall id, seen id st0 = true -> seen id st = true) /\
              entered c st).
  assert (Hused : forall t x st, I st -> I (add_used t x st)).
  { intros t x st (Hu & Hs & He). split; [|auto].
    intros t'. destruct (Hu t') as [added Ha]. simpl.
    destruct (type_eqb t' t); [|eauto].
    unfold set_add. destruct (set_has x (usedComponents st t')); [eauto|].
    exists (added ++ [x]). now rewrite Ha, app_assoc. }
  assert (Hseen : forall id st, I st -> seen id st = false -> I (mark_seen id st)).
  { intros id st (Hu & Hs & He) _. split; [exact Hu|]. split.
    - intros id' Hid. apply seen_mark_seen; auto.
    - now apply entered_mark_seen. }
  assert (Hinit : entering I c st0).
  { assert (Hu : forall t, exists added,
                 usedComponents st0 t = usedComponents st0 t ++ added)
      by (intros t; exists []; now rewrite app_nil_r).
    unfold I, entered.
    destruct c; simpl; auto; destruct (seen id st0) eqn:E; auto;
      (split; [exact Hu|split; [|apply seen_mark_seen_same]]);
      intros id' Hid; apply seen_mark_seen; auto. }
  pose proof (collect_keeps_stable URL spec I Hused Hseen (fun _ st H => H) c st0 Hinit) as H.
  destruct (collect URL spec (Some c) st0) as [[] st|e st|]; auto.
Qed.

Lemma app_same_length (A : Type) (l added : list A) :
  length (l ++ added) <= length l -> added = [].
Proof.
  rewrite length_app. destruct added; auto. simpl. lia.
Qed.

(** One name of [securitySchemes] in the closure loop: unless it reports a
    change, the set is as it was, and the definition of the name is entered. *)
Lemma resolve_component_last URL spec hc x st0 :
  scanned_inv spec (fun t _ => t = securitySchemes) st0 ->
  match resolve_component URL spec securitySchemes hc x st0 with
  | Ok hc' st =>
      scanned_inv spec (fun t _ => t = securitySchemes) st /\
      (forall id, seen id st0 = true -> seen id st = true) /\
      (hc' = false ->
       hc = false /\
       usedComponents st securitySchemes = usedComponents st0 securitySchemes /\
       forall c, find_component spec securitySchemes x = Some (Some c) -> entered c st)
  | _ => True
  end.
Proof.
  intros H0. unfold resolve_component, bind, component_of, ret, gets, throw.
  destruct (find_component spec securitySchemes x) as [c|] eqn:Hc; [|exact Logic.I].
  cbv beta iota.
  destruct (truthy c) eqn:Ht.
  2:{ split; [auto|split; [auto|]]. intros Hhc. repeat split; auto.
      intros c' Hc'. inversion Hc'; subst c. now apply entered_falsy. }
  destruct c as [c|]; [|discriminate].
  pose proof (collect_scanned URL spec (fun t _ => t = securitySchemes) c
                (fun _ => eq_refl) st0) as Hd.
  pose proof (collect_relates URL spec c st0) as Hr.
  destruct (collect URL spec (Some c) st0) as [[] st|e st|]; auto.
  destruct Hr as (Hu & Hs & He). split.
  - apply Hd. apply entering_intro; auto. intros id st' H _. now apply scanned_mark.
  - split; auto. intros Hhc.
    destruct (Nat.ltb (length (usedComponents st0 securitySchemes))
                      (length (usedComponents st securitySchemes))) eqn:Hlt;
      [discriminate|].
    apply Nat.ltb_ge in Hlt. split; auto.
    destruct (Hu securitySchemes) as [added Ha]. rewrite Ha in Hlt.
    apply app_same_length in Hlt. subst added. rewrite app_nil_r in Ha. split; auto.
    intros c' Hc'. inversion Hc'; subst c'. exact He.
Qed.

Lemma entered_mono c st st' :
  (forall id, seen id st = true -> seen id st' = true) -> entered c st -> entered c st'.
Proof. unfold entered. intros H. destruct (container_id c); auto. Qed.

(** The names of [securitySchemes], looked up in turn. *)
Lemma resolve_names_last URL spec names :
  forall hc st0,
    scanned_inv spec (fun t _ => t = securitySchemes) st0 ->
    match foldM (resolve_component URL spec securitySchemes) names hc st0 with
    | Ok hc' st =>
        scanned_inv spec (fun t _ => t = securitySchemes) st /\
        (forall id, seen id st0 = true -> seen id st = true) /\
        (hc' = false ->
         hc = false /\
         usedComponents st securitySchemes = usedComponents st0 securitySchemes /\
         forall x c, In x names ->
                     find_component spec securitySchemes x = Some (Some c) -> entered c st)
    | _ => True
    end.
Proof.
  induction names as [|x r IH]; intros hc st0 H0; simpl.
  - unfold ret. split; [auto|split; [auto|]]. intros Hhc. repeat split; auto.
    intros x c [].
  - unfold bind.
    pose proof (resolve_component_last URL spec hc x st0 H0) as H1.
    destruct (resolve_component URL spec securitySchemes hc x st0) as [hc1 st1|e st1|]; auto.
    destruct H1 as (Hd1 & Hs1 & Hc1).
    specialize (IH hc1 st1 Hd1).
    destruct (foldM (resolve_component URL spec securitySchemes) r hc1 st1)
      as [hc2 st2|e st2|]; auto.
    destruct IH as (Hd2 & Hs2 & Hc2). split; auto. split; auto.
    intros Hhc. destruct (Hc2 Hhc) as (-> & Hu2 & He2).
    destruct (Hc1 eq_refl) as (-> & Hu1 & He1).
    split; auto. split; [congruence|].
    intros y c [<-|Hy] Hc; [|eauto].
    apply (entered_mono c st1 st2 Hs2). auto.
Qed.

(** The last category of a pass: unless a change is reported, no name of a
    reachable set is left with its definition to be entered. *)
Lemma resolve_type_last URL spec hc :
  triple (scanned_inv spec (fun t _ => t = securitySchemes))
         (resolve_type URL spec hc securitySchemes)
         (fun hc' st =>
            scanned_inv spec (fun t _ => t = securitySchemes) st /\
            (hc' = false -> scanned_inv spec (fun _ _ => False) st))
         (fun _ => True) True.
Proof.
  intros st0 H0. unfold resolve_type, bind, gets.
  pose proof (resolve_names_last URL spec (usedComponents st0 securitySchemes) hc st0 H0) as H.
  destruct (foldM (resolve_component URL spec securitySchemes)
              (usedComponents st0 securitySchemes) hc st0) as [hc' st|e st|]; auto.
  destruct H as (Hd & Hs & Hc). split; auto.
  intros Hhc. destruct (Hc Hhc) as (_ & Hu & He).
  intros t x c Hx Hfind. right.
  destruct (Hd t x c Hx Hfind) as [->|Hent]; auto.
  rewrite Hu in Hx. eauto.
Qed.

Lemma excused_all opts t x :
  excused opts [schemas; responses; parameters; examples; requestBodies; headers] t x ->
  t = securitySchemes.
Proof.
  intros [H|[H _]]; auto.
  destruct t; try reflexivity; exfalso; apply H; simpl; auto 10.
Qed.

(** One pass of the closure loop: unless it reports a change, every name of
    a reachable set has its definition entered. *)
Lemma resolve_pass_scanned URL spec opts :
  triple (scanned_inv spec (excused opts []))
         (resolve_pass URL spec)
         (fun hc st =>
            scanned_inv spec (excused opts []) st /\
            (hc = false -> scanned_inv spec (fun _ _ => False) st))
         (fun _ => True) True.
Proof.
  unfold resolve_pass, COMPONENT_TYPES. cbn [foldM].
  eapply triple_bind; [apply (resolve_type_scanned URL spec opts [] false schemas)|].
  intros hc1. cbn [app].
  eapply triple_bind; [apply (resolve_type_scanned URL spec opts _ hc1 responses)|].
  intros hc2. cbn [app].
  eapply triple_bind; [apply (resolve_type_scanned URL spec opts _ hc2 parameters)|].
  intros hc3. cbn [app].
  eapply triple_bind; [apply (resolve_type_scanned URL spec opts _ hc3 examples)|].
  intros hc4. cbn [app].
  eapply triple_bind; [apply (resolve_type_scanned URL spec opts _ hc4 requestBodies)|].
  intros hc5. cbn [app].
  eapply triple_bind; [apply (resolve_type_scanned URL spec opts _ hc5 headers)|].
  intros hc6. cbn [app].
  eapply triple_bind.
  { eapply triple_weaken; [apply (resolve_type_last URL spec hc6)| | | |]; auto.
    - intros st. apply scanned_inv_impl. apply excused_all.
    - intros a st H. exact H. }
  intros hc. apply triple_ret. intros st [Hd Hdone]. split; auto.
  eapply scanned_inv_impl; [|exact Hd]. intros t x ->. left. reflexivity.
Qed.

(** The closure loop ends with every definition entered. *)
Lemma resolve_scanned URL spec opts fuel :
  triple (scanned_inv spec (excused opts []))
         (resolve URL spec fuel)
         (fun _ => scanned_inv spec (fun _ _ => False))
         (fun _ => True) True.
Proof.
  induction fuel as [|f IH]; simpl.
  - intros st _. exact Logic.I.
  - eapply triple_bind; [apply resolve_pass_scanned|].
    intros [|].
    + eapply triple_weaken; [apply IH| | | |]; auto. intros st [H _]. exact H.
    + apply triple_ret. intros st [_ H]. auto.
Qed.

Lemma scanned_track spec (P : component_type -> jsval -> Prop) t x c st :
  scanned_inv spec P st ->
  find_component spec t x = Some (Some c) ->
  entering (scanned_inv spec P) c (add_used t x st).
Proof.
  intros H Hc. apply scanned_enter with (t := t) (x := x); [|exact Hc].
  apply scanned_add.
  - eapply scanned_inv_impl; [|exact H]. auto.
  - intros c' _. left. right. auto.
Qed.

(** The whole body ends with every definition entered. *)
Lemma filter_body_scanned URL RegExp spec opts :
  triple (fun st => scanned_inv spec (excused opts []) st /\ next_id st = first_free spec)
         (filter_body URL RegExp spec opts)
         (fun _ => scanned_inv spec (fun _ _ => False)) (fun _ => True) True.
Proof.
  set (D := scanned_inv spec (excused opts [])).
  set (Done := scanned_inv spec (fun _ _ => False)).
  assert (Hcollect : forall v, True ->
            triple (entering D v) (collect URL spec (Some v)) (fun _ => D) D True).
  { intros v _. apply collect_scanned. intros x. left. reflexivity. }
  assert (Hpre : forall v st, D st -> entering D v st).
  { intros v st H. apply entering_intro; auto. intros id st' H' _. now apply scanned_mark. }
  unfold filter_body.
  eapply triple_bind with (R := fun _ => D).
  { apply triple_gets. intros st [H _]. exact H. }
  intros n. destruct (deep_copy_fields spec n) as [copy n'].
  eapply triple_bind with (R := fun _ => D).
  { apply triple_modify. intros st H. exact H. }
  intros ?. eapply triple_bind with (R := fun _ => D).
  { apply triple_fresh. intros st H. exact H. }
  intros pid. cbv zeta.
  destruct (compile_pattern RegExp opts) as [r|].
  2:{ eapply triple_bind with (R := fun _ _ => False).
      - apply triple_throw. auto.
      - intros ? st []. }
  eapply triple_bind with (R := fun _ => D).
  { apply triple_ret. auto. }
  intros pathRegex. eapply triple_bind with (R := fun _ => D).
  { eapply triple_weaken;
      [apply (paths_loop_keeps URL RegExp spec opts D (fun _ => True) (entering D) True
                Hpre Hcollect (fun _ st H => H) (fun st H => H) pathRegex)
      | | | | ]; auto.
    intros a' st [H _]. exact H. }
  intros acc. eapply triple_bind with (R := fun _ => D).
  { match goal with |- context [truthy ?s] => destruct (truthy s) end.
    - eapply triple_bind with (R := fun _ => D).
      { apply triple_fresh. intros st H. exact H. }
      intros w. eapply triple_weaken;
        [apply (collect_keeps_top URL spec D (fun _ => True) (entering D) True Hpre Hcollect)
        | | | | ]; auto.
    - apply triple_ret. auto. }
  intros ?. eapply triple_bind with (R := fun _ => D).
  { eapply triple_weaken;
      [apply (force_errors_keeps URL spec D (fun _ => True) (entering D) True Hcollect)
      | | | | ]; auto.
    intros name c st _ Hc _ H. split; auto. now apply scanned_track. }
  intros ?. eapply triple_bind; [apply resolve_scanned|].
  intros ?. apply triple_frame. intros st0 H0.
  eapply triple_bind with (R := fun _ => Done).
  { eapply triple_weaken;
      [apply (filter_components_keeps spec opts Done True (fun st H => H) (usedComponents st0))
      | | | | ]; simpl; auto.
    - intros st ->. auto.
    - intros x st [[H _] _]. exact H. }
  intros X1. apply triple_frame. intros st1 H1.
  eapply triple_bind with (R := fun _ => Done).
  { eapply triple_weaken;
      [apply (filter_tags_keeps spec opts Done True (fun st H => H)
                (usedComponents st1) (usedTags st1))
      | | | | ]; simpl; auto.
    - intros st ->. auto.
    - intros x st [[H _] _]. exact H. }
  intros X2. apply triple_ret. auto.
Qed.

(** ** The scan log *)

Lemma same_value_zero_sym a b : same_value_zero a b = same_value_zero b a.
Proof.
  destruct a as [[]|], b as [[]|]; simpl; auto;
    try apply String.eqb_sym; try apply Nat.eqb_sym.
  destruct b, b0; reflexivity.
Qed.

Lemma same_value_zero_refl a : same_value_zero a a = true.
Proof.
  destruct a as [[]|]; simpl; auto;
    try apply String.eqb_refl; try apply Nat.eqb_refl.
  destruct b; reflexivity.
Qed.

Lemma distinct_snoc s x : distinct s -> set_has x s = false -> distinct (s ++ [x]).
Proof.
  induction s as [|y r IH]; simpl; intros H Hx.
  - auto.
  - destruct H as [Hy Hr]. apply orb_false_iff in Hx as [Hxy Hxr]. split; auto.
    unfold set_has. rewrite existsb_app. simpl.
    rewrite same_value_zero_sym, Hxy. fold (set_has y r). now rewrite Hy.
Qed.

Lemma distinct_set_add s x : distinct s -> distinct (set_add x s).
Proof.
  intros H. unfold set_add. destruct (set_has x s) eqn:E; auto.
  now apply distinct_snoc.
Qed.

Lemma distinct_set_of_strings names : distinct (set_of_strings names).
Proof.
  unfold set_of_strings.
  assert (G : forall acc, distinct acc ->
            distinct (fold_left (fun s n => set_add (Some (VStr n)) s) names acc)).
  { induction names as [|n r IH]; simpl; auto.
    intros acc H. apply IH. now apply distinct_set_add. }
  apply G. exact Logic.I.
Qed.

(** An element of a set is there once. *)
Lemma distinct_once s x :
  distinct s -> In x s -> length (filter (same_value_zero x) s) = 1.
Proof.
  induction s as [|y r IH]; simpl; intros H Hin; [contradiction|].
  destruct H as [Hy Hr].
  assert (Hnone : forall z, set_has z r = false -> filter (same_value_zero z) r = []).
  { clear. intros z. induction r as [|w r IH]; simpl; auto.
    intros H. apply orb_false_iff in H as [-> H]. auto. }
  destruct Hin as [->|Hin].
  - rewrite same_value_zero_refl. simpl. now rewrite (Hnone x Hy).
  - assert (E : same_value_zero x y = false).
    { rewrite same_value_zero_sym. unfold set_has in Hy.
      destruct (same_value_zero y x) eqn:E; auto.
      assert (existsb (same_value_zero y) r = true)
        by (apply existsb_exists; exists x; auto).
      congruence. }
    rewrite E. auto.
Qed.

Lemma seen_In id st : seen id st = true <-> In id (seenObjects st).
Proof.
  unfold seen. rewrite existsb_exists. split.
  - intros [y [Hy E]]. apply Nat.eqb_eq in E. now subst.
  - intros H. exists id. split; auto. apply Nat.eqb_refl.
Qed.

Lemma log_inv_used t x st : log_inv st -> log_inv (add_used t x st).
Proof.
  intros (Hn & Hi & Hd). repeat split; auto; try apply Hi.
  intros t'. simpl. destruct (type_eqb t' t); auto. now apply distinct_set_add.
Qed.

Lemma log_inv_seen id st : log_inv st -> seen id st = false -> log_inv (mark_seen id st).
Proof.
  intros (Hn & Hi & Hd) Hs.
  assert (Hnot : ~ In id (scans st)).
  { intros Ha. apply Hi in Ha. apply seen_In in Ha. congruence. }
  split; [|split; [|exact Hd]]; simpl.
  - apply NoDup_app; [exact Hn|repeat constructor; simpl; tauto|].
    intros a Ha [<-|[]]. contradiction.
  - intros a. rewrite in_app_iff, Hi. simpl. tauto.
Qed.

Lemma log_inv_initial spec opts : log_inv (initial_state spec opts).
Proof.
  split; [constructor|split; [simpl; tauto|]].
  intros t. apply distinct_set_of_strings.
Qed.

(** The log holds every object entered, once; the sets hold every name once. *)
Lemma filterOpenAPI_log URL RegExp spec opts :
  match filterOpenAPI URL RegExp spec opts with
  | Ok _ st | Throw _ st => log_inv st
  | OutOfFuel => False
  end.
Proof.
  pose proof (filterOpenAPI_keeps URL RegExp spec opts log_inv
                log_inv_used log_inv_seen
                (fun _ st H => H) (fun _ st H => H) (fun st H => H) (fun _ st H => H)
                (log_inv_initial spec opts)) as H.
  destruct (filterOpenAPI URL RegExp spec opts) as [r st|e st|]; tauto.
Qed.

Lemma scanned_initial spec opts :
  scanned_inv spec (excused opts []) (initial_state spec opts).
Proof.
  intros t x c Hx _. left. right. split; auto.
Qed.

(** X22. [filterOpenAPI] ends on every document, cyclic or not: the budget
    of the embedding is never exhausted.  When it returns, a name that is in
    a reachable set and that the source defines (a component that names
    itself, directly or through others, as any other) is in the set once,
    and its definition, if an object or array, has been scanned exactly
    once. *)
Theorem cycle_safety URL RegExp spec opts :
  filterOpenAPI URL RegExp spec opts <> OutOfFuel /\
  forall r st t x c,
    filterOpenAPI URL RegExp spec opts = Ok r st ->
    In x (usedComponents st t) ->
    find_component spec t x = Some (Some c) ->
    length (filter (same_value_zero x) (usedComponents st t)) = 1 /\
    forall id, container_id c = Some id -> count_occ Nat.eq_dec (scans st) id = 1.
Proof.
  split; [apply filterOpenAPI_total|].
  intros r st t x c Hrun Hx Hc.
  pose proof (filterOpenAPI_log URL RegExp spec opts) as Hlog.
  rewrite Hrun in Hlog. destruct Hlog as (Hn & Hi & Hd).
  split; [apply distinct_once; auto|].
  intros id Hid.
  pose proof (filter_body_scanned URL RegExp spec opts (initial_state spec opts)
                (conj (scanned_initial spec opts) eq_refl)) as Hs.
  unfold filterOpenAPI in Hrun. rewrite Hrun in Hs.
  destruct (Hs t x c Hx Hc) as [[]|He].
  unfold entered in He. rewrite Hid in He.
  apply seen_In, Hi in He.
  now apply NoDup_count_occ'.
Qed.

Lemma cycle_safety_witness :
  exists r st,
    filterOpenAPI Whatwg.URL_file Whatwg.RegExp_none SampleCycle.spec Sample.defaults
    = Ok r st /\
    usedComponents st schemas = [Some (VStr "A"); Some (VStr "B")] /\
    length (filter (same_value_zero (Some (VStr "A"))) (usedComponents st schemas)) = 1 /\
    count_occ Nat.eq_dec (scans st) 6 = 1.
Proof.
  destruct (filterOpenAPI Whatwg.URL_file Whatwg.RegExp_none SampleCycle.spec Sample.defaults)
    as [r st|e st|] eqn:E.
  - assert (Hu : usedComponents st schemas = [Some (VStr "A"); Some (VStr "B")]).
    { change (match Ok r st with
              | Ok _ s => usedComponents s schemas
              | _ => []
              end = [Some (VStr "A"); Some (VStr "B")]).
      rewrite <- E. vm_compute. reflexivity. }
    destruct (proj2 (cycle_safety Whatwg.URL_file Whatwg.RegExp_none
                       SampleCycle.spec Sample.defaults)
                r st schemas (Some (VStr "A")) (VObj 6 [("x-responseDTO", VStr "B")]) E)
      as [Hone Hscan].
    + rewrite Hu. simpl. auto.
    + reflexivity.
    + exists r, st. repeat split; auto.
  - vm_compute in E. discriminate.
  - vm_compute in E. discriminate.
Defined.

(** C4 (defect). In [SampleRefCycle.spec] the response of the retained
    operation refers to the schema [A], and [A] and [B] refer to each other,
    all by [$ref].  The pass ends, but no name is added to the reachable set
    of [schemas] and neither definition (the objects 11 and 14) is scanned:
    the test of the pathname against ["/components"] fails for every such
    reference, as in C1.  The output keeps the reference and has no
    [components]. *)
Theorem reference_cycle_not_scanned :
  scan_report (Sample.run SampleRefCycle.spec Sample.defaults)
  = Some
      ([("paths",
         JObj
           [("/a",
             JObj
               [("get",
                 JObj
                   [("responses",
                     JObj
                       [("200",
                         JObj
                           [("content",
                             JObj
                               [("application/json",
                                 JObj
                                   [("schema",
                                     JObj
                                       [("$ref",
                                         JStr "#/components/schemas/A")])])])])])])])])],
       [], [3; 4; 5; 8; 6; 7; 2]).
Proof. vm_compute. reflexivity. Qed.

(** ** Filtering the output again *)

Lemma keys_set_field (A : Type) k (v : A) l k' :
  In k' (map fst (set_field k v l)) <-> k' = k \/ In k' (map fst l).
Proof.
  induction l as [|[k0 v0] r IH]; simpl.
  - intuition.
  - destruct (String.eqb k k0) eqn:E; simpl.
    + apply String.eqb_eq in E. subst k0. intuition.
    + rewrite IH. intuition.
Qed.

Lemma NoDup_set_field (A : Type) k (v : A) l :
  NoDup (map fst l) -> NoDup (map fst (set_field k v l)).
Proof.
  induction l as [|[k0 v0] r IH]; simpl; intros H.
  - repeat constructor. simpl. tauto.
  - inversion H as [|? ? Hnot Hr]; subst.
    destruct (String.eqb k k0) eqn:E; simpl.
    + apply String.eqb_eq in E. subst k0. constructor; auto.
    + constructor; auto. rewrite keys_set_field. intros [->|Hin]; auto.
      now rewrite String.eqb_refl in E.
Qed.

Lemma set_field_fresh (A : Type) k (v : A) l :
  ~ In k (map fst l) -> set_field k v l = l ++ [(k, v)].
Proof.
  induction l as [|[k0 v0] r IH]; simpl; intros H; auto.
  destruct (String.eqb k k0) eqn:E.
  - apply String.eqb_eq in E. subst k0. tauto.
  - rewrite IH; auto.
Qed.

Lemma fold_assign_keys l :
  forall acc,
    NoDup (map fst acc) -> ~ In "__proto__" (map fst acc) ->
    let o := fold_left (fun o e => js_assign (fst e) (snd e) o) l acc in
    NoDup (map fst o) /\ ~ In "__proto__" (map fst o) /\
    (forall k, In k (map fst acc) -> In k (map fst o)) /\
    (forall k, In k (map fst l) -> k <> "__proto__" -> In k (map fst o)).
Proof.
  induction l as [|[k v] r IH]; intros acc Hnd Hp; simpl.
  - repeat split; auto. intros k [].
  - assert (Hnd' : NoDup (map fst (js_assign k v acc))).
    { unfold js_assign. destruct (String.eqb k "__proto__"); auto.
      now apply NoDup_set_field. }
    assert (Hp' : ~ In "__proto__" (map fst (js_assign k v acc))).
    { unfold js_assign. destruct (String.eqb k "__proto__") eqn:E; auto.
      rewrite keys_set_field. intros [<-|Hin]; auto. discriminate. }
    destruct (IH (js_assign k v acc) Hnd' Hp') as (H1 & H2 & H3 & H4).
    repeat split; auto.
    + intros k' Hk'. apply H3. unfold js_assign.
      destruct (String.eqb k "__proto__"); auto. rewrite keys_set_field. auto.
    + intros k' [<-|Hk'] Hne; [|auto].
      apply H3. unfold js_assign. simpl.
      destruct (String.eqb k "__proto__") eqn:E.
      * apply String.eqb_eq in E. contradiction.
      * rewrite keys_set_field. auto.
Qed.

Lemma assign_all_keys l :
  NoDup (map fst (assign_all l)) /\ ~ In "__proto__" (map fst (assign_all l)).
Proof.
  destruct (fold_assign_keys l [] (NoDup_nil _) (fun H => H)) as (H1 & H2 & _).
  split; assumption.
Qed.

Lemma assign_all_has_key l k :
  In k (map fst l) -> k <> "__proto__" -> In k (map fst (assign_all l)).
Proof.
  destruct (fold_assign_keys l [] (NoDup_nil _) (fun H => H)) as (_ & _ & _ & H).
  apply H.
Qed.

(** Assignments of distinct keys leave the entries in order. *)
Lemma assign_all_id l :
  NoDup (map fst l) -> ~ In "__proto__" (map fst l) -> assign_all l = l.
Proof.
  unfold assign_all.
  assert (G : forall acc,
            NoDup (map fst (acc ++ l)) -> ~ In "__proto__" (map fst l) ->
            fold_left (fun o e => js_assign (fst e) (snd e) o) l acc = acc ++ l).
  { induction l as [|[k v] r IH]; intros acc Hnd Hp; simpl.
    - now rewrite app_nil_r.
    - simpl in Hp. unfold js_assign at 2. simpl.
      destruct (String.eqb k "__proto__") eqn:E.
      { apply String.eqb_eq in E. subst k. tauto. }
      rewrite set_field_fresh.
      + rewrite IH.
        * now rewrite <- app_assoc.
        * now rewrite <- app_assoc.
        * tauto.
      + rewrite map_app in Hnd. simpl in Hnd.
        apply NoDup_remove_2 in Hnd. intros Hin. apply Hnd.
        apply in_or_app. now left. }
  intros Hnd Hp. apply (G [] Hnd Hp).
Qed.

Lemma entry_left_retained opts e e' :
  entry_left opts e e' -> retained_entry opts e' = retained_entry opts e.
Proof.
  intros [Hk Hv]. unfold retained_entry in *. rewrite Hk.
  destruct (string_in (fst e) HTTP_METHODS); simpl in *; auto.
  destruct (is_true (should_include opts (snd e))) eqn:Hs.
  - now rewrite (deduped_should_include opts _ _ Hv).
  - now rewrite Hv.
Qed.

Lemma entry_left_kept opts e e' :
  entry_left opts e e' -> kept_entry opts e' = kept_entry opts e.
Proof.
  intros H. unfold kept_entry. rewrite (entry_left_retained opts e e' H).
  destruct H as [-> _]. reflexivity.
Qed.

(** What the de-duplication returns it leaves as it is. *)
Lemma unique_params_fixed l :
  forall sp u, unique_params l sp = Some u -> unique_params u sp = Some u.
Proof.
  induction l as [|p r IH]; intros sp u H; simpl in H.
  - inversion H. reflexivity.
  - destruct (param_key p) as [k|] eqn:Hk; [|discriminate].
    destruct (string_in k sp) eqn:Hin; [now apply IH|].
    destruct (unique_params r (sp ++ [k])) as [u'|] eqn:Hu; [|discriminate].
    inversion H; subst u. simpl. rewrite Hk, Hin, (IH _ _ Hu). reflexivity.
Qed.

Lemma deduped_settled op op' : deduped op op' -> truthy (get op "parameters") = true -> settled op'.
Proof.
  intros [[Hf ->]|(i & l & id & u & Hg & Hu & ->)] Ht; [congruence|].
  right. exists id, u. split; [|now apply unique_params_fixed with (l := l)].
  destruct op; try (vm_compute in Hg; discriminate).
  simpl. apply assoc_set_field_same.
Qed.

Lemma entry_left_settled opts e e' :
  entry_left opts e e' -> retained_entry opts e = true -> settled (snd e').
Proof.
  intros [_ Hv] Hr. rewrite Hr in Hv.
  destruct (truthy (get (snd e) "parameters")) eqn:Ht.
  - now apply deduped_settled with (op := snd e).
  - destruct Hv as [[_ ->]|(i & l & id & u & Hg & _)].
    + now left.
    + rewrite Hg in Ht. discriminate.
Qed.

Lemma erase_fields_set_field k v v0 fs :
  assoc k fs = Some v0 -> erase v = erase v0 ->
  erase_fields (set_field k v fs) = erase_fields fs.
Proof.
  induction fs as [|[k0 x] r IH]; simpl; intros H He; [discriminate|].
  destruct (String.eqb k k0) eqn:E.
  - apply String.eqb_eq in E. subst k0. inversion H; subst v0.
    simpl. now rewrite He.
  - simpl. f_equal. now apply IH.
Qed.

(** De-duplication leaves a settled operation as it is, as JSON. *)
Lemma deduped_erase op op' : deduped op op' -> settled op -> erase op' = erase op.
Proof.
  intros [[_ ->]|(i & l & id & u & Hg & Hu & ->)] Hs; auto.
  destruct Hs as [Hf|(i' & u' & Hg' & Hu')].
  - rewrite Hg in Hf. discriminate.
  - rewrite Hg in Hg'. inversion Hg'; subst i' u'. rewrite Hu in Hu'.
    inversion Hu'; subst u.
    destruct op; try (vm_compute in Hg; discriminate).
    simpl in Hg. simpl. f_equal. fold (erase_fields (set_field "parameters" (VArr id l) fields)).
    fold (erase_fields fields).
    apply erase_fields_set_field with (v0 := VArr i l); auto.
Qed.

Lemma Forall2_In_l (A B : Type) (R : A -> B -> Prop) l l' x :
  Forall2 R l l' -> In x l -> exists y, In y l' /\ R x y.
Proof.
  induction 1 as [|a b r r' Hab Hr IH]; intros Hin; [contradiction|].
  destruct Hin as [->|Hin].
  - exists b. split; auto. now left.
  - destruct (IH Hin) as (y & Hy & Hxy). exists y. split; auto. now right.
Qed.

Lemma filter_all (A : Type) (f : A -> bool) l :
  (forall x, In x l -> f x = true) -> filter f l = l.
Proof.
  induction l as [|x r IH]; simpl; intros H; auto.
  rewrite (H x (or_introl eq_refl)). f_equal. apply IH. intros y Hy. apply H. now right.
Qed.

Lemma method_not_proto k : string_in k HTTP_METHODS = true -> k <> "__proto__".
Proof. intros H ->. vm_compute in H. discriminate. Qed.

Lemma kept_method_retained opts e :
  kept_entry opts e = true -> string_in (fst e) HTTP_METHODS = true ->
  retained_entry opts e = true.
Proof.
  unfold kept_entry. intros H Hm. rewrite Hm in H. exact H.
Qed.

Lemma retained_method opts e :
  retained_entry opts e = true -> string_in (fst e) HTTP_METHODS = true.
Proof. unfold retained_entry. intros H. now apply andb_true_iff in H as [H _]. Qed.

Lemma retained_kept opts e : retained_entry opts e = true -> kept_entry opts e = true.
Proof. unfold kept_entry. intros ->. apply orb_true_r. Qed.

(** A path item of the output is one the paths loop leaves as it is. *)
Lemma item_stable opts fs ents' :
  existsb (retained_entry opts) fs = true ->
  Forall2 (entry_left opts) fs ents' ->
  stable_item opts (assign_all (filter (kept_entry opts) ents')).
Proof.
  intros Hex Hents.
  destruct (assign_all_keys (filter (kept_entry opts) ents')) as [Hnd Hp].
  split; [exact Hnd|]. split; [exact Hp|]. split.
  - apply existsb_exists in Hex as (e & He & Hr).
    destruct (Forall2_In_l _ _ _ _ _ e Hents He) as (e' & He' & Hleft).
    assert (Hr' : retained_entry opts e' = true)
      by (now rewrite (entry_left_retained opts e e' Hleft)).
    assert (Hkey : In (fst e') (map fst (assign_all (filter (kept_entry opts) ents')))).
    { apply assign_all_has_key.
      - apply in_map. apply filter_In. split; auto. now apply retained_kept.
      - apply method_not_proto. now apply retained_method with (opts := opts). }
    apply in_map_iff in Hkey as (e'' & Hfst & Hin).
    apply existsb_exists. exists e''. split; auto.
    pose proof (In_assign_all _ _ Hin) as Hin'. apply filter_In in Hin' as [_ Hk].
    apply kept_method_retained; auto. rewrite Hfst.
    now apply retained_method with (opts := opts).
  - intros e Hin. apply In_assign_all in Hin. apply filter_In in Hin as [Hin Hk].
    split; auto. intros Hr.
    destruct (Forall2_In_r _ _ _ _ _ _ Hents Hin) as (e0 & He0 & Hleft).
    apply (entry_left_settled opts e0 e Hleft).
    now rewrite <- (entry_left_retained opts e0 e Hleft).
Qed.

(** The paths of the output are paths the loop leaves as they are. *)
Lemma paths_stable opts pathRegex ents ks :
  Forall2 (path_left opts pathRegex) ents ks ->
  stable_paths opts pathRegex (assign_all (concat ks)).
Proof.
  intros Hks. destruct (assign_all_keys (concat ks)) as [Hnd Hp].
  split; [exact Hnd|]. split; [exact Hp|].
  intros e Hin. apply In_assign_all in Hin.
  apply in_concat in Hin as (k & Hk & Hin).
  destruct (Forall2_In_r _ _ _ _ _ _ Hks Hk) as (e0 & He0 & Hleft).
  destruct Hleft as [[-> _]|(id & ents' & -> & Hsel & Hret & Hents)]; [contradiction|].
  destruct Hin as [<-|[]]. simpl. split; auto.
  exists id, (assign_all (filter (kept_entry opts) ents')). split; auto.
  now apply item_stable with (fs := entries (snd e0)).
Qed.

Lemma entry_left_same opts fs ents2 :
  (forall e, In e fs -> retained_entry opts e = true -> settled (snd e)) ->
  Forall2 (entry_left opts) fs ents2 ->
  map fst ents2 = map fst fs /\ erase_fields ents2 = erase_fields fs.
Proof.
  intros Hs H. induction H as [|e e' r r' [Hk Hv] Hr IH]; simpl; auto.
  destruct IH as [IH1 IH2]; [intros x Hx; apply Hs; now right|].
  rewrite IH1, IH2, Hk. split; auto. f_equal. f_equal.
  destruct (retained_entry opts e) eqn:Hret.
  - apply deduped_erase; auto. apply Hs; auto. now left.
  - now rewrite Hv.
Qed.

(** The paths loop on a path item of the output. *)
Lemma item_refiltered opts fs ents2 :
  stable_item opts fs ->
  Forall2 (entry_left opts) fs ents2 ->
  erase_fields (assign_all (filter (kept_entry opts) ents2)) = erase_fields fs.
Proof.
  intros (Hnd & Hp & _ & Hall) Hents.
  destruct (entry_left_same opts fs ents2) as [Hkeys Herase]; auto.
  { intros e He. apply (Hall e He). }
  rewrite filter_all.
  - rewrite assign_all_id; auto; now rewrite Hkeys.
  - intros e' He'. destruct (Forall2_In_r _ _ _ _ _ _ Hents He') as (e & He & Hleft).
    rewrite (entry_left_kept opts e e' Hleft). apply (Hall e He).
Qed.

(** The paths loop on the paths of the output. *)
Lemma paths_refiltered opts pathRegex fp ks2 :
  stable_paths opts pathRegex fp ->
  Forall2 (path_left opts pathRegex) fp ks2 ->
  erase_fields (assign_all (concat ks2)) = erase_fields fp.
Proof.
  intros (Hnd & Hp & Hall) Hks.
  assert (G : map fst (concat ks2) = map fst fp /\
              erase_fields (concat ks2) = erase_fields fp).
  { clear Hnd Hp. induction Hks as [|e k r kr Hleft Hr IH]; simpl; auto.
    destruct IH as [IH1 IH2]; [intros x Hx; apply Hall; now right|].
    destruct (Hall e (or_introl eq_refl)) as (Hsel & id & fs & Hsnd & Hitem).
    destruct Hleft as [[_ [Hn|Hn]]|(id' & ents' & -> & _ & _ & Hents)].
    - congruence.
    - rewrite Hsnd in Hn. simpl in Hn. destruct Hitem as (_ & _ & Hex & _). congruence.
    - rewrite Hsnd in Hents. simpl in Hents. simpl.
      rewrite IH1, IH2. split; auto. f_equal.
      destruct e as [path item]. simpl in *. subst item. simpl. f_equal. f_equal.
      apply (item_refiltered opts fs ents' Hitem Hents). }
  destruct G as [Hkeys Herase].
  rewrite assign_all_id; auto; now rewrite Hkeys.
Qed.

(** The [paths] of the output, from the entries of [spec.paths]. *)
Lemma output_paths URL RegExp spec opts out spec' st :
  filterOpenAPI URL RegExp spec opts = Ok (out, spec') st ->
  exists pathRegex pid ks,
    compile_pattern RegExp opts = Some pathRegex /\
    Forall2 (path_left opts pathRegex) (path_entries spec) ks /\
    assoc "paths" out = Some (VObj pid (assign_all (concat ks))).
Proof.
  intros Hrun.
  apply filterOpenAPI_assembled in Hrun
    as (pathRegex & Hpat & pid & acc & X1 & X2 & (ks & Hks & Hacc) & H1 & H2 & ->).
  exists pathRegex, pid, ks. split; auto. split; auto.
  rewrite assoc_clean_empty_fields_other
    by (simpl; intros [E|[E|[E|[]]]]; discriminate).
  rewrite (assoc_with_tags "paths" _ _ _ _ _ ltac:(discriminate) H2).
  rewrite assoc_with_security_schemes by discriminate.
  rewrite (assoc_with_components "paths" _ _ _ _ _ ltac:(discriminate) H1).
  rewrite assoc_set_field_same. now rewrite Hacc.
Qed.

Lemma erase_truthy v v' : erase v = erase v' -> truthy (Some v) = truthy (Some v').
Proof. destruct v, v'; simpl; intros H; inversion H; auto. Qed.

Lemma length_indexed_from (A : Type) (l : list A) n : length (indexed_from n l) = length l.
Proof. revert n. induction l; simpl; auto. Qed.

Lemma erase_keys_length v v' : erase v = erase v' -> length (keys_of v) = length (keys_of v').
Proof.
  destruct v, v'; simpl; intros H; inversion H as [H']; auto; unfold keys_of; simpl.
  - rewrite !length_map, !length_indexed_from.
    apply (f_equal (@length _)) in H'. now rewrite !length_map in H'.
  - rewrite !length_map.
    apply (f_equal (@length _)) in H'. now rewrite !length_map in H'.
Qed.

Lemma reparsed_idem v : reparsed (reparsed (erase v)) = reparsed (erase v).
Proof.
  induction v using value_ind'; simpl; auto.
  - destruct (non_finite r) eqn:E; simpl; [reflexivity|now rewrite E].
  - f_equal. rewrite !map_map. apply map_ext_in. intros x Hx.
    rewrite Forall_forall in H. auto.
  - f_equal. rewrite !map_map. apply map_ext_in. intros [k x] Hx. simpl.
    rewrite Forall_forall in H. f_equal. apply (H (k, x) Hx).
Qed.

(** A copy is truthy when the value is, a number that is not finite apart;
    it has as many keys. *)
Lemma reparsed_truthy v w :
  erase v = reparsed (erase w) ->
  truthy (Some v) = truthy (Some w) && negb (non_finite_number w).
Proof.
  destruct v, w; simpl; intros H;
    try (destruct (non_finite _) eqn:E);
    inversion H; subst; simpl; rewrite ?E, ?andb_true_r, ?andb_false_r; auto.
Qed.

Lemma reparsed_keys_length v w :
  erase v = reparsed (erase w) -> length (keys_of v) = length (keys_of w).
Proof.
  destruct v, w; simpl; intros H;
    try (destruct (non_finite _) eqn:E);
    inversion H as [H']; auto; unfold keys_of; simpl.
  - rewrite !length_map, !length_indexed_from.
    apply (f_equal (@length _)) in H'. now rewrite !length_map in H'.
  - rewrite !length_map.
    apply (f_equal (@length _)) in H'. now rewrite !length_map in H'.
Qed.

(** [securitySchemes] at the top of the output is the one of the source when
    that is truthy, and the one of the copy otherwise. *)
Lemma assoc_output_security_schemes URL RegExp spec opts out spec' st :
  filterOpenAPI URL RegExp spec opts = Ok (out, spec') st ->
  option_map erase (assoc "securitySchemes" out)
  = option_map (fun s => if truthy (Some s) then erase s else reparsed (erase s))
               (assoc "securitySchemes" spec).
Proof.
  intros Hrun.
  apply filterOpenAPI_assembled in Hrun
    as (pathRegex & _ & pid & acc & X1 & X2 & _ & H1 & H2 & ->).
  rewrite assoc_clean_empty_fields_other
    by (simpl; intros [E|[E|[E|[]]]]; discriminate).
  rewrite (assoc_with_tags "securitySchemes" _ _ _ _ _ ltac:(discriminate) H2).
  assert (Hcopy : option_map erase (assoc "securitySchemes" X1)
                  = option_map (fun v => reparsed (erase v))
                               (assoc "securitySchemes" spec)).
  { rewrite (assoc_with_components "securitySchemes" _ _ _ _ _ ltac:(discriminate) H1).
    rewrite assoc_set_field_other by discriminate.
    apply assoc_working_copy. }
  unfold with_security_schemes.
  destruct (assoc "securitySchemes" spec) as [s|] eqn:Hs; auto.
  cbn [option_map] in *.
  destruct (truthy (Some s)); auto.
  now rewrite assoc_set_field_same.
Qed.

(** [security] at the top of the output is the one of the copy, unless that
    is an empty list. *)
Lemma assoc_output_security URL RegExp spec opts out spec' st :
  filterOpenAPI URL RegExp spec opts = Ok (out, spec') st ->
  option_map erase (assoc "security" out)
  = match assoc "security" spec with
    | Some v => if truthy (Some v) && Nat.eqb (length (keys_of v)) 0
                   && negb (non_finite_number v)
                then None else Some (reparsed (erase v))
    | None => None
    end.
Proof.
  intros Hrun.
  apply filterOpenAPI_assembled in Hrun
    as (pathRegex & _ & pid & acc & X1 & X2 & _ & H1 & H2 & ->).
  assert (Hcopy : option_map erase (assoc "security" X2)
                  = option_map (fun v => reparsed (erase v)) (assoc "security" spec)).
  { rewrite (assoc_with_tags "security" _ _ _ _ _ ltac:(discriminate) H2).
    rewrite assoc_with_security_schemes by discriminate.
    rewrite (assoc_with_components "security" _ _ _ _ _ ltac:(discriminate) H1).
    rewrite assoc_set_field_other by discriminate.
    apply assoc_working_copy. }
  unfold clean_empty_fields. cbn [fold_left].
  rewrite assoc_clean_field_other by discriminate.
  unfold clean_field at 1.
  rewrite assoc_clean_field_other by discriminate.
  destruct (assoc "security" X2) as [v|] eqn:Hv;
    destruct (assoc "security" spec) as [w|] eqn:Hw; try discriminate.
  - cbn [option_map] in Hcopy. inversion Hcopy as [He].
    rewrite (reparsed_truthy v w He), (reparsed_keys_length v w He).
    replace (truthy (Some w) && negb (non_finite_number w)
             && Nat.eqb (length (keys_of w)) 0)
      with (truthy (Some w) && Nat.eqb (length (keys_of w)) 0
            && negb (non_finite_number w))
      by (destruct (truthy (Some w)), (Nat.eqb (length (keys_of w)) 0),
            (non_finite_number w); reflexivity).
    destruct (truthy (Some w) && Nat.eqb (length (keys_of w)) 0
              && negb (non_finite_number w)).
    + now rewrite assoc_delete_field_same.
    + rewrite assoc_clean_field_other by discriminate. rewrite Hv.
      cbn [option_map]. now rewrite He.
  - rewrite assoc_clean_field_other by discriminate. now rewrite Hv.
Qed.

(** C6, as amended. When the output is filtered again with the same
    configuration and the second pass returns, it returns every top-level
    field other than [components] and [tags] as it is, [paths] included, as
    JSON; every component it returns is a component of the first output,
    with the same definition. *)
Theorem refiltering_keeps_paths URL RegExp spec opts out spec' st out2 spec2 st2 :
  filterOpenAPI URL RegExp spec opts = Ok (out, spec') st ->
  filterOpenAPI URL RegExp out opts = Ok (out2, spec2) st2 ->
  (forall k,
      k <> "components" -> k <> "tags" ->
      option_map erase (assoc k out2) = option_map erase (assoc k out)) /\
  (forall comps2 t cat2 name c,
      assoc "components" out2 = Some comps2 ->
      get comps2 (type_name t) = Some cat2 ->
      get cat2 name = Some c ->
      exists comps cat,
        assoc "components" out = Some comps /\
        get comps (type_name t) = Some cat /\
        In (name, c) (entries cat)).
Proof.
  intros Hrun1 Hrun2. split.
  - intros k Hc Ht.
    destruct (String.eqb k "paths") eqn:Ep.
    { apply String.eqb_eq in Ep. subst k.
      destruct (output_paths _ _ _ _ _ _ _ Hrun1)
        as (pathRegex & pid & ks & Hpat & Hks & Hp).
      destruct (output_paths _ _ _ _ _ _ _ Hrun2)
        as (pathRegex2 & pid2 & ks2 & Hpat2 & Hks2 & Hp2).
      rewrite Hpat in Hpat2. inversion Hpat2; subst pathRegex2.
      unfold path_entries in Hks2. rewrite Hp in Hks2. simpl in Hks2.
      rewrite Hp, Hp2. simpl. f_equal. f_equal.
      apply (paths_refiltered opts pathRegex _ ks2); auto.
      now apply paths_stable with (ents := path_entries spec). }
    destruct (String.eqb k "securitySchemes") eqn:Ess.
    { apply String.eqb_eq in Ess. subst k.
      rewrite (assoc_output_security_schemes _ _ _ _ _ _ _ Hrun2).
      pose proof (assoc_output_security_schemes _ _ _ _ _ _ _ Hrun1) as H1.
      destruct (assoc "securitySchemes" out) as [v|] eqn:Hv; auto.
      destruct (assoc "securitySchemes" spec) as [w|]; [|discriminate].
      cbn [option_map] in *. f_equal.
      destruct (truthy (Some v)) eqn:Htv; auto.
      destruct (truthy (Some w)) eqn:Htw; inversion H1 as [He].
      - rewrite (erase_truthy v w He) in Htv. congruence.
      - rewrite He. apply reparsed_idem. }
    destruct (String.eqb k "security") eqn:Es.
    { apply String.eqb_eq in Es. subst k.
      rewrite (assoc_output_security _ _ _ _ _ _ _ Hrun2).
      pose proof (assoc_output_security _ _ _ _ _ _ _ Hrun1) as H1.
      destruct (assoc "security" out) as [v|] eqn:Hv; auto.
      destruct (assoc "security" spec) as [w|]; [|discriminate].
      destruct (truthy (Some w) && Nat.eqb (length (keys_of w)) 0
                && negb (non_finite_number w)) eqn:Hw; [discriminate|].
      simpl in H1. inversion H1 as [He].
      rewrite (reparsed_truthy v w He), (reparsed_keys_length v w He).
      replace (truthy (Some w) && negb (non_finite_number w)
               && Nat.eqb (length (keys_of w)) 0)
        with (truthy (Some w) && Nat.eqb (length (keys_of w)) 0
              && negb (non_finite_number w))
        by (destruct (truthy (Some w)), (Nat.eqb (length (keys_of w)) 0),
              (non_finite_number w); reflexivity).
      rewrite Hw. simpl. rewrite He. f_equal. apply reparsed_idem. }
    apply String.eqb_neq in Ep, Ess, Es.
    assert (Hk : ~ In k ["paths"; "components"; "tags"; "security"; "securitySchemes"])
      by (simpl; intuition).
    rewrite (assoc_output_other _ _ _ _ _ _ _ k Hrun2 Hk).
    pose proof (assoc_output_other _ _ _ _ _ _ _ k Hrun1 Hk) as H1.
    destruct (assoc k out) as [v|] eqn:Hv; auto.
    destruct (assoc k spec) as [w|]; [|discriminate].
    cbn [option_map] in *. inversion H1 as [He]. rewrite He. f_equal.
    apply reparsed_idem.
  - intros comps2 t cat2 name c Hc Hcat Hn.
    now destruct (output_component _ _ _ _ _ _ _ _ _ _ _ _ Hrun2 Hc Hcat Hn) as [_ H].
Qed.

Lemma refiltering_keeps_paths_witness :
  exists out spec' st out2 spec2 st2,
    Sample.run Sample.users Sample.only_user = Ok (out, spec') st /\
    Sample.run out Sample.only_user = Ok (out2, spec2) st2 /\
    option_map erase (assoc "paths" out2) = option_map erase (assoc "paths" out).
Proof.
  unfold Sample.run.
  destruct (filterOpenAPI Whatwg.URL_file Whatwg.RegExp_none Sample.users Sample.only_user)
    as [[out spec'] st|e st|] eqn:E1.
  2,3: vm_compute in E1; discriminate.
  destruct (filterOpenAPI Whatwg.URL_file Whatwg.RegExp_none out Sample.only_user)
    as [[out2 spec2] st2|e st2|] eqn:E2.
  - exists out, spec', st, out2, spec2, st2. split; auto. split; auto.
    apply (proj1 (refiltering_keeps_paths _ _ _ _ _ _ _ _ _ _ E1 E2)); discriminate.
  - pose proof (f_equal (fun r => match r with Ok (o, _) _ => o | _ => [] end) E1) as Hout.
    vm_compute in Hout. subst out. vm_compute in E2. discriminate.
  - pose proof (f_equal (fun r => match r with Ok (o, _) _ => o | _ => [] end) E1) as Hout.
    vm_compute in Hout. subst out. vm_compute in E2. discriminate.
Defined.

(** C6, as stated, fails.  With internal components excluded, the first
    pass on [SampleInternalChain.spec] reaches [B] through the internal
    schema [A] and returns [B] without [A]; the second pass finds no
    definition of [A] to scan, does not reach [B], and returns a document
    without [components]. *)
Lemma idempotence_claim_fails : ~ idempotence_claim.
Proof.
  intros H.
  destruct (filterOpenAPI Whatwg.URL_file Whatwg.RegExp_none
              SampleInternalChain.spec SampleInternalChain.opts)
    as [[out spec'] st|e st|] eqn:E.
  2,3: vm_compute in E; discriminate.
  destruct (H _ _ _ _ _ _ _ E) as (out2 & spec2 & st2 & E2 & Heq).
  pose proof (f_equal (fun r => match r with Ok (o, _) _ => o | _ => [] end) E) as Hout.
  vm_compute in Hout. subst out.
  pose proof (f_equal (fun r => match r with Ok (o, _) _ => o | _ => [] end) E2) as Hout2.
  vm_compute in Hout2. subst out2.
  vm_compute in Heq. discriminate.
Qed.

(** * The rest of the pass *)

(** ** Paths and operations of the output *)

Lemma In_set_field_same (A : Type) k (v : A) l : In (k, v) (set_field k v l).
Proof.
  induction l as [|[k0 v0] r IH]; simpl; auto.
  destruct (String.eqb k k0); simpl; auto.
Qed.

Lemma In_set_field_keep (A : Type) k (v : A) k' (v' : A) l :
  k' <> k -> In (k', v') l -> In (k', v') (set_field k v l).
Proof.
  intros Hne. induction l as [|[k0 v0] r IH]; simpl; intros H; [contradiction|].
  destruct (String.eqb k k0) eqn:E.
  - apply String.eqb_eq in E. subst k0. destruct H as [H|H]; [|now right].
    inversion H. congruence.
  - destruct H as [H|H]; [now left|right; auto].
Qed.

(** Assignments of distinct keys keep every entry. *)
Lemma assign_all_In k v l :
  NoDup (map fst l) -> In (k, v) l -> k <> "__proto__" -> In (k, v) (assign_all l).
Proof.
  intros Hnd Hin Hk. unfold assign_all.
  assert (G : forall acc,
            NoDup (map fst l) ->
            In (k, v) l \/ (In (k, v) acc /\ ~ In k (map fst l)) ->
            In (k, v) (fold_left (fun o e => js_assign (fst e) (snd e) o) l acc)).
  { clear Hnd Hin. induction l as [|[k0 v0] r IH]; intros acc Hnd H; simpl.
    - destruct H as [[]|[H _]]. exact H.
    - simpl in Hnd. inversion Hnd as [|? ? Hnot Hr]; subst. apply IH; auto.
      destruct H as [[E|H]|[H Hnot']]; [|now left|].
      + inversion E; subst k0 v0. right. split; auto.
        unfold js_assign. simpl. apply String.eqb_neq in Hk. rewrite Hk.
        apply In_set_field_same.
      + right. simpl in Hnot'. split; [|tauto].
        unfold js_assign. simpl. destruct (String.eqb k0 "__proto__"); auto.
        apply In_set_field_keep; auto. }
  apply G; auto.
Qed.

Lemma entry_left_keys opts l l' :
  Forall2 (entry_left opts) l l' -> map fst l' = map fst l.
Proof.
  induction 1 as [|e e' r r' [Hk _] _ IH]; simpl; auto. now rewrite Hk, IH.
Qed.

Lemma NoDup_map_filter (A B : Type) (g : A -> B) (f : A -> bool) l :
  NoDup (map g l) -> NoDup (map g (filter f l)).
Proof.
  induction l as [|x r IH]; simpl; intros H; auto.
  inversion H as [|? ? Hnot Hr]; subst.
  destruct (f x); simpl; auto. constructor; auto.
  intros Hin. apply Hnot. apply in_map_iff in Hin as (y & Hy & Hin).
  apply filter_In in Hin as [Hin _]. apply in_map_iff. eauto.
Qed.

(** The keys that [paths] gets, in the order of the source. *)
Lemma path_left_keys opts pathRegex ents ks :
  Forall2 (path_left opts pathRegex) ents ks ->
  NoDup (map fst ents) -> NoDup (map fst (concat ks)).
Proof.
  intros H.
  assert (G : (forall k, In k (map fst (concat ks)) -> In k (map fst ents)) /\
              (NoDup (map fst ents) -> NoDup (map fst (concat ks)))).
  { induction H as [|e k r kr Hleft Hr [IH1 IH2]]; simpl.
    - split; auto.
    - destruct Hleft as [[-> _]|(id & ents' & -> & _)]; simpl.
      + split; [intros k Hk; right; auto|].
        intros Hnd. inversion Hnd; auto.
      + split; [intros k [Hk|Hk]; auto|].
        intros Hnd. inversion Hnd as [|? ? Hnot Hnd']; subst.
        constructor; auto. }
  apply G.
Qed.

(** X1. The output always has a [paths] object, with distinct keys; every
    path in it is a path of the source that the pattern selects and that
    has an operation the tag filter retains. *)
Theorem output_paths_sound URL RegExp spec opts out spec' st :
  filterOpenAPI URL RegExp spec opts = Ok (out, spec') st ->
  exists pathRegex pid fp,
    compile_pattern RegExp opts = Some pathRegex /\
    assoc "paths" out = Some (VObj pid fp) /\
    NoDup (map fst fp) /\
    forall path item,
      In (path, item) fp ->
      selected pathRegex path = true /\
      exists pathItem,
        In (path, pathItem) (path_entries spec) /\
        existsb (retained_entry opts) (entries pathItem) = true.
Proof.
  intros Hrun.
  destruct (output_paths _ _ _ _ _ _ _ Hrun) as (pathRegex & pid & ks & Hpat & Hks & Hp).
  exists pathRegex, pid, (assign_all (concat ks)).
  split; auto. split; auto. split; [apply assign_all_keys|].
  intros path item Hin. apply In_assign_all in Hin.
  apply in_concat in Hin as (k & Hk & Hin).
  destruct (Forall2_In_r _ _ _ _ _ _ Hks Hk) as ([path0 pathItem] & He0 & Hleft).
  destruct Hleft as [[-> _]|(id & ents' & -> & Hsel & Hret & Hents)]; [contradiction|].
  destruct Hin as [E|[]]. simpl in *. inversion E; subst path0 item.
  split; auto. exists pathItem. auto.
Qed.

Lemma output_paths_sound_witness :
  exists out spec' st pid fp,
    Sample.run Sample.users Sample.only_user = Ok (out, spec') st /\
    assoc "paths" out = Some (VObj pid fp) /\
    map fst fp = ["/users"].
Proof.
  unfold Sample.run.
  destruct (filterOpenAPI Whatwg.URL_file Whatwg.RegExp_none Sample.users Sample.only_user)
    as [[out spec'] st|e st|] eqn:E.
  2,3: vm_compute in E; discriminate.
  destruct (output_paths_sound _ _ _ _ _ _ _ E) as (pathRegex & pid & fp & _ & Hp & _).
  exists out, spec', st, pid, fp. split; auto. split; auto.
  pose proof (f_equal (fun r => match r with Ok (o, _) _ => o | _ => [] end) E) as Hout.
  vm_compute in Hout. subst out. vm_compute in Hp. inversion Hp. reflexivity.
Defined.

(** X2. A path of the source that the pattern selects and that has an
    operation the tag filter retains is a path of the output, unless it is
    ["__proto__"], which the assignment to [filteredSpec.paths] loses. *)
Theorem output_paths_complete URL RegExp spec opts out spec' st pathRegex path pathItem :
  filterOpenAPI URL RegExp spec opts = Ok (out, spec') st ->
  compile_pattern RegExp opts = Some pathRegex ->
  In (path, pathItem) (path_entries spec) ->
  selected pathRegex path = true ->
  existsb (retained_entry opts) (entries pathItem) = true ->
  path <> "__proto__" ->
  exists pid fp item, assoc "paths" out = Some (VObj pid fp) /\ In (path, item) fp.
Proof.
  intros Hrun Hpat Hin Hsel Hret Hne.
  destruct (output_paths _ _ _ _ _ _ _ Hrun) as (pathRegex' & pid & ks & Hpat' & Hks & Hp).
  rewrite Hpat in Hpat'. inversion Hpat'; subst pathRegex'.
  destruct (Forall2_In_l _ _ _ _ _ _ Hks Hin) as (k & Hk & Hleft).
  destruct Hleft as [[_ [Hn|Hn]]|(id & ents' & -> & _)]; simpl in *; try congruence.
  assert (Hkey : In path (map fst (assign_all (concat ks)))).
  { apply assign_all_has_key; auto.
    apply in_map_iff. exists (path, VObj id (assign_all (filter (kept_entry opts) ents'))).
    split; auto. apply in_concat. eexists. split; [exact Hk|now left]. }
  apply in_map_iff in Hkey as ([p item] & Hfst & Hitem). simpl in Hfst. subst p.
  exists pid, (assign_all (concat ks)), item. auto.
Qed.

Lemma output_paths_complete_witness :
  exists out spec' st pid fp item,
    Sample.run Sample.users Sample.only_user = Ok (out, spec') st /\
    assoc "paths" out = Some (VObj pid fp) /\ In ("/users", item) fp.
Proof.
  unfold Sample.run.
  destruct (filterOpenAPI Whatwg.URL_file Whatwg.RegExp_none Sample.users Sample.only_user)
    as [[out spec'] st|e st|] eqn:E.
  2,3: vm_compute in E; discriminate.
  pose proof (fun pathItem =>
                output_paths_complete _ _ _ _ _ _ _ None "/users" pathItem E) as Hthm.
  edestruct Hthm as (pid & fp & item & Hp & Hin).
  - reflexivity.
  - simpl. left. reflexivity.
  - reflexivity.
  - reflexivity.
  - discriminate.
  - exists out, spec', st, pid, fp, item. auto.
Defined.

(** X3. A field of a path item of the output whose key is no HTTP method
    ([summary], [parameters], [servers], ...) is a field of the path item of
    the source, with the value it has there. *)
Theorem path_item_field_kept URL RegExp spec opts out spec' st pid fp path i fpi k v :
  filterOpenAPI URL RegExp spec opts = Ok (out, spec') st ->
  assoc "paths" out = Some (VObj pid fp) ->
  In (path, VObj i fpi) fp ->
  In (k, v) fpi ->
  string_in k HTTP_METHODS = false ->
  exists pathItem,
    In (path, pathItem) (path_entries spec) /\ In (k, v) (entries pathItem).
Proof.
  intros Hrun Hpaths Hfp Hfpi Hm.
  destruct (output_paths _ _ _ _ _ _ _ Hrun) as (pathRegex & pid' & ks & Hpat & Hks & Hp).
  rewrite Hp in Hpaths. inversion Hpaths; subst pid' fp. clear Hpaths.
  apply In_assign_all in Hfp. apply in_concat in Hfp as (k0 & Hk0 & Hin).
  destruct (Forall2_In_r _ _ _ _ _ _ Hks Hk0) as ([path0 pathItem] & Hentry & Hleft).
  destruct Hleft as [[-> _]|(id & ents' & -> & Hsel & Hret & Hents)]; [contradiction|].
  destruct Hin as [E|[]]. simpl in E. inversion E; subst path0 i fpi. clear E.
  apply In_assign_all in Hfpi. apply filter_In in Hfpi as [Hin' _].
  destruct (Forall2_In_r _ _ _ _ _ _ Hents Hin') as ([k1 v1] & Hop & [Hfst Hsnd]).
  simpl in Hfst, Hsnd. subst k1.
  rewrite retained_entry_pair, Hm in Hsnd. simpl in Hsnd. subst v.
  exists pathItem. auto.
Qed.

Lemma path_item_field_kept_witness :
  exists out spec' st pid fp i fpi pathItem,
    Sample.run SampleJobsSummary.spec Sample.defaults = Ok (out, spec') st /\
    assoc "paths" out = Some (VObj pid fp) /\
    In ("/jobs", VObj i fpi) fp /\
    In ("summary", VStr "Jobs") fpi /\
    In ("/jobs", pathItem) (path_entries SampleJobsSummary.spec) /\
    In ("summary", VStr "Jobs") (entries pathItem).
Proof.
  unfold Sample.run.
  destruct (filterOpenAPI Whatwg.URL_file Whatwg.RegExp_none
              SampleJobsSummary.spec Sample.defaults)
    as [[out spec'] st|e st|] eqn:E.
  2,3: vm_compute in E; discriminate.
  pose proof (f_equal (fun r => match r with Ok (o, _) _ => o | _ => [] end) E) as Hout.
  vm_compute in Hout.
  assert (Hp : exists pid i fpi,
             assoc "paths" out = Some (VObj pid [("/jobs", VObj i fpi)]) /\
             In ("summary", VStr "Jobs") fpi).
  { rewrite <- Hout. do 3 eexists. split; [reflexivity|]. simpl. auto. }
  destruct Hp as (pid & i & fpi & Hp & Hs).
  destruct (path_item_field_kept _ _ _ _ _ _ _ pid _ "/jobs" i fpi "summary" (VStr "Jobs")
              E Hp) as (pathItem & H1 & H2).
  - now left.
  - exact Hs.
  - reflexivity.
  - exists out, spec', st, pid, [("/jobs", VObj i fpi)], i, fpi, pathItem.
    repeat split; auto. now left.
Defined.

(** X4. When the keys of [paths] and of a path item are distinct, every
    field that is no HTTP method and every operation the tag filter retains,
    of a selected path item with a retained operation, is in the output
    under its path: the field as it is, the operation with its parameters
    de-duplicated.  Excepted are a path and a key ["__proto__"], which the
    assignments to [filteredSpec.paths] and [filteredPathItem] lose. *)
Theorem path_item_entries_complete URL RegExp spec opts out spec' st
        pathRegex path pathItem k v :
  filterOpenAPI URL RegExp spec opts = Ok (out, spec') st ->
  compile_pattern RegExp opts = Some pathRegex ->
  NoDup (map fst (path_entries spec)) ->
  In (path, pathItem) (path_entries spec) ->
  selected pathRegex path = true ->
  existsb (retained_entry opts) (entries pathItem) = true ->
  path <> "__proto__" ->
  NoDup (map fst (entries pathItem)) ->
  In (k, v) (entries pathItem) ->
  kept_entry opts (k, v) = true ->
  k <> "__proto__" ->
  exists pid fp i fpi v',
    assoc "paths" out = Some (VObj pid fp) /\
    In (path, VObj i fpi) fp /\
    In (k, v') fpi /\
    if retained_entry opts (k, v) then deduped v v' else v' = v.
Proof.
  intros Hrun Hpat Hndp Hin Hsel Hret Hne Hnd Hkv Hkept Hk.
  destruct (output_paths _ _ _ _ _ _ _ Hrun) as (pathRegex' & pid & ks & Hpat' & Hks & Hp).
  rewrite Hpat in Hpat'. inversion Hpat'; subst pathRegex'.
  destruct (Forall2_In_l _ _ _ _ _ _ Hks Hin) as (k0 & Hk0 & Hleft).
  destruct Hleft as [[_ [Hn|Hn]]|(id & ents' & -> & _ & _ & Hents)]; simpl in *;
    try congruence.
  destruct (Forall2_In_l _ _ _ _ _ _ Hents Hkv) as ([k' v'] & Hin' & Hleft).
  pose proof (entry_left_kept opts _ _ Hleft) as Hkept'.
  destruct Hleft as [Hfst Hsnd]. simpl in Hfst, Hsnd. subst k'.
  exists pid, (assign_all (concat ks)), id,
    (assign_all (filter (kept_entry opts) ents')), v'.
  split; auto. split; [|split; auto].
  - apply assign_all_In; auto.
    + now apply (path_left_keys opts pathRegex (path_entries spec)).
    + apply in_concat. eexists. split; [exact Hk0|now left].
  - apply assign_all_In; auto.
    + apply NoDup_map_filter. now rewrite (entry_left_keys opts _ _ Hents).
    + apply filter_In. split; auto. congruence.
Qed.

Lemma path_item_entries_complete_witness :
  exists out spec' st pid fp i fpi,
    Sample.run SampleJobsSummary.spec Sample.defaults = Ok (out, spec') st /\
    assoc "paths" out = Some (VObj pid fp) /\
    In ("/jobs", VObj i fpi) fp /\
    In ("summary", VStr "Jobs") fpi.
Proof.
  unfold Sample.run.
  destruct (filterOpenAPI Whatwg.URL_file Whatwg.RegExp_none
              SampleJobsSummary.spec Sample.defaults)
    as [[out spec'] st|e st|] eqn:E.
  2,3: vm_compute in E; discriminate.
  pose proof (fun pathItem =>
                path_item_entries_complete _ _ _ _ _ _ _ None "/jobs" pathItem
                  "summary" (VStr "Jobs") E) as Hthm.
  edestruct Hthm as (pid & fp & i & fpi & v' & Hp & Hfp & Hfpi & Hv).
  - reflexivity.
  - simpl. repeat constructor; simpl; tauto.
  - simpl. left. reflexivity.
  - reflexivity.
  - reflexivity.
  - discriminate.
  - simpl. repeat constructor; simpl; intuition discriminate.
  - simpl. left. reflexivity.
  - reflexivity.
  - discriminate.
  - simpl in Hv. subst v'. exists out, spec', st, pid, fp, i, fpi. auto.
Defined.

(** X5. With a list of tags configured, every operation of the output
    carries one of them: its [tags] is an array that holds a string of the
    list. *)
Theorem output_operation_tagged URL RegExp spec opts out spec' st pid fp path i fpi method op' :
  filterOpenAPI URL RegExp spec opts = Ok (out, spec') st ->
  tags opts <> [] ->
  assoc "paths" out = Some (VObj pid fp) ->
  In (path, VObj i fpi) fp ->
  In (method, op') fpi ->
  string_in method HTTP_METHODS = true ->
  exists ti l s,
    get op' "tags" = Some (VArr ti l) /\ In (VStr s) l /\ In s (tags opts).
Proof.
  intros Hrun Htags Hpaths Hfp Hfpi Hm.
  destruct (output_operation _ _ _ _ _ _ _ _ _ _ _ _ _ _ Hrun Hpaths Hfp Hfpi Hm)
    as (pathItem & op & _ & _ & Hs & Hd).
  rewrite <- (deduped_should_include opts op op' Hd) in Hs.
  unfold should_include in Hs.
  assert (Hs' : option_map (existsb (tag_included opts)) (operation_tags op') = Some true).
  { destruct op'; try discriminate; destruct (tags opts); try congruence. }
  clear Hs. unfold operation_tags in Hs'.
  assert (Hs : option_map (existsb (tag_included opts))
                 (if truthy (get op' "tags")
                  then match get op' "tags" with
                       | Some (VArr _ l) => Some l
                       | _ => None
                       end
                  else Some []) = Some true).
  { destruct op'; try discriminate; exact Hs'. }
  clear Hs'.
  destruct (truthy (get op' "tags")); [|discriminate].
  destruct (get op' "tags") as [[| | | |ti l|]|]; try discriminate.
  simpl in Hs. inversion Hs as [Hex].
  apply existsb_exists in Hex as (tag & Hin & Htag).
  destruct tag; try discriminate. simpl in Htag.
  exists ti, l, s. repeat split; auto. now apply string_in_true.
Qed.

Lemma output_operation_tagged_witness :
  exists out spec' st op' ti l,
    Sample.run Sample.users Sample.only_user = Ok (out, spec') st /\
    get op' "tags" = Some (VArr ti l) /\ In (VStr "User") l.
Proof.
  unfold Sample.run.
  destruct (filterOpenAPI Whatwg.URL_file Whatwg.RegExp_none Sample.users Sample.only_user)
    as [[out spec'] st|e st|] eqn:E.
  2,3: vm_compute in E; discriminate.
  pose proof (f_equal (fun r => match r with Ok (o, _) _ => o | _ => [] end) E) as Hout.
  vm_compute in Hout.
  pose proof (fun fp fpi op' =>
                output_operation_tagged _ _ _ _ _ _ _ 43 fp "/users" 44 fpi "get" op' E)
    as Hthm.
  edestruct Hthm as (ti & l & s & Hg & Hin & Hs).
  - discriminate.
  - rewrite <- Hout. reflexivity.
  - simpl. left. reflexivity.
  - simpl. left. reflexivity.
  - reflexivity.
  - simpl in Hs. destruct Hs as [<-|[]].
    match type of Hg with get ?o _ = _ => exists out, spec', st, o, ti, l end.
    auto.
Defined.

(** ** Tags, components and security of the output *)

Lemma filter_opt_filter (A : Type) (f : A -> option bool) l kept :
  filter_opt f l = Some kept -> kept = filter (fun x => is_true (f x)) l.
Proof.
  revert kept. induction l as [|x r IH]; simpl; intros kept H.
  - now inversion H.
  - destruct (f x) as [b|]; [|discriminate].
    destruct (filter_opt f r) as [r'|]; [|discriminate].
    inversion H; subst kept. rewrite (IH r' eq_refl). destruct b; reflexivity.
Qed.

(** ** The tags in use *)

Lemma same_value_zero_trans a b c :
  same_value_zero a b = true -> same_value_zero b c = true ->
  same_value_zero a c = true.
Proof.
  destruct a as [[]|], b as [[]|]; simpl; try discriminate;
    destruct c as [[]|]; simpl; try discriminate; auto.
  - intros H1 H2. apply Bool.eqb_prop in H1, H2. subst. apply Bool.eqb_reflx.
  - intros H1 H2. apply String.eqb_eq in H1, H2. subst. apply String.eqb_refl.
  - intros H1 H2. apply String.eqb_eq in H1, H2. subst. apply String.eqb_refl.
  - intros H1 H2. apply Nat.eqb_eq in H1, H2. subst. apply Nat.eqb_refl.
  - intros H1 H2. apply Nat.eqb_eq in H1, H2. subst. apply Nat.eqb_refl.
Qed.

Lemma tags_are_ext (S S' : value -> Prop) st :
  (forall tag, S tag <-> S' tag) -> tags_are S st -> tags_are S' st.
Proof.
  intros He [H1 H2]. split.
  - intros x Hx. destruct (H1 x Hx) as (tag & -> & Hs). exists tag. split; auto.
    now apply He.
  - intros tag Hs. apply H2. now apply He.
Qed.

Lemma tags_are_same (S : value -> Prop) st st' :
  usedTags st' = usedTags st -> tags_are S st -> tags_are S st'.
Proof. unfold tags_are. intros ->. auto. Qed.

Lemma set_add_has x s : set_has x (set_add x s) = true.
Proof.
  unfold set_add. destruct (set_has x s) eqn:E; auto.
  unfold set_has. rewrite existsb_app. simpl.
  rewrite same_value_zero_refl. now rewrite orb_true_r.
Qed.

Lemma tags_are_add (S : value -> Prop) tag st :
  tags_are S st -> tags_are (fun t => S t \/ t = tag) (add_tag (Some tag) st).
Proof.
  intros [H1 H2]. split; simpl.
  - intros x Hx. apply In_set_add in Hx as [Hx| ->].
    + destruct (H1 x Hx) as (t & -> & Hs). eauto.
    + eauto.
  - intros t [Hs| ->].
    + apply set_has_set_add_old. auto.
    + apply set_add_has.
Qed.

Lemma forEach_tags l : forall (S : value -> Prop),
  triple (tags_are S) (forEach l (fun tag => modify (add_tag (Some tag))))
         (fun _ => tags_are (fun t => S t \/ In t l)) (fun _ => True) True.
Proof.
  induction l as [|x r IH]; intros S; simpl.
  - apply triple_ret. intros st H. revert H. apply tags_are_ext. tauto.
  - eapply triple_bind with (R := fun _ => tags_are (fun t => S t \/ t = x)).
    + apply triple_modify. intros st H. now apply tags_are_add.
    + intros ?. eapply triple_weaken; [apply (IH (fun t => S t \/ t = x))| | | |]; auto.
      intros a' st H. revert H. apply tags_are_ext. intros t. simpl. intuition.
Qed.

Lemma collect_keeps_tags URL spec (S : value -> Prop) c :
  triple (tags_are S) (collect URL spec c) (fun _ => tags_are S) (fun _ => True) True.
Proof.
  destruct c as [c|].
  - eapply triple_weaken;
      [apply (collect_keeps_stable URL spec (tags_are S))| | | |]; auto.
    + intros st H. apply entering_intro; auto.
  - intros st H. exact H.
Qed.

Lemma entry_tag_none opts e tag : retained_entry opts e = false -> ~ entry_tag opts e tag.
Proof. intros H [H' _]. congruence. Qed.

Lemma process_method_tags URL spec opts (S : value -> Prop) acc e :
  triple (tags_are S) (process_method URL spec opts acc e)
         (fun _ => tags_are (fun t => S t \/ entry_tag opts e t))
         (fun _ => True) True.
Proof.
  destruct e as [method op]. unfold process_method.
  assert (Hskip : retained_entry opts (method, op) = false ->
                  forall st, tags_are S st ->
                             tags_are (fun t => S t \/ entry_tag opts (method, op) t) st).
  { intros Hr st. apply tags_are_ext. intros t. split; auto.
    intros [H|H]; auto. now apply entry_tag_none in H. }
  destruct (string_in method HTTP_METHODS) eqn:Hm; simpl negb; cbv iota.
  2:{ apply triple_ret. apply Hskip. unfold retained_entry. cbn [fst snd]. now rewrite Hm. }
  apply triple_bind_lift; [|auto].
  intros b Hb. destruct b; simpl negb; cbv iota.
  2:{ apply triple_ret. apply Hskip. unfold retained_entry. cbn [fst snd]. now rewrite Hm, Hb. }
  apply triple_bind_lift; [|auto].
  intros l Hl.
  eapply triple_bind with (R := fun _ => tags_are (fun t => S t \/ In t l)).
  { apply forEach_tags. }
  assert (Hpost : forall st, tags_are (fun t => S t \/ In t l) st ->
                             tags_are (fun t => S t \/ entry_tag opts (method, op) t) st).
  { intros st. apply tags_are_ext. intros t. split.
    - intros [H|H]; auto. right. split.
      + unfold retained_entry. cbn [fst snd]. now rewrite Hm, Hb.
      + exists l. auto.
    - intros [H|[_ (l' & Hl' & Hin)]]; auto. simpl in Hl'. right. congruence. }
  intros ?. eapply triple_bind with (R := fun _ => tags_are (fun t => S t \/ In t l)).
  { unfold deduplicate_parameters.
    destruct (truthy (get op "parameters")); [|apply triple_ret; auto].
    eapply triple_bind with (R := fun _ => tags_are (fun t => S t \/ In t l)).
    - apply triple_fresh. intros st H. revert H. now apply tags_are_same.
    - intros id. destruct (get op "parameters") as [[]|]; try (apply triple_throw; auto).
      destruct (unique_params items []); [apply triple_ret|apply triple_throw]; auto. }
  intros op'. eapply triple_bind with (R := fun _ => tags_are (fun t => S t \/ In t l)).
  { apply collect_keeps_tags. }
  intros ?. apply triple_ret. auto.
Qed.

Lemma item_tags URL spec opts (S : value -> Prop) ents acc :
  triple (tags_are S) (foldM (process_method URL spec opts) ents acc)
         (fun _ => tags_are (fun t => S t \/ exists m, In m ents /\ entry_tag opts m t))
         (fun _ => True) True.
Proof.
  eapply triple_weaken;
    [apply triple_foldM_prefix with
       (Inv := fun pre (_ : item_acc) =>
                 tags_are (fun t => S t \/ exists m, In m pre /\ entry_tag opts m t))
       (E := fun _ => True) (F := True)
    | | | |]; auto.
  - intros pre x post b _.
    eapply triple_weaken;
      [apply (@process_method_tags URL spec opts
                (fun t => S t \/ exists m, In m pre /\ entry_tag opts m t))| | | |]; auto.
    intros a' st. apply tags_are_ext. intros t. split.
    + intros [[H|(m & Hm & H)]|H]; auto.
      * right. exists m. split; auto. apply in_or_app. now left.
      * right. exists x. split; auto. apply in_or_app. right. now left.
    + intros [H|(m & Hm & H)]; auto.
      apply in_app_or in Hm as [Hm|[<-|[]]]; eauto.
  - intros st. apply tags_are_ext. intros t. split; auto.
    intros [H|(m & [] & _)]; auto.
Qed.

Lemma process_path_tags URL spec opts pathRegex (S : value -> Prop) acc e :
  triple (tags_are S) (process_path URL spec opts pathRegex acc e)
         (fun _ => tags_are (fun t => S t \/ path_tag opts pathRegex e t))
         (fun _ => True) True.
Proof.
  destruct e as [path pathItem]. unfold process_path.
  destruct (selected pathRegex path) eqn:Hsel; simpl negb; cbv iota.
  2:{ apply triple_ret. intros st. apply tags_are_ext. intros t. split; auto.
      intros [H|[H _]]; auto. simpl in H. congruence. }
  eapply triple_bind with (R := fun _ => tags_are S).
  { apply triple_fresh. intros st H. revert H. now apply tags_are_same. }
  intros id. apply triple_bind_get_M; [|auto]. intros _.
  eapply triple_bind with (R := fun _ => tags_are S).
  { destruct (truthy (get pathItem "parameters")); [|apply triple_ret; auto].
    eapply triple_bind with (R := fun _ => tags_are S).
    - apply triple_fresh. intros st H. revert H. now apply tags_are_same.
    - intros w. apply collect_keeps_tags. }
  intros ?. eapply triple_bind; [apply item_tags|].
  intros item. cbv zeta.
  assert (Hpost : forall st,
            tags_are (fun t => S t \/ exists m, In m (entries pathItem) /\ entry_tag opts m t) st ->
            tags_are (fun t => S t \/ path_tag opts pathRegex (path, pathItem) t) st).
  { intros st. apply tags_are_ext. intros t. unfold path_tag. simpl. intuition. }
  destruct (hasOperations item).
  - eapply triple_bind; [apply collect_keeps_tags|].
    intros ?. apply triple_ret. auto.
  - apply triple_ret. auto.
Qed.

Lemma paths_loop_tags URL spec opts pathRegex :
  triple (tags_are (fun _ => False))
         (foldM (process_path URL spec opts pathRegex) (path_entries spec) (mkPaths [] []))
         (fun _ => tags_are (retained_tag opts pathRegex spec))
         (fun _ => True) True.
Proof.
  eapply triple_weaken;
    [apply triple_foldM_prefix with
       (Inv := fun pre (_ : paths_acc) =>
                 tags_are (fun t => exists e, In e pre /\ path_tag opts pathRegex e t))
       (E := fun _ => True) (F := True)
    | | | |]; auto.
  - intros pre x post b _.
    eapply triple_weaken;
      [apply (@process_path_tags URL spec opts pathRegex
                (fun t => exists e, In e pre /\ path_tag opts pathRegex e t))| | | |]; auto.
    intros a' st. apply tags_are_ext. intros t. split.
    + intros [(e & He & H)|H].
      * exists e. split; auto. apply in_or_app. now left.
      * exists x. split; auto. apply in_or_app. right. now left.
    + intros (e & He & H).
      apply in_app_or in He as [He|[<-|[]]]; eauto.
  - intros st. apply tags_are_ext. intros t. split; [tauto|].
    intros (e & [] & _).
Qed.

Lemma tags_are_stable (S : value -> Prop) :
  (forall t x st, tags_are S st -> tags_are S (add_used t x st)) /\
  (forall id st, tags_are S st -> tags_are S (mark_seen id st)) /\
  (forall msg st, tags_are S st -> tags_are S (add_warning msg st)) /\
  (forall st, tags_are S st -> tags_are S (bump st)).
Proof. repeat split; intros; simpl; destruct H; auto. Qed.

(** When the pass ends, [usedTags] holds the tags of the retained
    operations. *)
Lemma filter_body_tags URL RegExp spec opts :
  triple (fun st => usedTags st = [])
         (filter_body URL RegExp spec opts)
         (fun _ st =>
            forall pathRegex, compile_pattern RegExp opts = Some pathRegex ->
                              tags_are (retained_tag opts pathRegex spec) st)
         (fun _ => True) True.
Proof.
  unfold filter_body.
  eapply triple_bind with (R := fun _ st => usedTags st = []).
  { apply triple_gets. auto. }
  intros n. destruct (deep_copy_fields spec n) as [copy n'].
  eapply triple_bind with (R := fun _ st => usedTags st = []).
  { apply triple_modify. auto. }
  intros ?. eapply triple_bind with (R := fun _ st => usedTags st = []).
  { apply triple_fresh. auto. }
  intros pid. cbv zeta.
  destruct (compile_pattern RegExp opts) as [r|] eqn:Hpat.
  2:{ eapply triple_bind with (R := fun _ _ => False).
      - apply triple_throw. auto.
      - intros ? st []. }
  eapply triple_bind with (R := fun a st => usedTags st = [] /\ a = r).
  { apply triple_ret. auto. }
  intros pathRegex. apply triple_assume. intros ->.
  set (T := tags_are (retained_tag opts r spec)).
  destruct (tags_are_stable (retained_tag opts r spec)) as (Hu & Hs & Hw & Hb).
  assert (Hcollect : forall v, True ->
            triple (entering T v) (collect URL spec (Some v)) (fun _ => T) T True).
  { intros v _. apply collect_keeps_stable; auto. }
  assert (Hpre : forall v st, T st -> entering T v st).
  { intros v st H. apply entering_intro; auto. }
  eapply triple_bind with (R := fun _ => T).
  { eapply triple_weaken; [apply paths_loop_tags| | | |]; auto.
    intros st H. split; [rewrite H; intros x []|intros tag []]. }
  intros acc. eapply triple_bind with (R := fun _ => T).
  { match goal with |- context [truthy ?s] => destruct (truthy s) end.
    - eapply triple_bind with (R := fun _ => T).
      { apply triple_fresh. auto. }
      intros w. apply collect_keeps_tags.
    - apply triple_ret. auto. }
  intros ?. eapply triple_bind with (R := fun _ => T).
  { eapply triple_weaken;
      [apply (force_errors_keeps URL spec T (fun _ => True) (entering T) True Hcollect)
      | | | |]; auto. }
  intros ?. eapply triple_bind with (R := fun _ => T).
  { eapply triple_weaken;
      [apply (resolve_keeps URL spec T (fun _ => True) (entering T) True Hpre Hcollect)
      | | | |]; auto. }
  intros ?. apply triple_frame. intros st0 H0.
  eapply triple_bind with (R := fun _ => T).
  { eapply triple_weaken;
      [apply (filter_components_keeps spec opts T True Hb (usedComponents st0))
      | | | | ]; simpl; auto.
    - intros st ->. auto.
    - intros x st [[H _] _]. exact H. }
  intros X1. apply triple_frame. intros st1 H1.
  eapply triple_bind with (R := fun _ => T).
  { eapply triple_weaken;
      [apply (filter_tags_keeps spec opts T True Hb
                (usedComponents st1) (usedTags st1))
      | | | | ]; simpl; auto.
    - intros st ->. auto.
    - intros x st [[H _] _]. exact H. }
  intros X2. apply triple_ret. intros st H pathRegex Hp. inversion Hp; subst. exact H.
Qed.

Lemma used_tags_retained URL RegExp spec opts out spec' st pathRegex :
  filterOpenAPI URL RegExp spec opts = Ok (out, spec') st ->
  compile_pattern RegExp opts = Some pathRegex ->
  forall n, set_has n (usedTags st) = true <->
            exists tag, retained_tag opts pathRegex spec tag /\
                        same_value_zero n (Some tag) = true.
Proof.
  intros Hrun Hpat n.
  pose proof (@filter_body_tags URL RegExp spec opts (initial_state spec opts) eq_refl) as H.
  unfold filterOpenAPI in Hrun. rewrite Hrun in H.
  destruct (H pathRegex Hpat) as [H1 H2]. unfold set_has. rewrite existsb_exists. split.
  - intros (x & Hx & Hn). destruct (H1 x Hx) as (tag & -> & Hs). eauto.
  - intros (tag & Hs & Hn). specialize (H2 tag Hs).
    unfold set_has in H2. apply existsb_exists in H2 as (y & Hy & Hty).
    exists y. split; auto. eapply same_value_zero_trans; eauto.
Qed.

(** X6. The [tags] of the output are the tags of the source, in their
    order, whose name is in [usedTags] when the pass ends and, when internal
    components are excluded, that carry no [x-internal] marker; when none is
    left the output has no [tags] field.  [usedTags] holds then the tags of
    the operations that the tag filter retains under the paths that the
    pattern selects, and nothing else. *)
Theorem output_tags URL RegExp spec opts out spec' st :
  filterOpenAPI URL RegExp spec opts = Ok (out, spec') st ->
  exists pathRegex l,
    compile_pattern RegExp opts = Some pathRegex /\
    (forall n, set_has n (usedTags st) = true <->
               exists tag, retained_tag opts pathRegex spec tag /\
                           same_value_zero n (Some tag) = true) /\
    source_tags spec = Some l /\
    match filter (fun tag => is_true (keep_tag opts (usedTags st) tag)) l with
    | [] => assoc "tags" out = None
    | kept => exists id, assoc "tags" out = Some (VArr id kept)
    end.
Proof.
  intros Hrun.
  pose proof (fun r => @used_tags_retained URL RegExp spec opts out spec' st r Hrun) as Hused.
  apply filterOpenAPI_assembled in Hrun
    as (pathRegex & Hpat & pid & acc & X1 & X2 & _ & H1 & (l & kept & id & Hl & Hkept & ->) & ->).
  exists pathRegex, l. split; auto. split; [apply Hused; auto|]. split; auto.
  rewrite <- (filter_opt_filter _ _ _ _ Hkept).
  unfold clean_empty_fields. cbn [fold_left].
  destruct kept as [|tag r]; [|exists id];
    unfold clean_field at 1; rewrite !assoc_clean_field_other by discriminate;
    rewrite assoc_set_field_same;
    cbn [truthy andb]; unfold keys_of; cbn [entries];
    rewrite length_map, length_indexed_from; cbn [length Nat.eqb].
  - apply assoc_delete_field_same.
  - rewrite !assoc_clean_field_other by discriminate.
    apply assoc_set_field_same.
Qed.

Lemma output_tags_witness :
  exists out spec' st id,
    Sample.run Sample.users Sample.only_user = Ok (out, spec') st /\
    assoc "tags" out = Some (VArr id [VObj 20 [("name", VStr "User")]]).
Proof.
  unfold Sample.run.
  destruct (filterOpenAPI Whatwg.URL_file Whatwg.RegExp_none Sample.users Sample.only_user)
    as [[out spec'] st|e st|] eqn:E.
  2,3: vm_compute in E; discriminate.
  destruct (output_tags _ _ _ _ _ _ _ E) as (pathRegex & l & _ & _ & Hl & Hm).
  assert (Hu : usedTags st = [Some (VStr "User")]).
  { change (match Ok (out, spec') st with
            | Ok _ s => usedTags s
            | _ => []
            end = [Some (VStr "User")]).
    rewrite <- E. vm_compute. reflexivity. }
  vm_compute in Hl. inversion Hl; subst l. rewrite Hu in Hm.
  vm_compute in Hm. destruct Hm as [id Hm].
  exists out, spec', st, id. split; auto.
Defined.

(** A component of the output, as the [filter] callback saw it. *)
Lemma output_component_kept URL RegExp spec opts out spec' st comps t cat name c :
  filterOpenAPI URL RegExp spec opts = Ok (out, spec') st ->
  assoc "components" out = Some comps ->
  get comps (type_name t) = Some cat ->
  get cat name = Some c ->
  exists srcComps srcCat,
    assoc "components" spec = Some srcComps /\
    get srcComps (type_name t) = Some srcCat /\
    In (name, c) (entries srcCat) /\
    keep_component opts (usedComponents st t) srcCat (name, c) = Some true.
Proof.
  intros Hrun Hcomps Hcat Hc.
  apply filterOpenAPI_assembled in Hrun
    as (pathRegex & _ & pid & acc & X1 & X2 & _ & H1 & H2 & ->).
  pose proof (clean_empty_fields_components_inv _ _ Hcomps) as HX2.
  rewrite (assoc_with_tags "components" _ _ _ _ _ ltac:(discriminate) H2) in HX2.
  rewrite assoc_with_security_schemes in HX2 by discriminate.
  unfold with_components in H1.
  destruct (assoc "components" spec) as [src|] eqn:Hsrc.
  2:{ subst X1. rewrite assoc_set_field_other in HX2 by discriminate.
      pose proof (assoc_working_copy "components" spec) as He.
      rewrite HX2, Hsrc in He. discriminate. }
  destruct (truthy (Some src)) eqn:Hts.
  2:{ subst X1. rewrite assoc_set_field_other in HX2 by discriminate.
      assert (Hf : forall c0, assoc "components" spec = Some c0 -> truthy (Some c0) = false)
        by (intros c0 Hc0; congruence).
      destruct (falsy_copy_get spec "components" comps (type_name t) cat HX2 Hf Hcat) as [r ->].
      simpl in Hc. discriminate. }
  destruct H1 as (id & fc & [Hfc _] & ->).
  rewrite assoc_set_field_same in HX2. inversion HX2; subst comps. clear HX2.
  simpl in Hcat. specialize (Hfc t). unfold category_inv in Hfc.
  destruct (get src (type_name t)) as [x|] eqn:Hx; [|congruence].
  destruct (truthy (Some x)) eqn:Htx; [|congruence].
  destruct Hfc as (kept & Hkept & Hfrom).
  destruct (from_entries kept) as [|e o] eqn:Ho; [congruence|].
  rewrite <- Ho in Hfrom. clear Ho.
  destruct Hfrom as [cid Hcid]. rewrite Hcid in Hcat. inversion Hcat; subst cat.
  cbn [get] in Hc. apply assoc_from_entries_In in Hc.
  destruct (filter_opt_incl _ _ _ _ _ Hkept Hc) as [Hin Hkeep].
  exists src, x. auto.
Qed.

(** A source component whose name is in the reachable set of its category,
    internal components apart when they are excluded, is in the output. *)
Lemma reachable_component_present URL RegExp spec opts out spec' st name t ci cfields i fields c :
  filterOpenAPI URL RegExp spec opts = Ok (out, spec') st ->
  set_has (Some (VStr name)) (usedComponents st t) = true ->
  assoc "components" spec = Some (VObj ci cfields) ->
  assoc (type_name t) cfields = Some (VObj i fields) ->
  NoDup (map fst fields) ->
  assoc name fields = Some c ->
  excludeInternalComponents opts = false \/ truthy (get c "x-internal") = false ->
  exists oi ofields ci' cat,
    assoc "components" out = Some (VObj oi ofields) /\
    assoc (type_name t) ofields = Some (VObj ci' cat) /\
    assoc name cat = Some c.
Proof.
  intros Hrun Hused Hcomps Hcat Hnd Hc Hint.
  apply filterOpenAPI_assembled in Hrun
    as (pathRegex & _ & pid & acc & X1 & X2 & _ & H1 & H2 & ->).
  unfold with_components in H1. rewrite Hcomps in H1. simpl in H1.
  destruct H1 as (id & fc & [Hfc _] & ->).
  specialize (Hfc t). unfold category_inv in Hfc. simpl in Hfc. rewrite Hcat in Hfc.
  simpl in Hfc. destruct Hfc as (kept & Hkept & Hassoc).
  assert (Hin : In (name, c) kept).
  { apply (filter_opt_In _ _ _ _ (name, c) Hkept); [now apply assoc_In|].
    destruct (filter_opt_defined _ _ _ _ (name, c) Hkept (assoc_In _ _ _ _ Hc)) as [b Hb].
    revert Hb. unfold keep_component. simpl. rewrite Hused.
    destruct (excludeInternalComponents opts) eqn:Hex; auto.
    rewrite Hc. destruct Hint as [Hint|Hint]; [discriminate|].
    destruct c; try discriminate; now rewrite Hint. }
  assert (Hfrom : assoc name (from_entries kept) = Some c).
  { apply assoc_from_entries; auto.
    apply (filter_opt_NoDup _ _ fst _ _ _ Hkept Hnd). }
  destruct (from_entries kept) as [|e o] eqn:Ho; [discriminate|].
  destruct Hassoc as [cid Hcid].
  exists id, fc, cid, (e :: o). repeat split; auto.
  apply clean_empty_fields_components_kept.
  - rewrite (assoc_with_tags "components" _ _ _ _ _ ltac:(discriminate) H2).
    rewrite assoc_with_security_schemes by discriminate.
    apply assoc_set_field_same.
  - unfold keys_of. simpl. destruct fc; [discriminate|]. discriminate.
Qed.

(** X7. A component that a source category (an object with distinct keys)
    defines is in the output, with its definition, exactly when its name is
    in the reachable set of the category when the pass ends and, if internal
    components are excluded, the definition carries no [x-internal] marker. *)
Theorem component_kept_iff URL RegExp spec opts out spec' st name t ci cfields i fields c :
  filterOpenAPI URL RegExp spec opts = Ok (out, spec') st ->
  assoc "components" spec = Some (VObj ci cfields) ->
  assoc (type_name t) cfields = Some (VObj i fields) ->
  NoDup (map fst fields) ->
  assoc name fields = Some c ->
  (exists oi ofields ci' cat,
      assoc "components" out = Some (VObj oi ofields) /\
      assoc (type_name t) ofields = Some (VObj ci' cat) /\
      assoc name cat = Some c) <->
  (set_has (Some (VStr name)) (usedComponents st t) = true /\
   (excludeInternalComponents opts = false \/ truthy (get c "x-internal") = false)).
Proof.
  intros Hrun Hcomps Hcat Hnd Hc. split.
  - intros (oi & ofields & ci' & cat & Ho & Hocat & Hoc).
    destruct (output_component_kept _ _ _ _ _ _ _ _ t (VObj ci' cat) name c Hrun Ho)
      as (src & x & Hsrc & Hx & Hin & Hkeep); auto.
    rewrite Hcomps in Hsrc. inversion Hsrc; subst src. simpl in Hx.
    rewrite Hcat in Hx. inversion Hx; subst x.
    unfold keep_component in Hkeep. simpl in Hkeep.
    destruct (set_has (Some (VStr name)) (usedComponents st t)); [|discriminate].
    split; auto.
    destruct (excludeInternalComponents opts); auto.
    rewrite Hc in Hkeep. right.
    destruct c; try discriminate; try reflexivity; injection Hkeep as Hn;
      now apply negb_true_iff in Hn.
  - intros [Hused Hint].
    now apply (reachable_component_present URL RegExp spec opts out spec' st name t
                 ci cfields i fields c).
Qed.

Lemma component_kept_iff_witness :
  exists out spec' st oi ofields ci' cat,
    Sample.run Sample.users Sample.only_user = Ok (out, spec') st /\
    assoc "components" out = Some (VObj oi ofields) /\
    assoc "schemas" ofields = Some (VObj ci' cat) /\
    assoc "Bar" cat = Some (VObj 18 []).
Proof.
  unfold Sample.run.
  destruct (filterOpenAPI Whatwg.URL_file Whatwg.RegExp_none Sample.users Sample.only_user)
    as [[out spec'] st|e st|] eqn:E.
  2,3: vm_compute in E; discriminate.
  assert (Hu : set_has (Some (VStr "Bar")) (usedComponents st schemas) = true).
  { change (match Ok (out, spec') st with
            | Ok _ s => set_has (Some (VStr "Bar")) (usedComponents s schemas)
            | _ => false
            end = true).
    rewrite <- E. vm_compute. reflexivity. }
  destruct (proj2 (component_kept_iff _ _ _ _ _ _ _ "Bar" schemas 14
              [("schemas",
                VObj 15
                  [("Foo", VObj 16 [("type", VStr "object")]);
                   ("Error", VObj 17 [("x-responseDTO", VStr "Bar")]);
                   ("Bar", VObj 18 [])])]
              15
              [("Foo", VObj 16 [("type", VStr "object")]);
               ("Error", VObj 17 [("x-responseDTO", VStr "Bar")]);
               ("Bar", VObj 18 [])]
              (VObj 18 []) E eq_refl eq_refl
              ltac:(simpl; repeat (constructor; [simpl; intuition discriminate|]); constructor)
              eq_refl)
              (conj Hu (or_introl eq_refl)))
    as (oi & ofields & ci' & cat & H1 & H2 & H3).
  exists out, spec', st, oi, ofields, ci', cat. auto.
Defined.

(** X8. A truthy top-level [securitySchemes] of the source is in the output
    as the very object of the source, not a copy of it; a falsy one is
    there as the copy has it ([null] for [NaN], itself otherwise); a source
    without the field gives an output without it. *)
Theorem security_schemes_shared URL RegExp spec opts out spec' st :
  filterOpenAPI URL RegExp spec opts = Ok (out, spec') st ->
  match assoc "securitySchemes" spec with
  | Some s =>
      if truthy (Some s)
      then assoc "securitySchemes" out = Some s
      else option_map erase (assoc "securitySchemes" out) = Some (reparsed (erase s))
  | None => assoc "securitySchemes" out = None
  end.
Proof.
  intros Hrun.
  pose proof (assoc_output_security_schemes _ _ _ _ _ _ _ Hrun) as He.
  apply filterOpenAPI_assembled in Hrun
    as (pathRegex & _ & pid & acc & X1 & X2 & _ & H1 & H2 & ->).
  destruct (assoc "securitySchemes" spec) as [s|] eqn:Hs.
  - cbn [option_map] in He.
    destruct (truthy (Some s)) eqn:Ht; [|exact He].
    rewrite assoc_clean_empty_fields_other
      by (simpl; intros [E|[E|[E|[]]]]; discriminate).
    rewrite (assoc_with_tags "securitySchemes" _ _ _ _ _ ltac:(discriminate) H2).
    unfold with_security_schemes. rewrite Hs, Ht. apply assoc_set_field_same.
  - destruct (assoc "securitySchemes"
                (clean_empty_fields X2)); [discriminate|reflexivity].
Qed.

Lemma security_schemes_shared_witness :
  exists out spec' st,
    Sample.run SampleSecurity.spec Sample.defaults = Ok (out, spec') st /\
    assoc "securitySchemes" out = Some (VObj 3 [("key", VObj 4 [("type", VStr "apiKey")])]).
Proof.
  unfold Sample.run.
  destruct (filterOpenAPI Whatwg.URL_file Whatwg.RegExp_none
              SampleSecurity.spec Sample.defaults)
    as [[out spec'] st|e st|] eqn:E.
  2,3: vm_compute in E; discriminate.
  exists out, spec', st. split; auto.
  exact (security_schemes_shared _ _ _ _ _ _ _ E).
Defined.

(** X9. The top-level [security] of the output is the one of the source as
    [JSON.parse(JSON.stringify(...))] copies it, the same JSON with [null]
    for every number that is not finite, unless the copy is truthy and has
    no keys (an empty list or object, [true], a finite number other than
    zero): the output omits it then.  A [security] whose numbers are all
    finite and that is kept is in the output as it is in the source. *)
Theorem output_security URL RegExp spec opts out spec' st :
  filterOpenAPI URL RegExp spec opts = Ok (out, spec') st ->
  option_map erase (assoc "security" out)
  = match assoc "security" spec with
    | Some v => if truthy (Some v) && Nat.eqb (length (keys_of v)) 0
                   && negb (non_finite_number v)
                then None else Some (reparsed (erase v))
    | None => None
    end /\
  (forall v, assoc "security" spec = Some v ->
             finite_numbers v = true ->
             truthy (Some v) && Nat.eqb (length (keys_of v)) 0 = false ->
             option_map erase (assoc "security" out) = Some (erase v)).
Proof.
  intros Hrun. pose proof (assoc_output_security _ _ _ _ _ _ _ Hrun) as He.
  split; [exact He|].
  intros v Hv Hf Hk. rewrite He, Hv, Hk. simpl. now rewrite reparsed_finite.
Qed.

Lemma output_security_witness :
  exists out spec' st,
    Sample.run SampleSecurity.spec Sample.defaults = Ok (out, spec') st /\
    assoc "security" out = None.
Proof.
  unfold Sample.run.
  destruct (filterOpenAPI Whatwg.URL_file Whatwg.RegExp_none
              SampleSecurity.spec Sample.defaults)
    as [[out spec'] st|e st|] eqn:E.
  2,3: vm_compute in E; discriminate.
  exists out, spec', st. split; auto.
  pose proof (proj1 (output_security _ _ _ _ _ _ _ E)) as H.
  destruct (assoc "security" out); [|reflexivity].
  vm_compute in H. discriminate.
Defined.

(** ** The pattern *)

(** X10. A non-empty pattern that the [RegExp] constructor rejects makes
    the pass throw its [SyntaxError] before anything is scanned, tracked or
    logged. *)
Theorem invalid_pattern_throws URL RegExp spec opts p :
  pathPattern opts = Some p -> p <> "" -> RegExp p = None ->
  exists st,
    filterOpenAPI URL RegExp spec opts = Throw SyntaxError st /\
    usedComponents st = usedComponents (initial_state spec opts) /\
    seenObjects st = [] /\ usedTags st = [] /\ console st = [].
Proof.
  intros Hp Hne Hr.
  assert (Hc : compile_pattern RegExp opts = None).
  { unfold compile_pattern. rewrite Hp. apply String.eqb_neq in Hne. now rewrite Hne, Hr. }
  unfold filterOpenAPI, filter_body, bind, gets, modify, fresh. simpl.
  destruct (deep_copy_fields spec (first_free spec)) as [copy n']. simpl.
  rewrite Hc. simpl. eexists. split; [reflexivity|]. auto.
Qed.

Lemma invalid_pattern_throws_witness :
  exists st,
    filterOpenAPI Whatwg.URL_file Whatwg.RegExp_none Sample.users
      (mkOptions [] (Some "(") false [])
    = Throw SyntaxError st /\
    usedComponents st
    = usedComponents (initial_state Sample.users (mkOptions [] (Some "(") false [])) /\
    seenObjects st = [] /\ usedTags st = [] /\ console st = [].
Proof.
  apply (invalid_pattern_throws _ _ _ _ "("); [reflexivity|discriminate|reflexivity].
Defined.

(** ** De-duplication *)




(** X12. De-duplicating what the de-duplication returned returns it
    again. *)
Theorem unique_params_idempotent l u :
  unique_params l [] = Some u -> unique_params u [] = Some u.
Proof. apply unique_params_fixed. Qed.

Lemma unique_params_idempotent_witness :
  let a := VObj 1 [("in", VStr "query"); ("name", VStr "a")] in
  let b := VObj 2 [("in", VStr "header"); ("name", VStr "a")] in
  unique_params [a; b] [] = Some [a; b].
Proof.
  intros a b.
  apply (unique_params_idempotent
           [a; b; VObj 3 [("in", VStr "query"); ("name", VStr "a")]] [a; b]).
  reflexivity.
Defined.



(** ** The phases of the pass *)

Section Phases.

Variable URL : string -> option url.
Variable RegExp : string -> option (string -> bool).
Variable spec : document.
Variable opts : options.

(** [I] holds up to the error schemas, [J] from there to the end of the
    closure loop, [Done] from there on. *)
Variable I J Done : state -> Prop.

Hypothesis I_collect : forall v,
  triple (entering I v) (collect URL spec (Some v)) (fun _ => I) I True.
Hypothesis I_seen : forall id st, I st -> seen id st = false -> I (mark_seen id st).
Hypothesis I_tag : forall tag st, I st -> I (add_tag tag st).
Hypothesis I_bump : forall st, I st -> I (bump st).
Hypothesis I_next : forall n st,
  I st ->
  I (mkState (usedComponents st) (seenObjects st) (usedTags st) (console st) (scans st) n).
Hypothesis errors :
  triple I (force_errors URL spec) (fun _ => J) (fun _ => True) True.
Hypothesis loop :
  triple J (resolve URL spec (S (length (component_ids spec))))
         (fun _ => Done) (fun _ => True) True.
Hypothesis Done_bump : forall st, Done st -> Done (bump st).

Lemma filter_body_phases :
  triple (fun st => I st /\ next_id st = first_free spec)
         (filter_body URL RegExp spec opts)
         (fun _ => Done) (fun _ => True) True.
Proof.
  assert (Hcollect : forall v, True ->
            triple (entering I v) (collect URL spec (Some v)) (fun _ => I) I True)
    by (intros v _; apply I_collect).
  assert (Hpre : forall v st, I st -> entering I v st)
    by (intros v st H; apply entering_intro; auto).
  unfold filter_body.
  eapply triple_bind with (R := fun _ => I).
  { apply triple_gets. intros st [H _]. exact H. }
  intros n. destruct (deep_copy_fields spec n) as [copy n'].
  eapply triple_bind with (R := fun _ => I).
  { apply triple_modify. intros st H. now apply I_next. }
  intros ?. eapply triple_bind with (R := fun _ => I).
  { apply triple_fresh. intros st H. now apply I_bump. }
  intros pid. cbv zeta.
  destruct (compile_pattern RegExp opts) as [r|].
  2:{ eapply triple_bind with (R := fun _ _ => False).
      - apply triple_throw. auto.
      - intros ? st []. }
  eapply triple_bind with (R := fun _ => I).
  { apply triple_ret. auto. }
  intros pathRegex. eapply triple_bind with (R := fun _ => I).
  { eapply triple_weaken;
      [apply (paths_loop_keeps URL RegExp spec opts I (fun _ => True) (entering I) True
                Hpre Hcollect I_tag I_bump pathRegex)
      | | | | ]; auto.
    intros a' st [H _]. exact H. }
  intros acc. eapply triple_bind with (R := fun _ => I).
  { match goal with |- context [truthy ?s] => destruct (truthy s) end.
    - eapply triple_bind with (R := fun _ => I).
      { apply triple_fresh. intros st H. now apply I_bump. }
      intros w. eapply triple_weaken;
        [apply (collect_keeps_top URL spec I (fun _ => True) (entering I) True Hpre Hcollect)
        | | | | ]; auto.
    - apply triple_ret. auto. }
  intros ?. eapply triple_bind; [apply errors|].
  intros ?. eapply triple_bind; [apply loop|].
  intros ?. apply triple_frame. intros st0 H0.
  eapply triple_bind with (R := fun _ => Done).
  { eapply triple_weaken;
      [apply (filter_components_keeps spec opts Done True Done_bump (usedComponents st0))
      | | | | ]; simpl; auto.
    - intros st ->. auto.
    - intros x st [[H _] _]. exact H. }
  intros X1. apply triple_frame. intros st1 H1.
  eapply triple_bind with (R := fun _ => Done).
  { eapply triple_weaken;
      [apply (filter_tags_keeps spec opts Done True Done_bump
                (usedComponents st1) (usedTags st1))
      | | | | ]; simpl; auto.
    - intros st ->. auto.
    - intros x st [[H _] _]. exact H. }
  intros X2. apply triple_ret. auto.
Qed.

End Phases.

(** ** The error schemas *)

(** A name in a reachable set stays there through a scan. *)
Lemma collect_keeps_name URL spec x t c :
  triple (fun st => set_has x (usedComponents st t) = true)
         (collect URL spec c)
         (fun _ st => set_has x (usedComponents st t) = true)
         (fun st => set_has x (usedComponents st t) = true) True.
Proof.
  destruct c as [c|].
  - eapply triple_weaken;
      [apply (collect_keeps_stable URL spec
                (fun st => set_has x (usedComponents st t) = true))| | | |]; auto.
    + intros t' y st H. now apply set_has_add_used.
    + intros st H. apply entering_intro; auto.
  - intros st H. exact H.
Qed.

Lemma force_error_keeps_name URL spec x t name :
  triple (fun st => set_has x (usedComponents st t) = true)
         (c <- component_of spec schemas (Some (VStr name)) ;;
          if truthy c
          then modify (add_used schemas (Some (VStr name))) ;; collect URL spec c
          else ret tt)
         (fun _ st => set_has x (usedComponents st t) = true)
         (fun st => set_has x (usedComponents st t) = true) True.
Proof.
  apply triple_bind_component_of; [|auto].
  intros c _. destruct (truthy c); [|apply triple_ret; auto].
  eapply triple_bind with (R := fun _ st => set_has x (usedComponents st t) = true).
  - apply triple_modify. intros st H. now apply set_has_add_used.
  - intros ?. apply collect_keeps_name.
Qed.

Lemma set_has_add_used_same name t st :
  set_has (Some (VStr name)) (usedComponents (add_used t (Some (VStr name)) st) t) = true.
Proof.
  simpl. unfold type_eqb. rewrite String.eqb_refl. apply set_has_set_add_new.
Qed.

(** After the error schemas are forced, those the source defines are in the
    reachable set of [schemas]. *)
Lemma force_errors_adds URL spec :
  triple (fun _ => True) (force_errors URL spec)
         (fun _ => errors_forced spec) (fun _ => True) True.
Proof.
  unfold force_errors, errors_forced. generalize ERROR_COMPONENTS as l.
  induction l as [|x r IH]; simpl.
  - apply triple_ret. intros st _ name c [].
  - eapply triple_bind with
      (R := fun _ st =>
              forall c, find_component spec schemas (Some (VStr x)) = Some (Some c) ->
                        truthy (Some c) = true ->
                        set_has (Some (VStr x)) (usedComponents st schemas) = true).
    + apply triple_bind_component_of; [|auto].
      intros c Hc. destruct (truthy c) eqn:Ht.
      * eapply triple_bind with
          (R := fun _ st => set_has (Some (VStr x)) (usedComponents st schemas) = true).
        -- apply triple_modify. intros st _. apply set_has_add_used_same.
        -- intros ?.
           eapply triple_weaken;
             [apply (collect_keeps_name URL spec (Some (VStr x)) schemas c)| | | |]; auto.
      * apply triple_ret. intros st _ c' Hc' Ht'. congruence.
    + intros ?.
      destruct (find_component spec schemas (Some (VStr x))) as [[c|]|] eqn:Hc.
      2,3: eapply triple_weaken;
             [apply IH|simpl; auto
             |intros a' st H name c' [<-|Hin] Hc' Ht'; [congruence|eauto]
             |auto|auto].
      destruct (truthy (Some c)) eqn:Ht.
      2:{ eapply triple_weaken;
            [apply IH|simpl; auto
            |intros a' st H name c' [<-|Hin] Hc' Ht'; [|eauto]
            |auto|auto].
          rewrite Hc in Hc'. inversion Hc'; subst c'.
          change (truthy (Some c) = true) in Ht'. congruence. }
      eapply triple_weaken;
        [apply (triple_conj _ _ _ _ _ _ _ _ _
                  (triple_forEach _
                     (fun st => set_has (Some (VStr x)) (usedComponents st schemas) = true)
                     r _ _ True
                     (fun name _ => force_error_keeps_name URL spec _ _ name))
                  IH)
        | | | |]; auto.
      * intros st H. split; auto. apply (H c); auto.
      * intros a' st [H1 H2] name c' [<-|Hin] Hc' Ht'; eauto.
Qed.

Lemma errors_forced_loop URL spec fuel :
  triple (errors_forced spec) (resolve URL spec fuel)
         (fun _ => errors_forced spec) (fun _ => True) True.
Proof.
  assert (Hadd : forall t x st, errors_forced spec st -> errors_forced spec (add_used t x st)).
  { intros t x st H name c Hn Hc Ht. apply set_has_add_used. eauto. }
  eapply triple_weaken;
    [apply (resolve_keeps URL spec (errors_forced spec) (fun _ => True)
              (entering (errors_forced spec)) True)| | | |]; auto.
  - intros v st H. apply entering_intro; auto.
  - intros v _. apply collect_keeps_stable; auto.
Qed.

(** X15. A conventional error schema ([Error], [Failure],
    [ValidationError], [AccessDeniedError], [AuthzError]) that the source
    defines with a truthy definition is in the schemas of the output,
    whatever the filters, unless internal components are excluded and it
    carries the [x-internal] marker. *)
Theorem error_schema_forced URL RegExp spec opts out spec' st name ci cfields i fields c :
  filterOpenAPI URL RegExp spec opts = Ok (out, spec') st ->
  In name ERROR_COMPONENTS ->
  assoc "components" spec = Some (VObj ci cfields) ->
  assoc "schemas" cfields = Some (VObj i fields) ->
  NoDup (map fst fields) ->
  assoc name fields = Some c ->
  truthy (Some c) = true ->
  excludeInternalComponents opts = false \/ truthy (get c "x-internal") = false ->
  exists oi ofields ci' cat,
    assoc "components" out = Some (VObj oi ofields) /\
    assoc "schemas" ofields = Some (VObj ci' cat) /\
    assoc name cat = Some c.
Proof.
  intros Hrun Hname Hcomps Hcat Hnd Hc Ht Hint.
  assert (Hforced : errors_forced spec st).
  { pose proof (filter_body_phases URL RegExp spec opts
                  (fun _ => True) (errors_forced spec) (errors_forced spec)) as H.
    unfold filterOpenAPI in Hrun.
    specialize (fun a b c' d e f g h => H a b c' d e f g h (initial_state spec opts)).
    rewrite Hrun in H. apply H; auto.
    - intros v. apply collect_keeps_stable; auto.
    - apply force_errors_adds.
    - apply errors_forced_loop. }
  apply (reachable_component_present URL RegExp spec opts out spec' st name schemas
           ci cfields i fields c); auto.
  apply (Hforced name c); auto.
  unfold find_component. rewrite Hcomps. simpl. rewrite Hcat. simpl. now rewrite Hc.
Qed.

Lemma error_schema_forced_witness :
  exists out spec' st oi ofields ci' cat,
    filterOpenAPI Whatwg.URL_file Whatwg.RegExp_none SampleErrors.spec Sample.only_user
    = Ok (out, spec') st /\
    assoc "components" out = Some (VObj oi ofields) /\
    assoc "schemas" ofields = Some (VObj ci' cat) /\
    assoc "Error" cat = Some (VObj 4 [("type", VStr "object")]).
Proof.
  destruct (filterOpenAPI Whatwg.URL_file Whatwg.RegExp_none SampleErrors.spec Sample.only_user)
    as [[out spec'] st|e st|] eqn:E.
  2,3: vm_compute in E; discriminate.
  destruct (error_schema_forced _ _ _ _ _ _ _ "Error" 2
              [("schemas",
                VObj 3 [("Error", VObj 4 [("type", VStr "object")]); ("Other", VObj 5 [])])]
              3 [("Error", VObj 4 [("type", VStr "object")]); ("Other", VObj 5 [])]
              (VObj 4 [("type", VStr "object")]) E)
    as (oi & ofields & ci' & cat & H1 & H2 & H3).
  - simpl. auto.
  - reflexivity.
  - reflexivity.
  - simpl. repeat (constructor; [simpl; intuition discriminate|]). constructor.
  - reflexivity.
  - reflexivity.
  - now left.
  - exists out, spec', st, oi, ofields, ci', cat. auto.
Defined.

(** ** The input after the call *)

Lemma triple_any (A : Type) (m : M A) :
  triple (fun _ => True) m (fun _ _ => True) (fun _ => True) True.
Proof. intros st _. destruct (m st); exact Logic.I. Qed.

(** One entry of [spec.paths], as the callback of the paths loop leaves
    it. *)
Lemma process_path_visited URL spec opts pathRegex acc e :
  In e (path_entries spec) ->
  triple (fun _ => True) (process_path URL spec opts pathRegex acc e)
         (fun acc' _ =>
            exists e', visitedPaths acc' = visitedPaths acc ++ [e'] /\
                       path_visited opts pathRegex e e')
         (fun _ => True) True.
Proof.
  intros Hin. destruct e as [path pathItem]. unfold process_path, path_visited.
  destruct (selected pathRegex path) eqn:Hsel; simpl negb; cbv iota.
  2:{ apply triple_ret. intros st _. exists (path, pathItem). simpl.
      rewrite Hsel. auto. }
  eapply triple_bind with (R := fun _ _ => True); [apply triple_any|].
  intros id. apply triple_bind_get_M; [|auto]. intros _.
  eapply triple_bind with (R := fun _ _ => True); [apply triple_any|].
  intros ?. eapply triple_bind.
  { apply (path_item_keeps URL (fun _ => None) spec opts (fun _ => True) (fun _ => True)
             (fun _ _ => True) True) with (pathRegex := pathRegex)
                                          (path := path) (pathItem := pathItem); auto.
    intros v _. apply triple_any. }
  intros item. apply triple_assume. intros (Hv & _ & _). cbv zeta.
  destruct (hasOperations item).
  - eapply triple_bind with (R := fun _ _ => True); [apply triple_any|].
    intros ?. apply triple_ret. intros st _.
    exists (path, rebuild pathItem (visited item)). simpl. rewrite Hsel. eauto.
  - apply triple_ret. intros st _.
    exists (path, rebuild pathItem (visited item)). simpl. rewrite Hsel. eauto.
Qed.

Lemma paths_loop_visited URL spec opts pathRegex :
  triple (fun _ => True)
         (foldM (process_path URL spec opts pathRegex) (path_entries spec) (mkPaths [] []))
         (fun acc _ =>
            Forall2 (path_visited opts pathRegex) (path_entries spec) (visitedPaths acc))
         (fun _ => True) True.
Proof.
  eapply triple_weaken;
    [apply triple_foldM_prefix with
       (Inv := fun pre acc (_ : state) =>
                 Forall2 (path_visited opts pathRegex) pre (visitedPaths acc))
       (E := fun _ => True) (F := True)
    | | | | ]; simpl; auto.
  intros pre x post b Hl st Hpre.
  assert (Hin : In x (path_entries spec)).
  { rewrite Hl. apply in_or_app. right. now left. }
  pose proof (process_path_visited URL spec opts pathRegex b x Hin st Logic.I) as H.
  destruct (process_path URL spec opts pathRegex b x st) as [acc' st'|e st'|]; auto.
  destruct H as (e' & -> & He'). apply Forall2_app; auto.
Qed.

Lemma filter_body_input URL RegExp spec opts :
  triple (fun _ => True) (filter_body URL RegExp spec opts)
         (fun r _ =>
            exists pathRegex,
              compile_pattern RegExp opts = Some pathRegex /\
              input_left opts pathRegex spec (snd r))
         (fun _ => True) True.
Proof.
  unfold filter_body.
  eapply triple_bind with (R := fun _ _ => True); [apply triple_any|].
  intros n. destruct (deep_copy_fields spec n) as [copy n'].
  eapply triple_bind with (R := fun _ _ => True); [apply triple_any|].
  intros ?. eapply triple_bind with (R := fun _ _ => True); [apply triple_any|].
  intros pid. cbv zeta.
  destruct (compile_pattern RegExp opts) as [r|] eqn:Hpat.
  2:{ eapply triple_bind with (R := fun _ _ => False).
      - apply triple_throw. auto.
      - intros ? st []. }
  eapply triple_bind with (R := fun a _ => True /\ a = r).
  { apply triple_ret. auto. }
  intros pathRegex. apply triple_assume. intros ->.
  eapply triple_bind with
    (R := fun acc _ =>
            True /\
            Forall2 (path_visited opts r) (path_entries spec) (visitedPaths acc)).
  { eapply triple_weaken; [apply paths_loop_visited| | | |]; simpl; auto. }
  intros acc. apply triple_assume. intros Hvis.
  eapply triple_bind with (R := fun _ _ => True); [apply triple_any|].
  intros ?. eapply triple_bind with (R := fun _ _ => True); [apply triple_any|].
  intros ?. eapply triple_bind with (R := fun _ _ => True); [apply triple_any|].
  intros ?. eapply triple_bind with (R := fun _ _ => True); [apply triple_any|].
  intros X1. eapply triple_bind with (R := fun _ _ => True); [apply triple_any|].
  intros X2. apply triple_ret. intros st _. exists r. split; auto.
  cbn [snd]. unfold input_left. unfold path_entries in Hvis.
  destruct (assoc "paths" spec) as [ps|] eqn:Hps.
  - destruct (truthy (Some ps)) eqn:Ht.
    + split.
      * intros k Hk. now apply assoc_set_field_other.
      * exists (visitedPaths acc). split; auto. apply assoc_set_field_same.
    + split; auto.
  - split; auto.
Qed.

(** X16. When the call returns, the input is as the call found it, apart
    from the retained operations of the paths the pattern selects: the
    [parameters] of such an operation, if it has any, is a new array, the
    de-duplicated list.  Every other field of the document, of its path
    items and of its operations is the value it was. *)
Theorem input_after_call URL RegExp spec opts out spec' st :
  filterOpenAPI URL RegExp spec opts = Ok (out, spec') st ->
  exists pathRegex,
    compile_pattern RegExp opts = Some pathRegex /\
    input_left opts pathRegex spec spec'.
Proof.
  intros Hrun.
  pose proof (filter_body_input URL RegExp spec opts (initial_state spec opts) Logic.I) as H.
  unfold filterOpenAPI in Hrun. rewrite Hrun in H. exact H.
Qed.

Lemma input_after_call_witness :
  exists out spec' st,
    Sample.run Sample.users Sample.only_user = Ok (out, spec') st /\
    input_left Sample.only_user None Sample.users spec'.
Proof.
  unfold Sample.run.
  destruct (filterOpenAPI Whatwg.URL_file Whatwg.RegExp_none Sample.users Sample.only_user)
    as [[out spec'] st|e st|] eqn:E.
  2,3: vm_compute in E; discriminate.
  destruct (input_after_call _ _ _ _ _ _ _ E) as (pathRegex & Hpat & H).
  vm_compute in Hpat. inversion Hpat; subst pathRegex.
  exists out, spec', st. auto.
Defined.

(** ** What the scan of an object adds *)

Lemma forEach_establishes (A : Type) (P : A -> state -> Prop) l (f : A -> M unit) :
  (forall x, triple (fun _ => True) (f x) (fun _ => P x) (fun _ => True) True) ->
  (forall x y, triple (P x) (f y) (fun _ => P x) (fun _ => True) True) ->
  triple (fun _ => True) (forEach l f)
         (fun _ st => forall x, In x l -> P x st) (fun _ => True) True.
Proof.
  intros Hf Hkeep. induction l as [|x r IH]; simpl.
  - apply triple_ret. intros st _ x [].
  - eapply triple_bind; [apply (Hf x)|]. intros ?.
    eapply triple_weaken;
      [apply (triple_conj _ _ _ _ _ _ _ _ _
                (triple_forEach _ (P x) r f (fun _ => True) True
                   (fun y _ => Hkeep x y))
                IH)
      |simpl; auto| |auto|auto].
    intros a' st [H1 H2] y [<-|Hy]; auto.
Qed.

Section StableScan.

Variable URL : string -> option url.
Variable spec : document.

(** A property of the closure state that no step of a scan undoes. *)
Variable S : state -> Prop.
Hypothesis S_used : forall t x st, S st -> S (add_used t x st).
Hypothesis S_seen : forall id st, S st -> S (mark_seen id st).
Hypothesis S_warn : forall msg st, S st -> S (add_warning msg st).

Lemma entering_stable v st : S st -> entering S v st.
Proof. intros H. apply entering_intro; auto. Qed.

Lemma track_stable (obj : value) t x st :
  S st ->
  match find_component spec t x with
  | Some (Some c) =>
      if truthy (Some c) then True /\ entering S c (add_used t x st)
      else S (add_used t x st)
  | _ => S (add_used t x st)
  end.
Proof.
  intros H. destruct (find_component spec t x) as [[c|]|]; auto.
  destruct (truthy (Some c)); auto. split; auto. apply entering_stable; auto.
Qed.

Lemma collectReferences_stable fuel v :
  triple (entering S v) (collectReferences URL spec fuel (Some v)) (fun _ => S) S True.
Proof.
  apply collectReferences_keeps with (V := fun _ => True); auto.
  intros obj t x st _ _ H _. now apply track_stable.
Qed.

Lemma collectReferences_stable_any fuel c :
  triple S (collectReferences URL spec fuel c) (fun _ => S) S True.
Proof.
  destruct c as [v|].
  - eapply triple_weaken; [apply (collectReferences_stable fuel v)| | | |]; auto.
    intros st H. now apply entering_stable.
  - destruct fuel; [intros st _; exact Logic.I|]. simpl. apply triple_ret. auto.
Qed.

Lemma scan_stable fuel obj :
  preserves S True (scan URL spec (collectReferences URL spec fuel) obj).
Proof.
  apply scan_keeps with (V := fun _ => True) (Pre := entering S); auto.
  - intros v st H. now apply entering_stable.
  - intros o t x st _ _ H _. now apply track_stable.
  - intros v _. apply collectReferences_stable.
Qed.

Lemma scan_dto_stable fuel obj :
  preserves S True (scan_dto spec (collectReferences URL spec fuel) obj).
Proof.
  apply (scan_dto_keeps URL spec S (fun _ => True) (entering S) True); auto.
  - intros o t x st _ _ H _. now apply track_stable.
  - intros v _. apply collectReferences_stable.
Qed.

Lemma scan_values_stable fuel obj :
  preserves S True (scan_values (collectReferences URL spec fuel) obj).
Proof.
  apply (scan_values_keeps S (fun _ => True) (entering S) True); auto.
  - intros v st H. now apply entering_stable.
  - intros v _. apply collectReferences_stable.
Qed.

End StableScan.

Lemma set_has_set_add_same x s : set_has x (set_add x s) = true.
Proof.
  unfold set_add. destruct (set_has x s) eqn:E; auto.
  unfold set_has. rewrite existsb_app. simpl.
  rewrite same_value_zero_refl. now rewrite orb_true_r.
Qed.

Lemma set_has_add_used_new x t st :
  set_has x (usedComponents (add_used t x st) t) = true.
Proof.
  simpl. unfold type_eqb. rewrite String.eqb_refl. apply set_has_set_add_same.
Qed.

(** The security requirements of an object put their keys into the
    reachable set of [securitySchemes]. *)
Lemma scan_security_adds obj :
  triple (fun _ => True) (scan_security obj)
         (fun _ st =>
            forall si l req k,
              get obj "security" = Some (VArr si l) ->
              In req l -> truthy (Some req) = true -> In k (keys_of req) ->
              set_has (Some (VStr k)) (usedComponents st securitySchemes) = true)
         (fun _ => True) True.
Proof.
  unfold scan_security, when_truthy.
  destruct (get obj "security") as [sec|] eqn:Hsec.
  2:{ apply triple_ret. intros st _ si l req k Hg. discriminate. }
  destruct (truthy (Some sec)) eqn:Ht.
  2:{ apply triple_ret. intros st _ si l req k Hg. inversion Hg; subst. discriminate. }
  destruct sec; try (apply triple_throw; auto).
  eapply triple_weaken;
    [apply (forEach_establishes _
              (fun req st =>
                 truthy (Some req) = true ->
                 forall k, In k (keys_of req) ->
                           set_has (Some (VStr k)) (usedComponents st securitySchemes) = true))
    |simpl; auto| |auto|auto].
  - intros req. destruct (truthy (Some req)) eqn:Hreq.
    + eapply triple_weaken;
        [apply (forEach_establishes _
                  (fun k st =>
                     set_has (Some (VStr k)) (usedComponents st securitySchemes) = true))
        |simpl; auto| |auto|auto].
      * intros k. apply triple_modify. intros st _. apply set_has_add_used_new.
      * intros k k'. apply triple_modify. intros st H. now apply set_has_add_used.
      * intros a' st H _. exact H.
    + simpl. apply triple_ret. intros st _ Hc. discriminate.
  - intros req req'. apply triple_forEach. intros k _.
    apply triple_modify. intros st H Hreq k' Hk'. apply set_has_add_used. auto.
  - intros a' st H si l req k Hg Hin Hreq Hk.
    inversion Hg; subst. eauto.
Qed.

(** The response DTO of an object is put into the reachable set of
    [schemas]. *)
Lemma scan_dto_adds URL spec fuel obj :
  triple (fun _ => True) (scan_dto spec (collectReferences URL spec fuel) obj)
         (fun _ st =>
            forall d, get obj "x-responseDTO" = Some d -> truthy (Some d) = true ->
                      set_has (Some d) (usedComponents st schemas) = true)
         (fun _ => True) True.
Proof.
  unfold scan_dto, when_truthy.
  destruct (get obj "x-responseDTO") as [d|] eqn:Hd.
  2:{ apply triple_ret. intros st _ d Hg. discriminate. }
  destruct (truthy (Some d)) eqn:Ht.
  2:{ apply triple_ret. intros st _ d' Hg Ht'. inversion Hg; subst. congruence. }
  unfold trackComponent.
  eapply triple_weaken with
    (Q' := fun _ st => set_has (Some d) (usedComponents st schemas) = true)
    (P' := fun _ => True) (E' := fun _ => True) (F' := True); auto.
  2:{ intros a' st H d' Hd'. inversion Hd'; subst. auto. }
  eapply triple_bind with (R := fun used st => used = usedComponents st schemas).
  { apply triple_gets. auto. }
  intros used. destruct (set_has (Some d) used) eqn:Hhas.
  { apply triple_ret. intros st ->. exact Hhas. }
  eapply triple_bind with
    (R := fun _ st => set_has (Some d) (usedComponents st schemas) = true).
  { apply triple_modify. intros st _. apply set_has_add_used_new. }
  intros ?. apply triple_bind_component_of; [|auto].
  intros c _. destruct (truthy c); [|apply triple_ret; auto].
  eapply triple_weaken;
    [apply (collectReferences_stable_any URL spec
              (fun st => set_has (Some d) (usedComponents st schemas) = true))
    | | | |]; auto.
  intros t x st0 H. now apply set_has_add_used.
Qed.

Lemma scan_adds_both URL spec fuel obj :
  triple (fun _ => True) (scan URL spec (collectReferences URL spec fuel) obj)
         (fun _ st =>
            (forall d, get obj "x-responseDTO" = Some d -> truthy (Some d) = true ->
                       set_has (Some d) (usedComponents st schemas) = true) /\
            (forall si l req k,
                get obj "security" = Some (VArr si l) ->
                In req l -> truthy (Some req) = true -> In k (keys_of req) ->
                set_has (Some (VStr k)) (usedComponents st securitySchemes) = true))
         (fun _ => True) True.
Proof.
  set (Jd := fun st =>
               forall d, get obj "x-responseDTO" = Some d -> truthy (Some d) = true ->
                         set_has (Some d) (usedComponents st schemas) = true).
  set (Js := fun st =>
               forall si l req k,
                 get obj "security" = Some (VArr si l) ->
                 In req l -> truthy (Some req) = true -> In k (keys_of req) ->
                 set_has (Some (VStr k)) (usedComponents st securitySchemes) = true).
  assert (Hs_used : forall t x st, Js st -> Js (add_used t x st)).
  { intros t x st H si l req k Hg Hin Hr Hk. apply set_has_add_used. eauto. }
  assert (Hd_used : forall t x st, Jd st -> Jd (add_used t x st)).
  { intros t x st H d Hg Ht. apply set_has_add_used. eauto. }
  unfold scan.
  eapply triple_bind with (R := fun _ _ => True); [apply triple_any|]. intros ?.
  eapply triple_bind with (R := fun _ _ => True); [apply triple_any|]. intros ?.
  eapply triple_bind with (R := fun _ _ => True); [apply triple_any|]. intros ?.
  eapply triple_bind with (R := fun _ _ => True); [apply triple_any|]. intros ?.
  eapply triple_bind with (R := fun _ _ => True); [apply triple_any|]. intros ?.
  eapply triple_bind with (R := fun _ => Js); [apply scan_security_adds|]. intros ?.
  eapply triple_bind with (R := fun _ st => Js st /\ Jd st).
  { eapply triple_weaken;
      [apply (triple_conj _ _ _ _ _ _ _ _ _
                (scan_dto_stable URL spec Js Hs_used (fun _ st H => H) (fun _ st H => H)
                   fuel obj)
                (scan_dto_adds URL spec fuel obj))
      |simpl; auto|simpl; auto|auto|auto]. }
  intros ?.
  eapply triple_weaken;
    [apply (scan_values_stable URL spec (fun st => Js st /\ Jd st)) with (fuel := fuel)
                                                                      (obj := obj)
    |simpl; auto| |auto|auto].
  - intros t x st [H1 H2]. split; auto.
  - intros id st H. exact H.
  - intros msg st H. exact H.
  - intros a' st [H1 H2]. split; auto.
Qed.

(** X17. The scan of an object not visited before, when it ends normally,
    has put into the reachable sets the name under [x-responseDTO] of the
    object (for [schemas]) and the keys of the requirements under its
    [security] (for [securitySchemes]). *)
Theorem scan_adds URL spec obj id st st' :
  container_id obj = Some id ->
  seen id st = false ->
  collect URL spec (Some obj) st = Ok tt st' ->
  (forall d, get obj "x-responseDTO" = Some d -> truthy (Some d) = true ->
             set_has (Some d) (usedComponents st' schemas) = true) /\
  (forall si l req k,
      get obj "security" = Some (VArr si l) ->
      In req l -> truthy (Some req) = true -> In k (keys_of req) ->
      set_has (Some (VStr k)) (usedComponents st' securitySchemes) = true).
Proof.
  intros Hid Hseen Hrun. unfold collect in Hrun.
  remember (length (ids obj) + length (component_ids spec)) as fuel.
  simpl in Hrun. unfold collect_body in Hrun.
  pose proof (scan_adds_both URL spec fuel obj (mark_seen id st) Logic.I) as H.
  unfold seen in Hseen.
  destruct obj; simpl in Hid; try discriminate; inversion Hid; subst id0;
    unfold bind, gets, modify in Hrun; rewrite Hseen in Hrun;
    rewrite Hrun in H; exact H.
Qed.

Lemma scan_adds_witness :
  exists st',
    collect Whatwg.URL_file SampleErrors.spec
      (Some (VObj 9 [("security", VArr 10 [VObj 11 [("key", VArr 12 [])]])]))
      (initial_state SampleErrors.spec Sample.defaults)
    = Ok tt st' /\
    set_has (Some (VStr "key")) (usedComponents st' securitySchemes) = true.
Proof.
  destruct (collect Whatwg.URL_file SampleErrors.spec
              (Some (VObj 9 [("security", VArr 10 [VObj 11 [("key", VArr 12 [])]])]))
              (initial_state SampleErrors.spec Sample.defaults))
    as [[] st'|e st'|] eqn:E.
  2,3: vm_compute in E; discriminate.
  exists st'. split; auto.
  destruct (scan_adds Whatwg.URL_file SampleErrors.spec
              (VObj 9 [("security", VArr 10 [VObj 11 [("key", VArr 12 [])]])]) 9
              (initial_state SampleErrors.spec Sample.defaults) st'
              eq_refl eq_refl E) as [_ H].
  apply (H 10 [VObj 11 [("key", VArr 12 [])]] (VObj 11 [("key", VArr 12 [])]) "key");
    simpl; auto.
Defined.

(** ** The order of what is kept *)

Lemma path_left_filter opts pathRegex ents ks :
  Forall2 (path_left opts pathRegex) ents ks ->
  map fst (concat ks)
  = map fst (filter (fun e => selected pathRegex (fst e) &&
                              existsb (retained_entry opts) (entries (snd e))) ents).
Proof.
  induction 1 as [|e k r kr Hleft Hr IH]; simpl; auto.
  destruct Hleft as [[-> [Hn|Hn]]|(id & ents' & -> & Hsel & Hret & _)]; simpl.
  - now rewrite Hn.
  - rewrite Hn, andb_false_r. exact IH.
  - rewrite Hsel, Hret. simpl. now rewrite IH.
Qed.

(** X18. When the keys of [paths] in the source are distinct and none is
    ["__proto__"], the paths of the output are, in the order of the source,
    the paths that the pattern selects and that have an operation the tag
    filter retains. *)
Theorem output_paths_order URL RegExp spec opts out spec' st pathRegex :
  filterOpenAPI URL RegExp spec opts = Ok (out, spec') st ->
  compile_pattern RegExp opts = Some pathRegex ->
  NoDup (map fst (path_entries spec)) ->
  ~ In "__proto__" (map fst (path_entries spec)) ->
  exists pid fp,
    assoc "paths" out = Some (VObj pid fp) /\
    map fst fp
    = map fst (filter (fun e => selected pathRegex (fst e) &&
                                existsb (retained_entry opts) (entries (snd e)))
                      (path_entries spec)).
Proof.
  intros Hrun Hpat Hnd Hp.
  destruct (output_paths _ _ _ _ _ _ _ Hrun) as (pathRegex' & pid & ks & Hpat' & Hks & Hout).
  rewrite Hpat in Hpat'. inversion Hpat'; subst pathRegex'.
  exists pid, (assign_all (concat ks)). split; auto.
  rewrite assign_all_id.
  - now apply path_left_filter.
  - now apply (path_left_keys opts pathRegex (path_entries spec)).
  - rewrite (path_left_filter _ _ _ _ Hks). intros Hin. apply Hp.
    apply in_map_iff in Hin as (e & He & Hin). apply filter_In in Hin as [Hin _].
    apply in_map_iff. eauto.
Qed.

Lemma output_paths_order_witness :
  exists out spec' st pid fp,
    Sample.run Sample.users Sample.only_user = Ok (out, spec') st /\
    assoc "paths" out = Some (VObj pid fp) /\
    map fst fp = ["/users"].
Proof.
  unfold Sample.run.
  destruct (filterOpenAPI Whatwg.URL_file Whatwg.RegExp_none Sample.users Sample.only_user)
    as [[out spec'] st|e st|] eqn:E.
  2,3: vm_compute in E; discriminate.
  destruct (output_paths_order _ _ _ _ _ _ _ None E) as (pid & fp & Hp & Hk).
  - reflexivity.
  - simpl. repeat constructor. simpl. tauto.
  - simpl. intuition discriminate.
  - exists out, spec', st, pid, fp. auto.
Defined.

Lemma from_entries_id l : NoDup (map fst l) -> from_entries l = l.
Proof.
  unfold from_entries.
  assert (G : forall acc,
            NoDup (map fst (acc ++ l)) ->
            fold_left (fun o kv => set_field (fst kv) (snd kv) o) l acc = acc ++ l).
  { induction l as [|[k v] r IH]; intros acc Hnd; simpl.
    - now rewrite app_nil_r.
    - rewrite set_field_fresh.
      + rewrite IH; now rewrite <- app_assoc.
      + rewrite map_app in Hnd. simpl in Hnd.
        apply NoDup_remove_2 in Hnd. intros Hin. apply Hnd.
        apply in_or_app. now left. }
  intros Hnd. apply (G [] Hnd).
Qed.

(** X19. A category of the components of the output is never empty: it
    holds, in the order of the source, the entries of the source category
    (an object with distinct keys) that the [filter] callback keeps, and it
    is absent when the callback keeps none. *)
Theorem output_category_order URL RegExp spec opts out spec' st t ci cfields i fields
        oi ofields :
  filterOpenAPI URL RegExp spec opts = Ok (out, spec') st ->
  assoc "components" spec = Some (VObj ci cfields) ->
  assoc (type_name t) cfields = Some (VObj i fields) ->
  NoDup (map fst fields) ->
  assoc "components" out = Some (VObj oi ofields) ->
  match filter (fun e => is_true (keep_component opts (usedComponents st t)
                                    (VObj i fields) e)) fields with
  | [] => assoc (type_name t) ofields = None
  | kept => exists id, assoc (type_name t) ofields = Some (VObj id kept)
  end.
Proof.
  intros Hrun Hcomps Hcat Hnd Hout.
  apply filterOpenAPI_assembled in Hrun
    as (pathRegex & _ & pid & acc & X1 & X2 & _ & H1 & H2 & ->).
  pose proof (clean_empty_fields_components_inv _ _ Hout) as HX2.
  rewrite (assoc_with_tags "components" _ _ _ _ _ ltac:(discriminate) H2) in HX2.
  rewrite assoc_with_security_schemes in HX2 by discriminate.
  unfold with_components in H1. rewrite Hcomps in H1. simpl in H1.
  destruct H1 as (id & fc & [Hfc _] & ->).
  rewrite assoc_set_field_same in HX2. inversion HX2; subst oi ofields. clear HX2.
  specialize (Hfc t). unfold category_inv in Hfc. simpl in Hfc. rewrite Hcat in Hfc.
  simpl in Hfc. destruct Hfc as (kept & Hkept & Hassoc).
  rewrite from_entries_id in Hassoc
    by (apply (filter_opt_NoDup _ _ fst _ _ _ Hkept Hnd)).
  rewrite <- (filter_opt_filter _ _ _ _ Hkept). exact Hassoc.
Qed.

Lemma output_category_order_witness :
  exists out spec' st oi ofields id,
    Sample.run Sample.users Sample.only_user = Ok (out, spec') st /\
    assoc "components" out = Some (VObj oi ofields) /\
    assoc "schemas" ofields
    = Some (VObj id [("Error", VObj 17 [("x-responseDTO", VStr "Bar")]);
                     ("Bar", VObj 18 [])]).
Proof.
  unfold Sample.run.
  destruct (filterOpenAPI Whatwg.URL_file Whatwg.RegExp_none Sample.users Sample.only_user)
    as [[out spec'] st|e st|] eqn:E.
  2,3: vm_compute in E; discriminate.
  assert (Hu : usedComponents st schemas = [Some (VStr "Error"); Some (VStr "Bar")]).
  { change (match Ok (out, spec') st with
            | Ok _ s => usedComponents s schemas
            | _ => []
            end = [Some (VStr "Error"); Some (VStr "Bar")]).
    rewrite <- E. vm_compute. reflexivity. }
  assert (Ho : exists oi ofields, assoc "components" out = Some (VObj oi ofields)).
  { pose proof (f_equal (fun r => match r with Ok (o, _) _ => o | _ => [] end) E) as Hout.
    vm_compute in Hout. rewrite <- Hout. do 2 eexists. reflexivity. }
  destruct Ho as (oi & ofields & Ho).
  pose proof (output_category_order _ _ _ _ _ _ _ schemas 14
                [("schemas",
                  VObj 15
                    [("Foo", VObj 16 [("type", VStr "object")]);
                     ("Error", VObj 17 [("x-responseDTO", VStr "Bar")]);
                     ("Bar", VObj 18 [])])]
                15
                [("Foo", VObj 16 [("type", VStr "object")]);
                 ("Error", VObj 17 [("x-responseDTO", VStr "Bar")]);
                 ("Bar", VObj 18 [])]
                oi ofields E eq_refl eq_refl
                ltac:(simpl; repeat (constructor; [simpl; intuition discriminate|]);
                      constructor)
                Ho) as H.
  rewrite Hu in H. vm_compute in H. destruct H as [id H].
  exists out, spec', st, oi, ofields, id. auto.
Defined.

(** ** The call of the script *)

(** X20. The call of the script constructs no pattern, so that its result
    does not depend on [RegExp]; and when it returns, each of the nine names
    it lists that a category of the source (an object with distinct keys)
    defines is in that category of the output, with its definition. *)
Theorem script_keeps_listed URL RegExp spec :
  (forall RegExp', filteredByTag URL RegExp' spec = filteredByTag URL RegExp spec) /\
  forall out spec' st name t ci cfields i fields c,
    filteredByTag URL RegExp spec = Ok (out, spec') st ->
    In name
       ["Error"; "Failure"; "SortOrder"; "PageRequest"; "ResponseDTO"; "RestResponse";
        "ACLAggregateFilter"; "UserGroupRequestV2"; "RoleAssignmentFilter"] ->
    assoc "components" spec = Some (VObj ci cfields) ->
    assoc (type_name t) cfields = Some (VObj i fields) ->
    NoDup (map fst fields) ->
    assoc name fields = Some c ->
    exists oi ofields ci' cat,
      assoc "components" out = Some (VObj oi ofields) /\
      assoc (type_name t) ofields = Some (VObj ci' cat) /\
      assoc name cat = Some c.
Proof.
  split; [reflexivity|].
  intros out spec' st name t ci cfields i fields c Hrun Hname Hcomps Hcat Hnd Hc.
  unfold filteredByTag in Hrun.
  pose proof (reachable_set_grows URL RegExp spec script_options (Some (VStr name)) t
                (set_has_set_of_strings _ _ Hname)) as Hused.
  rewrite Hrun in Hused.
  apply (reachable_component_present URL RegExp spec script_options out spec' st name t
           ci cfields i fields c); auto.
Qed.

Lemma script_keeps_listed_witness :
  exists out spec' st oi ofields ci' cat,
    filteredByTag Whatwg.URL_file Whatwg.RegExp_none SampleErrors.spec = Ok (out, spec') st /\
    assoc "components" out = Some (VObj oi ofields) /\
    assoc "schemas" ofields = Some (VObj ci' cat) /\
    assoc "Error" cat = Some (VObj 4 [("type", VStr "object")]).
Proof.
  destruct (filteredByTag Whatwg.URL_file Whatwg.RegExp_none SampleErrors.spec)
    as [[out spec'] st|e st|] eqn:E.
  2,3: vm_compute in E; discriminate.
  destruct (proj2 (script_keeps_listed Whatwg.URL_file Whatwg.RegExp_none SampleErrors.spec)
              out spec' st "Error" schemas 2
              [("schemas",
                VObj 3 [("Error", VObj 4 [("type", VStr "object")]); ("Other", VObj 5 [])])]
              3 [("Error", VObj 4 [("type", VStr "object")]); ("Other", VObj 5 [])]
              (VObj 4 [("type", VStr "object")]) E)
    as (oi & ofields & ci' & cat & H1 & H2 & H3).
  - simpl. auto.
  - reflexivity.
  - reflexivity.
  - simpl. repeat (constructor; [simpl; intuition discriminate|]). constructor.
  - reflexivity.
  - exists out, spec', st, oi, ofields, ci', cat. auto.
Defined.
